(** * torrentx: a shallow embedding of the BitTorrent client

    The Go sources are embedded package by package:
    - [strconv]  : the two conversion routines of Go's standard library
                   that the decoder calls ([ParseInt], [Atoi]);
    - [bencode]  : the recursive-descent decoder (bencode.go);
    - [p2p]      : handshake and message framing (handshake.go, message.go);
    - [torrent]  : bitfield, piece planner, coordinator loop and the
                   per-piece download loop (torrent.go, worker.go);
    - [client]   : the entry point (main.go).

    Go's [int] and [int64] are 64-bit two's complement integers; they are
    modelled as [Z] and the wrap-around is written out with [wrap64] where
    an operation can leave the range.  A [[]byte] is a [list byte]; a Go
    [string] used as a map key is a [string]; a [map[string]any] is a
    [gmap string _]. *)

From Stdlib Require Import ZArith Lia Strings.Byte.
From stdpp Require Import base numbers option list strings gmap.

Set Warnings "-register-all".

Local Open Scope Z_scope.

(** ** Go primitives *)

Module Go.

Definition int64_min : Z := - 2 ^ 63.
Definition int64_max : Z := 2 ^ 63 - 1.

Definition in_int64 (z : Z) : Prop := int64_min <= z <= int64_max.

(** Two's complement wrap-around of a 64-bit signed operation. *)
Definition wrap64 (z : Z) : Z := (z + 2 ^ 63) mod 2 ^ 64 - 2 ^ 63.

(** Conversion [byte(x)] of an integer: truncation to 8 bits. *)
Definition wrap8 (z : Z) : Z := z mod 256.

(** [len(s)] as a Go [int]. *)
Definition len {A} (s : list A) : Z := Z.of_nat (length s).

(** The numeric value of a byte. *)
Definition b2z (b : byte) : Z := Z.of_N (Byte.to_N b).

(** The byte with a given numeric value (after truncation to 8 bits). *)
Definition z2b (z : Z) : byte :=
default "000"%byte (Byte.of_N (Z.to_N (wrap8 z))).

(** [s[i]] for an index the caller has checked (or whose failure is
  modelled separately): out of range reads give the zero byte here. *)
Definition idx (s : list byte) (i : Z) : byte :=
if i <? 0 then "000"%byte else nth (Z.to_nat i) s "000"%byte.

(** [s[lo:hi]] for [0 <= lo <= hi <= len(s)]. *)
Definition slice {A} (s : list A) (lo hi : Z) : list A :=
take (Z.to_nat (hi - lo)) (drop (Z.to_nat lo) s).

(** [s[lo:]] for [0 <= lo <= len(s)]. *)
Definition slice_from {A} (s : list A) (lo : Z) : list A :=
drop (Z.to_nat lo) s.

(** [bytes.IndexByte(s, c)]: index of the first [c] in [s], or [-1]. *)
Fixpoint IndexByte (s : list byte) (c : byte) : Z :=
match s with
| [] => -1
| b :: s' =>
    if Byte.eqb b c then 0
    else let i := IndexByte s' c in if i =? -1 then -1 else i + 1
end.

#[global] Instance byte_eq_dec : EqDecision byte := Byte.byte_eq_dec.

(** [bytes.Equal(a, b)]. *)
Definition bytes_Equal (a b : list byte) : bool := bool_decide (a = b).

(** [make([]byte, n)] for [0 <= n]. *)
Definition make_bytes (n : Z) : list byte := replicate (Z.to_nat n) "000"%byte.

(** [copy(dst[off:], src)]: overwrites [min(len(dst) - off, len(src))]
  bytes of [dst] from offset [off] on; the length of [dst] does not
  change.  The second component is the number of bytes copied. *)
Definition copy_at (dst : list byte) (off : Z) (src : list byte)
: list byte * Z :=
let n := Z.min (len dst - off) (len src) in
(take (Z.to_nat off) dst ++ take (Z.to_nat n) src
   ++ drop (Z.to_nat (off + n)) dst, n).
Arguments copy_at : simpl never.

(** What a call does: return a value, return an error, panic (a failed
  bounds check or type assertion), or exhaust the fuel of the
  embedding. *)
Inductive outcome (E A : Type) :=
| Ok (a : A)
| Err (e : E)
| Panic
| OutOfFuel.
Arguments Ok {E A} a.
Arguments Err {E A} e.
Arguments Panic {E A}.
Arguments OutOfFuel {E A}.

(** [[]byte(s)] for a string literal. *)
Definition bytes_of (s : string) : list byte := String.list_byte_of_string s.

(** [string(b)] for a byte slice. *)
Definition string_of (b : list byte) : string := String.string_of_list_byte b.

End Go.

(** ** Package strconv (Go standard library)

    Only base 10 and 64 bits are used by the decoder. *)

Module strconv.
Import Go.

Inductive NumError := ErrSyntax | ErrRange.

Definition maxUint64 : Z := 2 ^ 64 - 1.

(** The digit loop of [ParseUint(s, 10, 64)]: [n] is the value so far. *)
Fixpoint ParseUint_loop (s : list byte) (n : Z) : Z * option NumError :=
match s with
| [] => (n, None)
| c :: s' =>
    if (b2z "0" <=? b2z c) && (b2z c <=? b2z "9") then
      let d := b2z c - b2z "0" in
      if n >=? maxUint64 / 10 + 1 then (maxUint64, Some ErrRange)
      else
        let n1 := n * 10 + d in
        if n1 >? maxUint64 then (maxUint64, Some ErrRange)
        else ParseUint_loop s' n1
    else (0, Some ErrSyntax)
end.

Definition ParseUint (s : list byte) : Z * option NumError :=
match s with
| [] => (0, Some ErrSyntax)
| _ => ParseUint_loop s 0
end.

(** [ParseInt(s, 10, 64)]. *)
Definition ParseInt (s : list byte) : Z * option NumError :=
match s with
| [] => (0, Some ErrSyntax)
| c :: s' =>
    let neg := Byte.eqb c "-" in
    let digits := if Byte.eqb c "+" || neg then s' else s in
    let '(un, err) := ParseUint digits in
    match err with
    | Some ErrSyntax => (0, err)
    | _ =>
        let cutoff := 2 ^ 63 in
        if negb neg && (un >=? cutoff) then (cutoff - 1, Some ErrRange)
        else if neg && (un >? cutoff) then (- cutoff, Some ErrRange)
        else (if neg then - un else un, None)
    end
end.

(** The fast path of [Atoi]: strings of 1 to 18 bytes cannot overflow. *)
Fixpoint Atoi_fast_loop (s : list byte) (n : Z) : Z * option NumError :=
match s with
| [] => (n, None)
| ch :: s' =>
    let d := wrap8 (b2z ch - b2z "0") in
    if d >? 9 then (0, Some ErrSyntax)
    else Atoi_fast_loop s' (n * 10 + d)
end.

Definition Atoi (s : list byte) : Z * option NumError :=
let sLen := len s in
if (0 <? sLen) && (sLen <? 19) then
  match s with
  | [] => (0, Some ErrSyntax)
  | c :: s' =>
      let signed := Byte.eqb c "-" || Byte.eqb c "+" in
      let digits := if signed then s' else s in
      if signed && (len digits <? 1) then (0, Some ErrSyntax)
      else
        let '(n, err) := Atoi_fast_loop digits 0 in
        match err with
        | Some _ => (0, err)
        | None => (if Byte.eqb c "-" then - n else n, None)
        end
  end
else ParseInt s.

End strconv.

(** ** Package bencode (bencode.go) *)

Module bencode.
Import Go.

Definition MaxStringLength : Z := 10 * 1024 * 1024.
Definition MaxDepth : Z := 50.

(** The decoder's errors; the last four are the [fmt.Errorf] and
  [errors.New] values built in place, with the error they wrap. *)
Inductive error :=
| ErrTooDeep
| ErrInvalidIntegerFormat
| ErrLeadingZero
| ErrNegativeZero
| ErrInvalidStringFormat
| ErrTooShort
| ErrInvalidListFormat
| ErrInvalidDictFormat
| ErrEmptyData
| ErrStringTooLong
| ErrUnknownType (c : byte)
| ErrInvalidInteger (e : strconv.NumError)
| ErrDictKey (e : error)
| ErrDictValue (key : string) (e : error).

Abbreviation outcome := (Go.outcome error).

(** The decoded tree ([any]): [int64], [[]byte], [[]any],
  [map[string]any]. *)
Inductive bvalue :=
| BInt (n : Z)
| BStr (s : list byte)
| BList (l : list bvalue)
| BDict (m : gmap string bvalue).

Record Decoder := mkDecoder {
data : list byte;
depth : Z;
RawInfo : list byte            (* nil until the info value is seen *)
}.

Definition NewDecoder (data : list byte) : Decoder :=
{| data := data; depth := 0; RawInfo := [] |}.

Definition set_depth (d : Decoder) (n : Z) : Decoder :=
{| data := data d; depth := n; RawInfo := RawInfo d |}.

Definition set_RawInfo (d : Decoder) (raw : list byte) : Decoder :=
{| data := data d; depth := depth d; RawInfo := raw |}.

Definition parseInteger (data : list byte) : outcome (Z * Z) :=
if len data <? 3 then Err ErrInvalidIntegerFormat
else
  let endIdx := IndexByte data "e" in
  if endIdx =? -1 then Err ErrInvalidIntegerFormat
  else if endIdx <? 1 then Panic          (* data[1:0] *)
  else
    let body := slice data 1 endIdx in
    let convert :=
      match strconv.ParseInt body with
      | (_, Some e) => Err (ErrInvalidInteger e)
      | (num, None) => Ok (num, endIdx + 1)
      end in
    if len body =? 0 then Err ErrInvalidIntegerFormat
    else if Byte.eqb (idx body 0) "0" && (len body >? 1)
    then Err ErrLeadingZero
    else if Byte.eqb (idx body 0) "-" then
      if len body =? 1 then Err ErrInvalidIntegerFormat
      else if Byte.eqb (idx body 1) "0" then
        if len body =? 2 then Err ErrNegativeZero
        else Err ErrLeadingZero
      else convert
    else convert.

Definition parseString (data : list byte) : outcome (list byte * Z) :=
let colonIdx := IndexByte data ":" in
if colonIdx <=? 0 then Err ErrInvalidStringFormat
else
  let lenBuf := slice data 0 colonIdx in
  if Byte.eqb (idx lenBuf 0) "0" && (len lenBuf >? 1)
  then Err ErrLeadingZero
  else
    match strconv.Atoi lenBuf with
    | (_, Some _) => Err ErrInvalidStringFormat
    | (length, None) =>
        if length <? 0 then Err ErrInvalidStringFormat
        else if length >? MaxStringLength then Err ErrStringTooLong
        else
          let totalNeeded := colonIdx + 1 + length in
          if len data <? totalNeeded then Err ErrTooShort
          else Ok (slice data (colonIdx + 1) totalNeeded, totalNeeded)
    end.

Section Recursion.
(** [parseList] and [parseDict] call back into [parseValue]; the
loops are given the recursive call as [pv]. *)
Variable pv : list byte -> Decoder -> outcome (bvalue * Z) * Decoder.

(** The [for] loop of [parseList] and what follows it; [n] bounds the
number of iterations. *)
Fixpoint parseList_loop (n : nat) (data : list byte)
(result : list bvalue) (currentPosition : Z) (d : Decoder)
  : outcome (list bvalue * Z) * Decoder :=
  if (currentPosition <? len data)
 && negb (Byte.eqb (idx data currentPosition) "e")
  then
match n with
| O => (OutOfFuel, d)
| S n' =>
    match pv (slice_from data currentPosition) d with
    | (Ok (val, consumed), d') =>
        parseList_loop n' data (result ++ [val])
          (currentPosition + consumed) d'
    | (Err e, d') => (Err e, d')
    | (Panic, d') => (Panic, d')
    | (OutOfFuel, d') => (OutOfFuel, d')
    end
end
  else if (currentPosition >=? len data)
      || negb (Byte.eqb (idx data currentPosition) "e")
  then (Err ErrInvalidListFormat, d)
  else (Ok (result, currentPosition + 1), d).

Definition parseList (data : list byte) (d : Decoder)
  : outcome (bvalue * Z) * Decoder :=
  let d1 := set_depth d (depth d + 1) in
  let '(r, d2) :=
if depth d1 >? MaxDepth then (Err ErrTooDeep, d1)
else if (len data <? 2) || negb (Byte.eqb (idx data 0) "l")
then (Err ErrInvalidListFormat, d1)
else
  match parseList_loop (length data) data [] 1 d1 with
  | (Ok (result, n), d') => (Ok (BList result, n), d')
  | (Err e, d') => (Err e, d')
  | (Panic, d') => (Panic, d')
  | (OutOfFuel, d') => (OutOfFuel, d')
  end in
  (r, set_depth d2 (depth d2 - 1)).            (* the deferred d.depth-- *)

Fixpoint parseDict_loop (n : nat) (data : list byte)
(result : gmap string bvalue) (currentPosition : Z) (d : Decoder)
  : outcome (gmap string bvalue * Z) * Decoder :=
  if (currentPosition <? len data)
 && negb (Byte.eqb (idx data currentPosition) "e")
  then
match n with
| O => (OutOfFuel, d)
| S n' =>
    match parseString (slice_from data currentPosition) with
    | Ok (keyBytes, consumedKey) =>
        let key := string_of keyBytes in
        let currentPosition := currentPosition + consumedKey in
        if currentPosition >=? len data
        then (Err ErrInvalidDictFormat, d)
        else
          match pv (slice_from data currentPosition) d with
          | (Ok (val, consumedVal), d') =>
              let d'' :=
                if bool_decide (key = "info") && (depth d' =? 1)
                then set_RawInfo d'
                       (slice data currentPosition
                          (currentPosition + consumedVal))
                else d' in
              parseDict_loop n' data (<[key := val]> result)
                (currentPosition + consumedVal) d''
          | (Err e, d') => (Err (ErrDictValue key e), d')
          | (Panic, d') => (Panic, d')
          | (OutOfFuel, d') => (OutOfFuel, d')
          end
    | Err e => (Err (ErrDictKey e), d)
    | Panic => (Panic, d)
    | OutOfFuel => (OutOfFuel, d)
    end
end
  else if (currentPosition >=? len data)
      || negb (Byte.eqb (idx data currentPosition) "e")
  then (Err ErrInvalidDictFormat, d)
  else (Ok (result, currentPosition + 1), d).

Definition parseDict (data : list byte) (d : Decoder)
  : outcome (bvalue * Z) * Decoder :=
  let d1 := set_depth d (depth d + 1) in
  let '(r, d2) :=
if depth d1 >? MaxDepth then (Err ErrTooDeep, d1)
else if (len data <? 2) || negb (Byte.eqb (idx data 0) "d")
then (Err ErrInvalidDictFormat, d1)
else
  match parseDict_loop (length data) data ∅ 1 d1 with
  | (Ok (result, n), d') => (Ok (BDict result, n), d')
  | (Err e, d') => (Err e, d')
  | (Panic, d') => (Panic, d')
  | (OutOfFuel, d') => (OutOfFuel, d')
  end in
  (r, set_depth d2 (depth d2 - 1)).

End Recursion.

(** [parseValue]; [fuel] bounds the nesting of the recursive calls. *)
Fixpoint parseValue (fuel : nat) (data : list byte) (d : Decoder)
: outcome (bvalue * Z) * Decoder :=
match fuel with
| O => (OutOfFuel, d)
| S fuel' =>
    match data with
    | [] => (Err ErrEmptyData, d)
    | c :: _ =>
        if Byte.eqb c "i" then
          match parseInteger data with
          | Ok (n, used) => (Ok (BInt n, used), d)
          | Err e => (Err e, d)
          | Panic => (Panic, d)
          | OutOfFuel => (OutOfFuel, d)
          end
        else if (b2z "0" <=? b2z c) && (b2z c <=? b2z "9") then
          match parseString data with
          | Ok (s, used) => (Ok (BStr s, used), d)
          | Err e => (Err e, d)
          | Panic => (Panic, d)
          | OutOfFuel => (OutOfFuel, d)
          end
        else if Byte.eqb c "l" then parseList (parseValue fuel') data d
        else if Byte.eqb c "d" then parseDict (parseValue fuel') data d
        else (Err (ErrUnknownType c), d)
    end
end.

(** [Decode], the entry point, run on the decoder's own buffer.  Every
  call of [parseValue] consumes at least one byte of its input, so
  [S (length data)] nested calls are enough (see [Decode_total]). *)
Definition Decode (d : Decoder) : outcome bvalue * Decoder :=
match parseValue (S (length (data d))) (data d) d with
| (Ok (val, _), d') => (Ok val, d')
| (Err e, d') => (Err e, d')
| (Panic, d') => (Panic, d')
| (OutOfFuel, d') => (OutOfFuel, d')
end.

End bencode.


(** ** A TCP connection as one run of the client sees it

    [inbox] holds the bytes the peer delivers before the read side fails
    (end of stream or deadline), [outbox] the bytes written so far, and
    [writable] counts the writes that still succeed. *)

Module net.
Import Go.

Record Conn := mkConn {
inbox : list byte;
outbox : list byte;
writable : nat
}.

(** [conn.Write(b)]; [None] is an error. *)
Definition Write (c : Conn) (b : list byte) : option Conn :=
match writable c with
| O => None
| S k => Some {| inbox := inbox c; outbox := outbox c ++ b; writable := k |}
end.

(** [io.ReadFull(r, buf)] for a buffer of [n] bytes: all of them or an
  error. *)
Definition ReadFull (c : Conn) (n : Z) : option (list byte * Conn) :=
if n <=? len (inbox c) then
  Some (take (Z.to_nat n) (inbox c),
        {| inbox := drop (Z.to_nat n) (inbox c);
           outbox := outbox c; writable := writable c |})
else None.

End net.

(** ** Package p2p (handshake.go, message.go) *)

Module p2p.
Import Go.

Definition MsgChoke : Z := 0.
Definition MsgUnchoke : Z := 1.
Definition MsgInterested : Z := 2.
Definition MsgNotInterested : Z := 3.
Definition MsgHave : Z := 4.
Definition MsgBitfield : Z := 5.
Definition MsgRequest : Z := 6.
Definition MsgPiece : Z := 7.
Definition MsgCancel : Z := 8.

(** [uint32(x)]. *)
Definition wrap32 (z : Z) : Z := z mod 2 ^ 32.

(** The four bytes [binary.BigEndian.PutUint32] stores for [v]. *)
Definition be32 (v : Z) : list byte :=
[z2b (Z.shiftr v 24); z2b (Z.shiftr v 16); z2b (Z.shiftr v 8); z2b v].

(** [binary.BigEndian.PutUint32(b[off:off+4], v)]. *)
Definition PutUint32 (b : list byte) (off : Z) (v : Z) : list byte :=
fst (copy_at b off (be32 v)).

(** [binary.BigEndian.Uint32(b)] for a slice of four bytes. *)
Definition Uint32 (b : list byte) : Z :=
Z.lor (Z.lor (Z.lor (Z.shiftl (b2z (idx b 0)) 24)
                    (Z.shiftl (b2z (idx b 1)) 16))
             (Z.shiftl (b2z (idx b 2)) 8))
      (b2z (idx b 3)).

Record Message := mkMessage {
ID : Z;                        (* uint8 *)
Payload : list byte
}.

(** [Message.Serialize]; the nil message is the keep-alive.  The sizes
  are [uint32]: a payload so long that [4+length] wraps around leaves a
  buffer too short for the header, and the stores panic ([None]). *)
Definition Message_Serialize (m : option Message) : option (list byte) :=
match m with
| None => Some (make_bytes 4)
| Some m =>
    let length := wrap32 (len (Payload m) + 1) in
    let buf := make_bytes (wrap32 (4 + length)) in
    if len buf <? 5 then None
    else
      let buf := PutUint32 buf 0 length in
      let buf := <[4%nat := z2b (ID m)]> buf in
      Some (fst (copy_at buf 5 (Payload m)))
end.

(** What [Read] returns: an error, no message (keep-alive), a message. *)
Inductive read_result :=
| ReadErr
| ReadNil
| ReadMsg (m : Message).

Definition Read (r : net.Conn) : read_result * net.Conn :=
match net.ReadFull r 4 with
| None => (ReadErr, r)
| Some (lengthBuf, r1) =>
    let length := Uint32 lengthBuf in
    if length =? 0 then (ReadNil, r1)
    else
      match net.ReadFull r1 length with
      | None => (ReadErr, r1)
      | Some (messageBuf, r2) =>
          (ReadMsg {| ID := b2z (idx messageBuf 0);
                      Payload := slice_from messageBuf 1 |}, r2)
      end
end.

Definition FormatRequest (index begin length : Z) : Message :=
let payload := make_bytes 12 in
let payload := PutUint32 payload 0 (wrap32 index) in
let payload := PutUint32 payload 4 (wrap32 begin) in
let payload := PutUint32 payload 8 (wrap32 length) in
{| ID := MsgRequest; Payload := payload |}.

Record PieceProgress := mkPieceProgress {
Index : Z;
Buf : list byte;
Downloaded : Z
}.

(** [NewPieceProgress]; [make] panics ([None]) on a negative length. *)
Definition NewPieceProgress (index length : Z) : option PieceProgress :=
if length <? 0 then None
else Some {| Index := index; Buf := make_bytes length; Downloaded := 0 |}.

(** [AddBlock]; [pp.Buf[begin:]] panics ([None]) unless
  [0 <= begin <= len(pp.Buf)]. *)
Definition AddBlock (pp : PieceProgress) (begin : Z) (block : list byte)
: option PieceProgress :=
if (begin <? 0) || (begin >? len (Buf pp)) then None
else Some {| Index := Index pp;
             Buf := fst (copy_at (Buf pp) begin block);
             Downloaded := wrap64 (Downloaded pp + len block) |}.

Definition IsComplete (pp : PieceProgress) : bool :=
Downloaded pp =? len (Buf pp).

Record Handshake := mkHandshake {
Pstr : list byte;              (* string *)
InfoHash : list byte;          (* [20]byte *)
PeerID : list byte             (* [20]byte *)
}.

Definition NewHandshake (infoHash peerID : list byte) : Handshake :=
{| Pstr := bytes_of "BitTorrent protocol";
   InfoHash := infoHash;
   PeerID := peerID |}.

Definition Handshake_Serialize (h : Handshake) : list byte :=
let buf := make_bytes 68 in
let buf := <[0%nat := z2b (len (Pstr h))]> buf in
let curr := 1 in
let '(buf, n) := copy_at buf curr (Pstr h) in
let curr := curr + n in
let '(buf, n) := copy_at buf curr (make_bytes 8) in
let curr := curr + n in
let '(buf, n) := copy_at buf curr (InfoHash h) in
let curr := curr + n in
let '(buf, n) := copy_at buf curr (PeerID h) in
buf.

(** The errors of [Unserialize]. *)
Inductive handshake_error :=
| ErrReadFull                    (* the error of [io.ReadFull] *)
| ErrPstrlenZero.                (* [pstrlen cannot be 0] *)

(** [Unserialize]: 68 bytes are read whatever the length byte says.  The
  slice expressions [buf[1 : pstrlen+1]] and
  [buf[pstrlen+1+8 : pstrlen+1+8+20]] panic when their upper bound
  exceeds the 68 bytes of [buf]; [copy] into the 20-byte arrays stores
  what the source slice holds and leaves the rest zero. *)
Definition Unserialize (r : net.Conn)
: Go.outcome handshake_error Handshake * net.Conn :=
match net.ReadFull r 68 with
| None => (Err ErrReadFull, r)
| Some (buf, r1) =>
    let pstrlen := b2z (idx buf 0) in
    if pstrlen =? 0 then (Err ErrPstrlenZero, r1)
    else if pstrlen + 1 >? len buf then (Panic, r1)
    else
      let pstr := slice buf 1 (pstrlen + 1) in
      if pstrlen + 1 + 8 + 20 >? len buf then (Panic, r1)
      else
        let infoHash :=
          fst (copy_at (make_bytes 20) 0
                 (slice buf (pstrlen + 1 + 8) (pstrlen + 1 + 8 + 20))) in
        let peerID :=
          fst (copy_at (make_bytes 20) 0
                 (slice_from buf (pstrlen + 1 + 8 + 20))) in
        (Ok {| Pstr := pstr; InfoHash := infoHash; PeerID := peerID |}, r1)
end.

End p2p.


(** ** Package torrent (torrent.go, worker.go) *)

Module torrent.
Import Go.

Record File := mkFile {
File_Length : Z;               (* int64 *)
File_Path : list string
}.

Record InfoDict := mkInfoDict {
PieceLength : Z;               (* int64 *)
Pieces : list byte;            (* string *)
Name : list byte;              (* string *)
Length : Z;                    (* int64 *)
Files : list File
}.

Record Torrent := mkTorrent {
Announce : list byte;          (* string *)
Info : InfoDict
}.

Record Piece := mkPiece {
Piece_Index : Z;
Piece_Hash : list byte;        (* [20]byte *)
Piece_Length : Z
}.

Record Peer := mkPeer {
Peer_IP : list byte;           (* net.IP *)
Peer_Port : Z                  (* uint16 *)
}.

(** *** Bitfield *)

(** In Go the operators [>>] and [%] have the same precedence and
  associate to the left: [bf[byteIndex] >> (7 - offset) % 1] is
  [(bf[byteIndex] >> (7 - offset)) % 1].  The shift count
  [7 - offset] is never negative, [offset] being a remainder by 8. *)
Definition HasPiece (bf : list byte) (index : Z) : bool :=
let byteIndex := Z.quot index 8 in
let offset := Z.rem index 8 in
if (byteIndex <? 0) || (byteIndex >=? len bf) then false
else
  negb (Z.rem (Z.shiftr (b2z (idx bf byteIndex)) (7 - offset)) 1 =? 0).

(** [SetPiece] updates the bitfield in place; the result is the slice
  after the call, [None] a panic.  The guard is a disjunction: it lets
  every [byteIndex] through, and the store [bf[byteIndex] |= ...] is
  what fails out of range.  The constant [1] takes the type [byte] of
  the left-hand side, so the shifted value is cut to 8 bits. *)
Definition SetPiece (bf : list byte) (index : Z) : option (list byte) :=
let byteIndex := Z.quot index 8 in
let offset := Z.rem index 8 in
if (byteIndex >=? 0) || (byteIndex <? len bf) then
  if (byteIndex <? 0) || (byteIndex >=? len bf) then None
  else
    Some (<[Z.to_nat byteIndex :=
              z2b (Z.lor (b2z (idx bf byteIndex))
                         (wrap8 (Z.shiftl 1 (7 - offset))))]> bf)
else Some bf.

(** *** Piece planner *)

(** The total length [CreatePieceList] computes. *)
Definition totalLength (t : Torrent) : Z :=
if Length (Info t) >? 0 then Length (Info t)
else
  fold_left (fun total f => wrap64 (total + File_Length f))
    (Files (Info t)) 0.

(** The body of the [for] loop of [CreatePieceList] at index [i];
  [None] is the panic of a division by zero. *)
Definition CreatePieceList_body (t : Torrent) (rawHashes : list byte)
  (total numPieces i : Z) : option Piece :=
let pieceLength := PieceLength (Info t) in
let hash :=
  fst (copy_at (make_bytes 20) 0 (slice rawHashes (i * 20) ((i + 1) * 20))) in
if i =? numPieces - 1 then
  if PieceLength (Info t) =? 0 then None
  else
    let lastPiecelength := Z.rem total (PieceLength (Info t)) in
    let pieceLength :=
      if lastPiecelength >? 0 then lastPiecelength else pieceLength in
    Some {| Piece_Index := i; Piece_Hash := hash;
            Piece_Length := pieceLength |}
else
  Some {| Piece_Index := i; Piece_Hash := hash;
          Piece_Length := pieceLength |}.

(** The loop itself: [k] iterations are left, [i] is the loop index and
  [pieces] the slice filled so far. *)
Fixpoint CreatePieceList_loop (t : Torrent) (rawHashes : list byte)
  (total numPieces : Z) (k : nat) (i : Z) (pieces : list Piece)
: option (list Piece) :=
match k with
| O => Some pieces
| S k' =>
    match CreatePieceList_body t rawHashes total numPieces i with
    | None => None
    | Some p =>
        CreatePieceList_loop t rawHashes total numPieces k' (i + 1)
          (<[Z.to_nat i := p]> pieces)
    end
end.

Definition CreatePieceList (t : Torrent) : option (list Piece) :=
let rawHashes := Pieces (Info t) in
let numPieces := Z.quot (len rawHashes) 20 in
let pieces :=
  replicate (Z.to_nat numPieces)
    {| Piece_Index := 0; Piece_Hash := make_bytes 20; Piece_Length := 0 |} in
CreatePieceList_loop t rawHashes (totalLength t) numPieces
  (Z.to_nat numPieces) 0 pieces.

(** *** Open *)

Inductive open_error :=
| ErrReadFile
| ErrDecode (e : bencode.error)
| ErrInvalidTorrentFormat
| ErrMissingInfoDict.

(** One element of [files]: both type assertions panic when they fail. *)
Definition Open_file (f : bencode.bvalue) : option File :=
match f with
| bencode.BDict fDict =>
    match fDict !! "length" with
    | Some (bencode.BInt n) => Some {| File_Length := n; File_Path := [] |}
    | _ => None
    end
| _ => None
end.

Section Open.
(** [crypto/sha1.Sum] and the file system behind [os.ReadFile]. *)
Variable sha1_Sum : list byte -> list byte.
Variable ReadFile : string -> option (list byte).

Definition Open (path : string)
  : Go.outcome open_error (Torrent * list byte) :=
  match ReadFile path with
  | None => Err ErrReadFile
  | Some data =>
  let decoder := bencode.NewDecoder data in
  match bencode.Decode decoder with
  | (Err e, _) => Err (ErrDecode e)
  | (Panic, _) => Panic
  | (OutOfFuel, _) => OutOfFuel
  | (Ok (bencode.BDict fullDict), decoder) =>
      let announce :=
        match fullDict !! "announce" with
        | Some (bencode.BStr a) => a
        | _ => []
        end in
      match fullDict !! "info" with
      | Some (bencode.BDict infoMap) =>
          match infoMap !! "name", infoMap !! "piece length",
                infoMap !! "pieces" with
          | Some (bencode.BStr name), Some (bencode.BInt pl),
            Some (bencode.BStr pieces) =>
              let finish length files :=
                Ok ({| Announce := announce;
                       Info := {| PieceLength := pl; Pieces := pieces;
                                  Name := name; Length := length;
                                  Files := files |} |},
                    sha1_Sum (bencode.RawInfo decoder)) in
              match infoMap !! "length", infoMap !! "files" with
              | Some (bencode.BInt length), _ => finish length []
              | _, Some (bencode.BList files) =>
                  match mapM Open_file files with
                  | Some fs => finish 0 fs
                  | None => Panic
                  end
              | _, _ => finish 0 []
              end
          | _, _, _ => Panic
          end
      | _ => Err ErrMissingInfoDict
      end
  | (Ok _, _) => Err ErrInvalidTorrentFormat
  end
  end.

End Open.

(** *** Tracker response *)

Definition peerSize : Z := 6.

(** [binary.BigEndian.Uint16(b)] for a slice of two bytes. *)
Definition Uint16 (b : list byte) : Z :=
Z.lor (b2z (idx b 1)) (Z.shiftl (b2z (idx b 0)) 8).

Inductive tracker_error :=
| ErrGet                         (* the error of [http.Get] *)
| ErrStatus (code : Z)           (* [tracker returned status %d] *)
| ErrReadBody                    (* [could not read tracker response] *)
| ErrBdecode (e : bencode.error) (* [could not bdecode tracker response] *)
| ErrTrackerFailed (msg : list byte)   (* [tracker failed: %s] *)
| ErrMissingPeers                (* [tracker response missing peers] *)
| ErrMalformedPeers.             (* [recieved malformed compact peer list] *)

(** The loop of [parsePeers]: [k] iterations are left, [i] is the loop
  index and [peers] the slice filled so far. *)
Fixpoint parsePeers_loop (peerBinary : list byte) (k : nat) (i : Z)
  (peers : list Peer) : list Peer :=
match k with
| O => peers
| S k' =>
    let offset := i * peerSize in
    parsePeers_loop peerBinary k' (i + 1)
      (<[Z.to_nat i :=
           {| Peer_IP := slice peerBinary offset (offset + 4);
              Peer_Port :=
                Uint16 (slice peerBinary (offset + 4) (offset + 6)) |}]>
         peers)
end.

Definition parsePeers (peerBinary : list byte)
: Go.outcome tracker_error (list Peer) :=
if negb (Z.rem (len peerBinary) peerSize =? 0) then Err ErrMalformedPeers
else
  let numPeers := Z.quot (len peerBinary) peerSize in
  let peers :=
    replicate (Z.to_nat numPeers) {| Peer_IP := []; Peer_Port := 0 |} in
  Ok (parsePeers_loop peerBinary (Z.to_nat numPeers) 0 peers).

Section RequestPeers.
(** [http.Get] followed by [io.ReadAll]: no response, or a status code
with the body ([None] when reading it fails). *)
Variable http_Get : string -> option (Z * option (list byte)).

(** [RequestPeers]; the type assertion [result.(map[string]any)] has no
[ok] and panics on any other value. *)
Definition RequestPeers (trackerURL : string)
  : Go.outcome tracker_error (list Peer) :=
  match http_Get trackerURL with
  | None => Err ErrGet
  | Some (status, body) =>
  if negb (status =? 200) then Err (ErrStatus status)
  else
    match body with
    | None => Err ErrReadBody
    | Some data =>
        match bencode.Decode (bencode.NewDecoder data) with
        | (Err e, _) => Err (ErrBdecode e)
        | (Panic, _) => Panic
        | (OutOfFuel, _) => OutOfFuel
        | (Ok (bencode.BDict resDict), _) =>
            match resDict !! "peers" with
            | Some (bencode.BStr piecesBolb) => parsePeers piecesBolb
            | _ =>
                match resDict !! "failure reason" with
                | Some (bencode.BStr msg) => Err (ErrTrackerFailed msg)
                | _ => Err ErrMissingPeers
                end
            end
        | (Ok _, _) => Panic
        end
    end
  end.

End RequestPeers.

(** *** Coordinator *)

Record PieceWork := mkPieceWork {
Work_Index : Z;
Work_Hash : list byte;         (* [20]byte *)
Work_Length : Z
}.

Record PieceResult := mkPieceResult {
Result_Index : Z;
Result_Buf : list byte
}.

(** The output file: the positional writes that succeeded, in order,
  and the number of writes the disk still accepts. *)
Record OutFile := mkOutFile {
written : list (Z * list byte);
healthy : nat
}.

(** [file.WriteAt(b, off)]; [None] is an error. *)
Definition WriteAt (f : OutFile) (b : list byte) (off : Z) : option OutFile :=
if off <? 0 then None
else
  match healthy f with
  | O => None
  | S k => Some {| written := written f ++ [(off, b)]; healthy := k |}
  end.

(** The coordinator's part of the state of [Download]: what it has sent
  on [workQueue], the file, and the counter. *)
Record coordinator := mkCoordinator {
workQueue : list PieceWork;
file : OutFile;
doneCount : Z
}.

(** Where [Download] is after a stretch of its loop. *)
Inductive progress :=
| Running (st : coordinator)     (* back at the loop head *)
| Blocked (st : coordinator)     (* waiting on [results] *)
| Finished (st : coordinator)    (* [return nil] *)
| Failed (st : coordinator)      (* [return fmt.Errorf(...)] *)
| Crashed.                       (* index out of range *)

Section Download.
Variable sha1_Sum : list byte -> list byte.

(** One turn of the loop body, for the result [res] taken from
[results]. *)
Definition Download_body (t : Torrent) (pieces : list Piece)
(st : coordinator) (res : PieceResult) : progress :=
  let hash := sha1_Sum (Result_Buf res) in
  if Result_Index res <? 0 then Crashed
  else
match pieces !! Z.to_nat (Result_Index res) with
| None => Crashed
| Some p =>
    if negb (bytes_Equal hash (Piece_Hash p)) then
      Running
        {| workQueue :=
             workQueue st ++
               [{| Work_Index := Result_Index res;
                   Work_Hash := Piece_Hash p;
                   Work_Length := Piece_Length p |}];
           file := file st;
           doneCount := doneCount st |}
    else
      let offset := wrap64 (Result_Index res * PieceLength (Info t)) in
      match WriteAt (file st) (Result_Buf res) offset with
      | None => Failed st
      | Some file' =>
          Running {| workQueue := workQueue st;
                     file := file';
                     doneCount := doneCount st + 1 |}
      end
end.

(** The loop, fed with the results the workers deliver. *)
Fixpoint Download_loop (t : Torrent) (pieces : list Piece)
(results : list PieceResult) (st : coordinator) : progress :=
  if doneCount st <? len pieces then
match results with
| [] => Blocked st
| res :: results' =>
    match Download_body t pieces st res with
    | Running st' => Download_loop t pieces results' st'
    | other => other
    end
end
  else Finished st.

(** [Download] from the point where the file has been opened. *)
Definition Download (t : Torrent) (results : list PieceResult)
(f : OutFile) : progress :=
  match CreatePieceList t with
  | None => Crashed
  | Some pieces =>
  let queue :=
    map (fun p => {| Work_Index := Piece_Index p;
                     Work_Hash := Piece_Hash p;
                     Work_Length := Piece_Length p |}) pieces in
  Download_loop t pieces results
    {| workQueue := queue; file := f; doneCount := 0 |}
  end.

End Download.

(** *** Worker: the download of one piece *)

Definition maxBacklog : Z := 10.
Definition blockSize : Z := 16384.

(** The program points of [attemptDownloadPiece]. *)
Inductive point :=
| AtFor                          (* head of the outer loop *)
| AtRefill                       (* head of the inner loop *)
| AtRead                         (* before [p2p.Read] *)
| Returned (r : option (list byte))   (* [Some buf]: [(buf, nil)] *)
| Panicked.

Record attempt := mkAttempt {
conn : net.Conn;
buf : list byte;
requested : Z;
downloaded : Z;
at_ : point
}.

Definition goto (s : attempt) (p : point) : attempt :=
{| conn := conn s; buf := buf s; requested := requested s;
   downloaded := downloaded s; at_ := p |}.

(** Entry: [buf := make([]byte, pw.Length)], counters at zero. *)
Definition attempt_start (c : net.Conn) (pw : PieceWork) : attempt :=
{| conn := c; buf := make_bytes (Work_Length pw);
   requested := 0; downloaded := 0;
   at_ := if Work_Length pw <? 0 then Panicked else AtFor |}.

(** One step of [attemptDownloadPiece]: a loop test, one REQUEST sent,
  or one message read and handled. *)
Definition attempt_step (pw : PieceWork) (s : attempt) : attempt :=
match at_ s with
| AtFor =>
    if downloaded s <? Work_Length pw then goto s AtRefill
    else goto s (Returned (Some (buf s)))
| AtRefill =>
    if (requested s <? Work_Length pw)
       && (wrap64 (requested s - downloaded s) <? maxBacklog * blockSize)
    then
      let length :=
        if wrap64 (Work_Length pw - requested s) <? blockSize
        then wrap64 (Work_Length pw - requested s) else blockSize in
      let req := p2p.FormatRequest (Work_Index pw) (requested s) length in
      match p2p.Message_Serialize (Some req) with
      | None => goto s Panicked
      | Some bytes =>
          match net.Write (conn s) bytes with
          | None => goto s (Returned None)
          | Some c =>
              {| conn := c; buf := buf s;
                 requested := wrap64 (requested s + length);
                 downloaded := downloaded s; at_ := AtRefill |}
          end
      end
    else goto s AtRead
| AtRead =>
    match p2p.Read (conn s) with
    | (p2p.ReadErr, _) => goto s (Returned None)
    | (p2p.ReadNil, c) =>
        {| conn := c; buf := buf s; requested := requested s;
           downloaded := downloaded s; at_ := AtFor |}
    | (p2p.ReadMsg msg, c) =>
        if p2p.ID msg =? p2p.MsgPiece then
          if len (p2p.Payload msg) <? 8 then goto s Panicked
          else
            let begin := p2p.Uint32 (slice (p2p.Payload msg) 4 8) in
            let blockData := slice_from (p2p.Payload msg) 8 in
            if begin >? len (buf s) then goto s Panicked
            else
              {| conn := c;
                 buf := fst (copy_at (buf s) begin blockData);
                 requested := requested s;
                 downloaded := wrap64 (downloaded s + len blockData);
                 at_ := AtFor |}
        else
          {| conn := c; buf := buf s; requested := requested s;
             downloaded := downloaded s; at_ := AtFor |}
    end
| Returned _ | Panicked => s
end.

(** The state after [n] steps. *)
Definition attempt_run (pw : PieceWork) (n : nat) (s : attempt) : attempt :=
Nat.iter n (attempt_step pw) s.

(** [requested - downloaded], the bytes asked for and not yet received. *)
Definition backlog (s : attempt) : Z := requested s - downloaded s.

(** *** Worker: before the work loop *)

(** Where [startWorker] is once the connection is made and the
  handshakes are exchanged. *)
Inductive greeting :=
| Stopped (c : net.Conn)         (* [return] before the work loop *)
| Ready (c : net.Conn)           (* at [for pw := range workQueue] *)
| GreetingPanic.

(** [startWorker] from the successful [net.DialTimeout] to the head of
  the work loop.  The error of the second [conn.Write] is dropped. *)
Definition startWorker_greet (c : net.Conn) (infoHash peerID : list byte)
: greeting :=
let hs := {| p2p.Pstr := bytes_of "BitTorrent protocol";
             p2p.InfoHash := infoHash; p2p.PeerID := peerID |} in
match net.Write c (p2p.Handshake_Serialize hs) with
| None => Stopped c
| Some c1 =>
    match p2p.Unserialize c1 with
    | (Ok res, c2) =>
        if negb (bytes_Equal (p2p.InfoHash res) infoHash) then Stopped c2
        else
          let interested :=
            {| p2p.ID := p2p.MsgInterested; p2p.Payload := [] |} in
          match p2p.Message_Serialize (Some interested) with
          | None => GreetingPanic
          | Some bytes =>
              match net.Write c2 bytes with
              | None => Ready c2
              | Some c3 => Ready c3
              end
          end
    | (Err _, c2) => Stopped c2
    | (_, _) => GreetingPanic
    end
end.

End torrent.

(** ** Package main (main.go) *)

Module client.
Import Go.

Section Main.
Variable sha1_Sum : list byte -> list byte.
Variable ReadFile : string -> option (list byte).

(** The first statement of [main], the only one that touches the
metainfo file; [Args] is [os.Args], which [main] never reads. *)
Definition main_Open (Args : list string)
  : Go.outcome torrent.open_error (torrent.Torrent * list byte) :=
  torrent.Open sha1_Sum ReadFile "debian-13.3.0-amd64-netinst.iso.torrent".

(** The path [main] hands to [os.ReadFile] through [torrent.Open]. *)
Definition main_path (Args : list string) : string :=
  "debian-13.3.0-amd64-netinst.iso.torrent".

End Main.

End client.

(** * Vocabulary of the statements *)

Import Go.
Import torrent.
Import bencode.

(** A superfluous leading zero: a [0] followed by more characters, at
    the start of the body or after a sign. *)
Definition superfluous_zero (body : list byte) : Prop :=
  exists sign r,
    (sign = [] \/ sign = bytes_of "-" \/ sign = bytes_of "+") /\
    body = sign ++ "0"%byte :: r /\ r <> [].

(** Bodies that must be refused: empty, a lone minus sign, minus zero, or
    a superfluous leading zero. *)
Definition rejected_body (body : list byte) : Prop :=
  body = [] \/ body = bytes_of "-" \/ body = bytes_of "-0" \/
  superfluous_zero body.

(** The body starts with a plus sign. *)
Definition plus_signed (body : list byte) : Prop :=
  exists r, body = "+"%byte :: r.

(** The checks [parseInteger] runs on the body once it has found it. *)
Definition body_checks (body : list byte) (endIdx : Z)
  : bencode.outcome (Z * Z) :=
  let convert :=
    match strconv.ParseInt body with
    | (_, Some e) => Err (bencode.ErrInvalidInteger e)
    | (num, None) => Ok (num, endIdx + 1)
    end in
  if len body =? 0 then Err bencode.ErrInvalidIntegerFormat
  else if Byte.eqb (idx body 0) "0" && (len body >? 1)
  then Err bencode.ErrLeadingZero
  else if Byte.eqb (idx body 0) "-" then
    if len body =? 1 then Err bencode.ErrInvalidIntegerFormat
    else if Byte.eqb (idx body 1) "0" then
      if len body =? 2 then Err bencode.ErrNegativeZero
      else Err bencode.ErrLeadingZero
    else convert
  else convert.

(** The bit test read with [%] binding tighter than [>>], that is as
    [bf[byteIndex] >> ((7 - offset) % 1) != 0], a shift by zero. *)
Definition HasPiece_shift_by_zero (bf : list byte) (index : Z) : bool :=
  let byteIndex := Z.quot index 8 in
  let offset := Z.rem index 8 in
  if (byteIndex <? 0) || (byteIndex >=? len bf) then false
  else
    negb (Z.shiftr (b2z (idx bf byteIndex)) (Z.rem (7 - offset) 1) =? 0).

(** The top bit of the byte that holds piece [index]. *)
Definition top_bit (bf : list byte) (index : Z) : bool :=
  Z.testbit (b2z (idx bf (Z.quot index 8))) 7.

(** A sequence of [AddBlock(begin, block)] calls. *)
Fixpoint AddBlocks (pp : p2p.PieceProgress) (calls : list (Z * list byte))
  : option p2p.PieceProgress :=
  match calls with
  | [] => Some pp
  | (begin, block) :: calls' =>
      match p2p.AddBlock pp begin block with
      | None => None
      | Some pp' => AddBlocks pp' calls'
      end
  end.

(** The total length of the blocks of a sequence of calls. *)
Definition blocks_total (calls : list (Z * list byte)) : Z :=
  fold_right (fun c acc => len (snd c) + acc) 0 calls.

(** A file system that holds one metainfo file, [other.torrent]. *)
Definition only_other_torrent (path : string) : option (list byte) :=
  if bool_decide (path = "other.torrent")
  then Some (bytes_of "d8:announce3:url4:infod6:lengthi1e4:name1:a12:piece lengthi1e6:pieces0:ee")
  else None.

(** The sum of the file lengths, without wrap-around. *)
Definition files_total (files : list File) : Z :=
  fold_right (fun f acc => File_Length f + acc) 0 files.

(** The total length as the metainfo defines it: [length] when positive,
    the sum of the file lengths otherwise. *)
Definition spec_total (t : Torrent) : Z :=
  if Length (Info t) >? 0 then Length (Info t) else files_total (Files (Info t)).

(** The piece the loop body builds at index [i]. *)
Definition planned_piece (t : Torrent) (total numPieces i : Z) : Piece :=
  {| Piece_Index := i;
     Piece_Hash := slice (Pieces (Info t)) (i * 20) ((i + 1) * 20);
     Piece_Length :=
       if (i =? numPieces - 1) && (Z.rem total (PieceLength (Info t)) >? 0)
       then Z.rem total (PieceLength (Info t))
       else PieceLength (Info t) |}.

(** Scenario S1: four pieces of 32768 bytes for 108304 bytes in all. *)
Definition torrent_S1 : Torrent :=
  {| Announce := bytes_of "url";
     Info := {| PieceLength := 32768;
                Pieces := replicate 80 "a"%byte;
                Name := bytes_of "a";
                Length := 108304;
                Files := [] |} |}.

(** The work item the coordinator sends back for piece [p]. *)
Definition requeued (res : PieceResult) (p : Piece) : PieceWork :=
  {| Work_Index := Result_Index res;
     Work_Hash := Piece_Hash p;
     Work_Length := Piece_Length p |}.

(** The state a progress report carries, if any. *)
Definition state_of (o : progress) : option coordinator :=
  match o with
  | Running st | Blocked st | Finished st | Failed st => Some st
  | Crashed => None
  end.

(** A stand-in digest for concrete runs: the first 20 bytes, padded. *)
Definition toy_sum (b : list byte) : list byte :=
  take 20 (b ++ replicate 20 "000"%byte).

Definition toy_pieces : list Piece :=
  [ {| Piece_Index := 0; Piece_Hash := toy_sum (bytes_of "good");
       Piece_Length := 4 |} ].

Definition toy_start : coordinator :=
  {| workQueue := [];
     file := {| written := []; healthy := 5 |};
     doneCount := 0 |}.

(** A plan of two pieces, and a coordinator in mid-run: one piece
    written, one work item back on the queue. *)
Definition two_pieces : list Piece :=
  [ {| Piece_Index := 0; Piece_Hash := toy_sum (bytes_of "good");
       Piece_Length := 4 |};
    {| Piece_Index := 1; Piece_Hash := toy_sum (bytes_of "fine");
       Piece_Length := 4 |} ].

Definition busy_start : coordinator :=
  {| workQueue := [ {| Work_Index := 1; Work_Hash := toy_sum (bytes_of "fine");
                       Work_Length := 4 |} ];
     file := {| written := [(32768, bytes_of "fine")]; healthy := 2 |};
     doneCount := 1 |}.

(** The write the coordinator makes for a result. *)
Definition write_of (t : Torrent) (res : PieceResult) : Z * list byte :=
  (wrap64 (Result_Index res * PieceLength (Info t)), Result_Buf res).

(** A write is that of a result among [results] whose digest is the
    hash planned for its index. *)
Definition verified_write (sha1_Sum : list byte -> list byte) (t : Torrent)
    (pieces : list Piece) (results : list PieceResult)
    (w : Z * list byte) : Prop :=
  exists res p,
    res ∈ results /\
    pieces !! Z.to_nat (Result_Index res) = Some p /\
    sha1_Sum (Result_Buf res) = Piece_Hash p /\
    w = write_of t res.

(** What holds at every point of [attemptDownloadPiece] for a piece of
    [L] bytes. *)
Definition attempt_inv (L : Z) (s : attempt) : Prop :=
  0 <= requested s <= L /\
  0 <= downloaded s < L + 2 ^ 32 /\
  (at_ s = AtRefill \/ at_ s = AtRead -> downloaded s < L) /\
  backlog s < (maxBacklog + 1) * blockSize.

(** The pipeline as a peer that answers block for block leaves it: at
    most [maxBacklog] blocks out, in whole blocks until the last
    request has gone out. *)
Definition attempt_inv_whole (L : Z) (s : attempt) : Prop :=
  backlog s <= maxBacklog * blockSize /\
  (requested s = L \/ backlog s mod blockSize = 0).

(** The next message, if the attempt is about to read a PIECE, carries a
    whole number of blocks, or everything has been requested already. *)
Definition whole_block (pw : PieceWork) (s : attempt) : bool :=
  match at_ s with
  | AtRead =>
      match fst (p2p.Read (conn s)) with
      | p2p.ReadMsg m =>
          negb (p2p.ID m =? p2p.MsgPiece)
          || (requested s =? Work_Length pw)
          || (len (slice_from (p2p.Payload m) 8) mod blockSize =? 0)
      | _ => true
      end
  | _ => true
  end.

(** A peer that answers ten requests with a PIECE message of one byte. *)
Definition one_byte_peer : net.Conn :=
  {| net.inbox :=
       default []
         (p2p.Message_Serialize
            (Some {| p2p.ID := p2p.MsgPiece;
                     p2p.Payload := p2p.be32 0 ++ p2p.be32 0 ++ ["x"%byte] |}));
     net.outbox := [];
     net.writable := 100 |}.

Definition long_piece : PieceWork :=
  {| Work_Index := 0; Work_Hash := make_bytes 20; Work_Length := 200000 |}.

(** A peer that answers the request for a piece of 100 bytes in two
    messages. *)
Definition answering_peer : net.Conn :=
  {| net.inbox :=
       default []
         (p2p.Message_Serialize
            (Some {| p2p.ID := p2p.MsgPiece;
                     p2p.Payload := p2p.be32 0 ++ p2p.be32 0
                                      ++ replicate 60 "x"%byte |}))
       ++ default []
            (p2p.Message_Serialize
               (Some {| p2p.ID := p2p.MsgPiece;
                        p2p.Payload := p2p.be32 0 ++ p2p.be32 60
                                         ++ replicate 40 "y"%byte |}));
     net.outbox := [];
     net.writable := 100 |}.

Definition short_piece : PieceWork :=
  {| Work_Index := 0; Work_Hash := make_bytes 20; Work_Length := 100 |}.

(** [a] and [b] have the same first [n] bytes. *)
Definition agree (n : Z) (a b : list byte) : Prop :=
  take (Z.to_nat n) a = take (Z.to_nat n) b.

(** The depth counter is back where it was, the captured slice is
    untouched below the top level, no bounds check fails, and a value
    consumes at least two bytes of the input and never more than there
    are. *)
Definition well_behaved
    (pv : list byte -> Decoder -> outcome (bvalue * Z) * Decoder) : Prop :=
  forall data d r d',
    pv data d = (r, d') ->
    bencode.data d' = bencode.data d /\
    depth d' = depth d /\
    (1 <= depth d -> RawInfo d' = RawInfo d) /\
    r <> Panic /\
    (forall v n, r = Ok (v, n) -> 2 <= n <= len data).

(** [pv'] does what [pv] does wherever [pv] has fuel enough. *)
Definition refines
    (pv pv' : list byte -> Decoder -> outcome (bvalue * Z) * Decoder) : Prop :=
  forall data d r d',
    pv data d = (r, d') -> r <> OutOfFuel -> pv' data d = (r, d').

(** [pv] has fuel enough for every input shorter than [bound]. *)
Definition adequate
    (pv : list byte -> Decoder -> outcome (bvalue * Z) * Decoder)
    (bound : Z) : Prop :=
  forall data d, len data < bound -> fst (pv data d) <> OutOfFuel.

(** Two decoders at the same depth that hold the same captured slice if
    they did to begin with ([was]), whatever buffer they hold. *)
Definition same_state (was : Prop) (d1 d2 : Decoder) : Prop :=
  depth d1 = depth d2 /\ (was -> RawInfo d1 = RawInfo d2).

(** A value read from [data] is read again, with the same effect on the
    decoder, from every input that starts with the bytes consumed. *)
Definition prefix_determined
    (pv : list byte -> Decoder -> outcome (bvalue * Z) * Decoder) : Prop :=
  forall data data' d1 d2 v n d1',
    depth d1 = depth d2 ->
    pv data d1 = (Ok (v, n), d1') ->
    agree n data' data ->
    exists d2',
      pv data' d2 = (Ok (v, n), d2')
      /\ same_state (RawInfo d1 = RawInfo d2) d1' d2'.

(** [enc] is one well-formed value [v]: the decoder reads [v] from [enc]
    and uses every byte of it. *)
Definition encodes (enc : list byte) (v : bvalue) : Prop :=
  exists d',
    parseValue (S (length enc)) enc (NewDecoder enc) = (Ok (v, len enc), d').

Definition metainfo_fixture : list byte :=
  bytes_of "d8:announce3:url4:infod4:name1:ae5:extra1:xe".

(** ** The grammar of the specification *)

(** A decimal digit. *)
Definition is_digit (b : byte) : bool :=
  (b2z "0" <=? b2z b) && (b2z b <=? b2z "9").

(** The number a string of digits denotes, continuing from [acc]. *)
Fixpoint digits_value (ds : list byte) (acc : Z) : Z :=
  match ds with
  | [] => acc
  | d :: ds' => digits_value ds' (acc * 10 + (b2z d - b2z "0"))
  end.

(** A decimal numeral: digits, at least one, and no leading zero unless
    the numeral is [0] itself. *)
Definition numeral (ds : list byte) : Prop :=
  ds <> [] /\ Forall (fun b => is_digit b = true) ds /\
  (forall r, ds = "0"%byte :: r -> r = []).

(** [i<signed-decimal>e]: a numeral, or a minus sign and a numeral other
    than [0]; the number fits in 64 bits. *)
Definition wf_integer (enc : list byte) (v : bvalue) : Prop :=
  exists ds,
    numeral ds /\
    ((enc = "i"%byte :: ds ++ ["e"%byte] /\
      v = BInt (digits_value ds 0) /\ digits_value ds 0 <= int64_max) \/
     (enc = "i"%byte :: "-"%byte :: ds ++ ["e"%byte] /\ ds <> ["0"%byte] /\
      v = BInt (- digits_value ds 0) /\ int64_min <= - digits_value ds 0)).

(** [<len>:<bytes>]: the numeral of the length, a colon and as many
    bytes, within the length limit. *)
Definition wf_string (enc s : list byte) : Prop :=
  exists ds,
    numeral ds /\ digits_value ds 0 = len s /\ len s <= MaxStringLength /\
    enc = ds ++ ":"%byte :: s.

(** [l<value>*e], for elements well-formed by [wf]. *)
Definition wf_list (wf : list byte -> bvalue -> Prop)
    (enc : list byte) (v : bvalue) : Prop :=
  exists items : list (list byte * bvalue),
    Forall (fun it => wf it.1 it.2) items /\
    enc = "l"%byte :: concat (map fst items) ++ ["e"%byte] /\
    v = BList (map snd items).

(** One [<string><value>] pair of a dictionary: the encodings and what
    they stand for. *)
Record entry := mkEntry {
  key_enc : list byte;
  key : list byte;
  val_enc : list byte;
  val : bvalue
}.

(** The dictionary a sequence of pairs builds: a later pair replaces an
    earlier one with the same key. *)
Definition dict_of (entries : list entry) (m : gmap string bvalue)
  : gmap string bvalue :=
  fold_left (fun m e => <[string_of (key e) := val e]> m) entries m.

(** [d(<string><value>)*e], for values well-formed by [wf]; the order of
    the keys is free. *)
Definition wf_dict (wf : list byte -> bvalue -> Prop)
    (enc : list byte) (v : bvalue) : Prop :=
  exists entries : list entry,
    Forall (fun e => wf_string (key_enc e) (key e) /\ wf (val_enc e) (val e))
      entries /\
    enc = "d"%byte :: concat (map (fun e => key_enc e ++ val_enc e) entries)
            ++ ["e"%byte] /\
    v = BDict (dict_of entries ∅).

(** A well-formed value with room for [room] more levels of lists and
    dictionaries. *)
Fixpoint wf_value (room : nat) (enc : list byte) (v : bvalue) : Prop :=
  wf_integer enc v \/
  (exists s, v = BStr s /\ wf_string enc s) \/
  match room with
  | O => False
  | S room' => wf_list (wf_value room') enc v \/ wf_dict (wf_value room') enc v
  end.

(** One well-formed bencode value: the grammar, the validation rules and
    the nesting bound of the decoder. *)
Definition well_formed (enc : list byte) (v : bvalue) : Prop :=
  wf_value (Z.to_nat MaxDepth) enc v.

(** ** The pairs of the top-level dictionary *)

(** One pair of a dictionary as it lies in the input: the key, the
    value, and the byte range [val_start, val_end) of the value. *)
Record pair_at := mkPairAt {
  pair_key : list byte;
  val_start : Z;
  val_end : Z;
  pair_val : bvalue
}.

(** The pairs that lie in [data] from position [pos] up to the closing
    [e]: each key is a string that starts where the pair before it
    ends, each value starts where its key ends and is read one level
    down, and the [e] follows the last pair. *)
Fixpoint laid_out (data : list byte) (pos : Z) (pairs : list pair_at)
  : Prop :=
  match pairs with
  | [] => pos < len data /\ idx data pos = "e"%byte
  | p :: pairs' =>
      pos < len data /\ idx data pos <> "e"%byte /\
      parseString (slice_from data pos)
      = Ok (pair_key p, val_start p - pos) /\
      val_start p < len data /\
      fst (parseValue (S (length data)) (slice_from data (val_start p))
             (set_depth (NewDecoder data) 1))
      = Ok (pair_val p, val_end p - val_start p) /\
      laid_out data (val_end p) pairs'
  end.

(** The pairs of the top-level dictionary of [data]: the input starts
    with [d] and the pairs follow it. *)
Definition top_level (data : list byte) (pairs : list pair_at) : Prop :=
  idx data 0 = "d"%byte /\ laid_out data 1 pairs.

(** The dictionary the pairs build: a later pair replaces an earlier
    one with the same key. *)
Definition pairs_dict (pairs : list pair_at) (m : gmap string bvalue)
  : gmap string bvalue :=
  fold_left (fun m p => <[string_of (pair_key p) := pair_val p]> m) pairs m.

(** The byte range of the value of the last pair with the key [info],
    or [raw] when there is none. *)
Definition info_slice (data : list byte) (pairs : list pair_at)
    (raw : list byte) : list byte :=
  fold_left (fun raw p =>
               if bool_decide (string_of (pair_key p) = "info")
               then slice data (val_start p) (val_end p)
               else raw) pairs raw.

(** The encoding of a dictionary with the given pairs, in their order. *)
Definition dict_enc (entries : list entry) : list byte :=
  "d"%byte :: concat (map (fun e => key_enc e ++ val_enc e) entries)
    ++ ["e"%byte].

(** Where the pairs of [dict_enc] lie, the first at [pos]. *)
Fixpoint entries_layout (entries : list entry) (pos : Z) : list pair_at :=
  match entries with
  | [] => []
  | e :: entries' =>
      let start := pos + len (key_enc e) in
      {| pair_key := key e; val_start := start;
         val_end := start + len (val_enc e); pair_val := val e |}
        :: entries_layout entries' (start + len (val_enc e))
  end.

(** An input with an [info] key one level further down as well. *)
Definition nested_info_fixture : list byte :=
  bytes_of "d4:infod1:ai1e1:bi2ee1:xd4:infod1:bi2e1:ai1eeee".

(** ** Vocabulary of the further properties *)

(** The peer that the [i]-th group of six bytes of a compact peer list
  stands for: four address bytes and a big-endian port. *)
Definition compact_peer (peerBinary : list byte) (i : Z) : torrent.Peer :=
  {| torrent.Peer_IP := slice peerBinary (6 * i) (6 * i + 4);
     torrent.Peer_Port :=
       b2z (idx peerBinary (6 * i + 4)) * 256
       + b2z (idx peerBinary (6 * i + 5)) |}.

(** Bit [index] of a bitfield, counted from the high bit of byte 0. *)
Definition bit_of (bf : list byte) (index : Z) : bool :=
  Z.testbit (b2z (idx bf (index / 8))) (7 - index mod 8).

(** The bytes a list of pieces covers. *)
Definition pieces_total (pieces : list Piece) : Z :=
  foldr (fun p acc => Piece_Length p + acc) 0 pieces.

(** Whether the coordinator accepts a result: its index is planned and
  its digest is the planned one. *)
Definition accepted (sha1_Sum : list byte -> list byte)
    (pieces : list Piece) (res : PieceResult) : bool :=
  (0 <=? Result_Index res) &&
  match pieces !! Z.to_nat (Result_Index res) with
  | Some p => bytes_Equal (sha1_Sum (Result_Buf res)) (Piece_Hash p)
  | None => false
  end.

(** The positional writes the coordinator makes for a run of results:
  one for each accepted result, in order. *)
Definition writes_of (sha1_Sum : list byte -> list byte) (t : Torrent)
    (pieces : list Piece) (rs : list PieceResult) : list (Z * list byte) :=
  omap (fun res =>
          if accepted sha1_Sum pieces res
          then Some (wrap64 (Result_Index res * PieceLength (Info t)),
                     Result_Buf res)
          else None) rs.

(** The work items it sends back: one for each rejected result. *)
Definition requeues_of (sha1_Sum : list byte -> list byte)
    (pieces : list Piece) (rs : list PieceResult) : list PieceWork :=
  omap (fun res =>
          if accepted sha1_Sum pieces res then None
          else requeued res <$> pieces !! Z.to_nat (Result_Index res)) rs.

(** The coordinator got from [st] to [final] by taking the results
  [processed], each with a planned index: the file gained their writes,
  the queue their work items, the counter the number of writes. *)
Definition accounted (sha1_Sum : list byte -> list byte) (t : Torrent)
    (pieces : list Piece) (st : coordinator) (processed : list PieceResult)
    (final : coordinator) : Prop :=
  Forall (fun res => 0 <= Result_Index res < len pieces) processed /\
  written (file final)
  = written (file st) ++ writes_of sha1_Sum t pieces processed /\
  workQueue final
  = workQueue st ++ requeues_of sha1_Sum pieces processed /\
  doneCount final
  = doneCount st + len (writes_of sha1_Sum t pieces processed).

(** The loop did not stop before the last of [processed]: pieces were
  still missing when it took it. *)
Definition none_spare (sha1_Sum : list byte -> list byte) (t : Torrent)
    (pieces : list Piece) (st : coordinator)
    (processed : list PieceResult) : Prop :=
  forall before last,
    processed = before ++ [last] ->
    doneCount st + len (writes_of sha1_Sum t pieces before) < len pieces.

(** A REQUEST on the wire: the prefix 13, the ID 6 and three big-endian
  words. *)
Definition request_bytes (index begin length : Z) : list byte :=
  p2p.be32 13 ++ [z2b p2p.MsgRequest] ++ p2p.be32 (p2p.wrap32 index)
    ++ p2p.be32 (p2p.wrap32 begin) ++ p2p.be32 (p2p.wrap32 length).

(** The REQUESTs for the first [n] blocks of a piece of [L] bytes, in
  order: block [k] starts at [k * blockSize] and ends with the block or
  with the piece. *)
Fixpoint requests_sent (index L : Z) (n : nat) : list byte :=
  match n with
  | O => []
  | S k =>
      requests_sent index L k
        ++ request_bytes index (blockSize * Z.of_nat k)
             (Z.min blockSize (L - blockSize * Z.of_nat k))
  end.

(** The number of blocks that [r] bytes take. *)
Definition blocks_of (r : Z) : nat := Z.to_nat ((r + blockSize - 1) / blockSize).

(** The call is over: it has returned or panicked. *)
Definition over (s : attempt) : Prop :=
  match at_ s with
  | Returned _ | Panicked => True
  | _ => False
  end.

(** What bounds the steps still to come: the bytes not yet asked for,
  the bytes not yet read (a message takes at least four), and the way
  to the next request or read. *)
Definition steps_left (pw : PieceWork) (s : attempt) : nat :=
  match at_ s with
  | Returned _ | Panicked => 0
  | p =>
      Z.to_nat (Work_Length pw - requested s)
      + 4 * length (net.inbox (conn s))
      + match p with AtFor => 3 | AtRefill => 2 | _ => 1 end
  end.

(** A PIECE message on the wire: [block] for offset [begin] of piece
  [index]. *)
Definition piece_bytes (index begin : Z) (block : list byte) : list byte :=
  p2p.be32 (9 + len block) ++ z2b p2p.MsgPiece
    :: (p2p.be32 index ++ p2p.be32 begin ++ block).

(** What a peer that holds the piece [data] sends when it answers the
  REQUESTs block for block: [n] blocks from offset [off] on. *)
Fixpoint served (index : Z) (data : list byte) (n : nat) (off : Z)
  : list byte :=
  match n with
  | O => []
  | S k =>
      let block := slice data off (Z.min (off + blockSize) (len data)) in
      piece_bytes index off block ++ served index data k (off + len block)
  end.

(** The download of [data] from such a peer, at any point: the blocks
  received are in place, the blocks to come are on the stream, every
  block read had been asked for, and the connection takes the REQUESTs
  still to be sent. *)
Definition served_inv (index : Z) (data rest : list byte) (s : attempt)
  : Prop :=
  let L := len data in
  (at_ s = AtFor \/ at_ s = AtRefill \/ at_ s = AtRead
   \/ at_ s = Returned (Some data)) /\
  0 <= downloaded s <= requested s /\ requested s <= L /\
  (downloaded s = L \/ downloaded s mod blockSize = 0) /\
  (requested s = L \/ requested s mod blockSize = 0) /\
  (at_ s = AtRead ->
   requested s = L \/ maxBacklog * blockSize <= requested s - downloaded s) /\
  (at_ s = AtRefill \/ at_ s = AtRead -> downloaded s < L) /\
  (at_ s = Returned (Some data) -> downloaded s = L) /\
  net.inbox (conn s)
  = served index data (blocks_of L - blocks_of (downloaded s)) (downloaded s)
      ++ rest /\
  buf s = take (Z.to_nat (downloaded s)) data
            ++ make_bytes (L - downloaded s) /\
  (blocks_of L - blocks_of (requested s) <= net.writable (conn s))%nat.

(** Lists nested [n + 1] deep around nothing, and their encoding. *)
Fixpoint nested (n : nat) : bvalue :=
  match n with
  | O => BList []
  | S k => BList [nested k]
  end.

Definition nested_enc (n : nat) : list byte :=
  replicate (S n) "l"%byte ++ replicate (S n) "e"%byte.

(** * Properties *)

Import Go.

(** ** Slices, bytes and searches *)

Lemma eqb_byte_true (a b : byte) : Byte.eqb a b = true <-> a = b.
Proof.
  split; [apply Byte.byte_dec_bl | apply Byte.byte_dec_lb].
Qed.

Lemma eqb_byte_false (a b : byte) : Byte.eqb a b = false <-> a <> b.
Proof.
  split.
  - apply Byte.eqb_false.
  - intros Hne. destruct (Byte.eqb a b) eqn:E; [|done].
    apply eqb_byte_true in E. contradiction.
Qed.

Lemma eqb_byte_refl (a : byte) : Byte.eqb a a = true.
Proof. by apply eqb_byte_true. Qed.

Lemma len_nil {A} : len (@nil A) = 0.
Proof. reflexivity. Qed.

Lemma len_cons {A} (x : A) (l : list A) : len (x :: l) = len l + 1.
Proof. unfold len. simpl. lia. Qed.

Lemma len_app {A} (l1 l2 : list A) : len (l1 ++ l2) = len l1 + len l2.
Proof. unfold len. rewrite length_app. lia. Qed.

Lemma len_nonneg {A} (l : list A) : 0 <= len l.
Proof. unfold len. lia. Qed.

Lemma b2z_range (b : byte) : 0 <= b2z b <= 255.
Proof.
  unfold b2z. pose proof (Byte.to_N_bounded b). lia.
Qed.

Lemma IndexByte_range (s : list byte) (c : byte) :
  -1 <= IndexByte s c < len s.
Proof.
  induction s as [|b s IH]; simpl.
  - rewrite len_nil. lia.
  - rewrite len_cons. destruct (Byte.eqb b c); [pose proof (len_nonneg s); lia|].
    destruct (IndexByte s c =? -1) eqn:E; lia.
Qed.

(** Before the first occurrence there is none. *)
Lemma IndexByte_first (pre rest : list byte) (c : byte) :
  c ∉ pre -> IndexByte (pre ++ c :: rest) c = len pre.
Proof.
  induction pre as [|b pre IH]; intros Hnot; simpl.
  - by rewrite eqb_byte_refl.
  - apply not_elem_of_cons in Hnot as [Hne Hnot].
    assert (Byte.eqb b c = false) as -> by (apply eqb_byte_false; congruence).
    rewrite (IH Hnot), len_cons.
    pose proof (len_nonneg pre).
    destruct (len pre =? -1) eqn:E; lia.
Qed.

(** What [IndexByte] finds: the byte, and nothing like it before. *)
Lemma IndexByte_found (s : list byte) (c : byte) (i : Z) :
  IndexByte s c = i -> i <> -1 ->
  exists pre rest, s = pre ++ c :: rest /\ len pre = i /\ c ∉ pre.
Proof.
  revert i. induction s as [|b s IH]; simpl; intros i Hi Hne; [lia|].
  destruct (Byte.eqb b c) eqn:Eb.
  - apply eqb_byte_true in Eb as ->. exists [], s. subst i.
    split_and!; [done|done|apply not_elem_of_nil].
  - destruct (IndexByte s c =? -1) eqn:E; [lia|].
    destruct (IH (IndexByte s c) eq_refl) as (pre & rest & -> & Hlen & Hnot);
      [lia|].
    exists (b :: pre), rest. rewrite len_cons.
    split_and!; [done|lia|].
    apply not_elem_of_cons. split; [|done].
    apply eqb_byte_false in Eb. congruence.
Qed.

Lemma slice_app_middle {A} (pre mid post : list A) :
  slice (pre ++ mid ++ post) (len pre) (len pre + len mid) = mid.
Proof.
  unfold slice, len. rewrite Nat2Z.id, drop_app_length.
  replace (Z.to_nat _) with (length mid) by lia.
  by rewrite take_app_length.
Qed.

Lemma slice_length {A} (s : list A) (lo hi : Z) :
  0 <= lo <= hi -> hi <= len s -> len (slice s lo hi) = hi - lo.
Proof.
  unfold slice, len. intros. rewrite length_take, length_drop. lia.
Qed.

(** ** strconv *)

Lemma ParseUint_loop_nonneg (s : list byte) (n un : Z) :
  0 <= n -> strconv.ParseUint_loop s n = (un, None) -> 0 <= un.
Proof.
  revert n. induction s as [|c s IH]; simpl; intros n Hn H.
  - injection H as <-. lia.
  - destruct (_ && _) eqn:Hd; [|done].
    destruct (n >=? _); [done|].
    destruct (_ >? _); [done|].
    apply andb_true_iff in Hd as [Hlo%Z.leb_le _].
    apply (IH (n * 10 + (b2z c - b2z "0"))); [lia|exact H].
Qed.

Lemma ParseUint_loop_range (s : list byte) (n un : Z) :
  strconv.ParseUint_loop s n = (un, Some strconv.ErrRange) ->
  un = strconv.maxUint64.
Proof.
  revert n. induction s as [|c s IH]; simpl; intros n H; [done|].
  destruct (_ && _); [|done].
  destruct (n >=? _); [by injection H|].
  destruct (_ >? _); [by injection H|].
  by apply IH in H.
Qed.

(** An accepted number is a 64-bit signed integer. *)
Lemma ParseInt_in_int64 (s : list byte) (num : Z) :
  strconv.ParseInt s = (num, None) -> in_int64 num.
Proof.
  unfold strconv.ParseInt, in_int64, int64_min, int64_max.
  destruct s as [|c s]; [done|].
  destruct (strconv.ParseUint _) as [un err] eqn:Hun.
  unfold strconv.ParseUint in Hun.
  destruct (if (Byte.eqb c "+" || Byte.eqb c "-")%bool then s else c :: s)
    as [|b l]; [by injection Hun as <- <-|].
  destruct err as [[]|]; [done| |].
  - apply ParseUint_loop_range in Hun as ->.
    destruct (Byte.eqb c "-"); done.
  - apply ParseUint_loop_nonneg in Hun; [|lia].
    destruct (Byte.eqb c "-"); simpl.
    + destruct (un >? 2 ^ 63) eqn:E; [done|]. intros [= <-]. lia.
    + destruct (un >=? 2 ^ 63) eqn:E; [done|]. intros [= <-]. lia.
Qed.

(** ** The integer parser *)

Lemma parseInteger_framed (body rest : list byte) :
  "e"%byte ∉ body -> body <> [] ->
  bencode.parseInteger ("i"%byte :: body ++ "e"%byte :: rest)
  = body_checks body (len body + 1).
Proof.
  intros Hnot Hne. unfold bencode.parseInteger.
  assert (IndexByte ("i"%byte :: body ++ "e"%byte :: rest) "e" = len body + 1)
    as ->.
  { change ("i"%byte :: body ++ "e"%byte :: rest)
      with (("i"%byte :: body) ++ "e"%byte :: rest).
    rewrite IndexByte_first, len_cons; [done|].
    apply not_elem_of_cons. split; [done|done]. }
  pose proof (len_nonneg body). pose proof (len_nonneg rest).
  assert (0 < len body) by (destruct body; [done|rewrite len_cons; pose proof (len_nonneg body); lia]).
  rewrite len_cons, len_app, len_cons.
  destruct (_ <? 3) eqn:E1; [lia|].
  destruct (_ =? -1) eqn:E2; [lia|].
  destruct (_ <? 1) eqn:E3; [lia|].
  replace (slice _ 1 (len body + 1)) with body; [done|].
  symmetry.
  change ("i"%byte :: body ++ "e"%byte :: rest)
    with (["i"%byte] ++ body ++ "e"%byte :: rest).
  replace 1 with (len ["i"%byte]) at 1 by done.
  replace (len body + 1) with (len ["i"%byte] + len body) by (rewrite len_cons, len_nil; lia).
  apply slice_app_middle.
Qed.

(** The fixtures of the integer rule, through the entry point. *)
Example Decode_integer_fixtures :
  fst (bencode.Decode (bencode.NewDecoder (bytes_of "i0e"))) = Ok (bencode.BInt 0) /\
  fst (bencode.Decode (bencode.NewDecoder (bytes_of "i-42e"))) = Ok (bencode.BInt (-42)) /\
  fst (bencode.Decode (bencode.NewDecoder (bytes_of "i-0e"))) = Err bencode.ErrNegativeZero /\
  fst (bencode.Decode (bencode.NewDecoder (bytes_of "i00e"))) = Err bencode.ErrLeadingZero /\
  fst (bencode.Decode (bencode.NewDecoder (bytes_of "i03e"))) = Err bencode.ErrLeadingZero /\
  fst (bencode.Decode (bencode.NewDecoder (bytes_of "ie"))) = Err bencode.ErrInvalidIntegerFormat /\
  fst (bencode.Decode (bencode.NewDecoder (bytes_of "i-e"))) = Err bencode.ErrInvalidIntegerFormat.
Proof. vm_compute. done. Qed.

(** [strconv.ParseInt] takes a plus sign, and so does the integer rule:
    the two leading-zero checks look at the first byte and at the byte
    after a minus sign only. *)
Example parseInteger_plus_sign :
  bencode.parseInteger (bytes_of "i+5e") = Ok (5, 4) /\
  bencode.parseInteger (bytes_of "i+03e") = Ok (3, 5).
Proof. vm_compute. done. Qed.

(** ** Handshake *)

Lemma copy_at_length (dst : list byte) (off : Z) (src : list byte) :
  0 <= off <= len dst -> length (fst (copy_at dst off src)) = length dst.
Proof.
  intros Hoff. unfold copy_at, len in *. simpl.
  rewrite !length_app, !length_take, length_drop. lia.
Qed.

(** C6: for a 20-byte info-hash [h] and a 20-byte peer id [p],
    [Serialize(NewHandshake(h, p))] is 68 bytes long: the byte 19, then
    the 19 bytes of "BitTorrent protocol" (offsets 1 to 19), eight zero
    bytes (offsets 20 to 27), [h] (offsets 28 to 47) and [p] (offsets 48
    to 67). *)
Theorem Handshake_Serialize_layout (h p : list byte) :
  length h = 20%nat -> length p = 20%nat ->
  let out := p2p.Handshake_Serialize (p2p.NewHandshake h p) in
  length out = 68%nat /\
  b2z (idx out 0) = 19 /\
  slice out 1 20 = bytes_of "BitTorrent protocol" /\
  slice out 20 28 = replicate 8 "000"%byte /\
  slice out 28 48 = h /\
  slice out 48 68 = p.
Proof.
  intros Hh Hp.
  do 20 (destruct h as [|? h]; [discriminate Hh|]).
  destruct h; [|discriminate Hh].
  do 20 (destruct p as [|? p]; [discriminate Hp|]).
  destruct p; [|discriminate Hp].
  vm_compute. done.
Qed.

Lemma Handshake_Serialize_layout_witness :
  let h := bytes_of "aaaaaaaaaaaaaaaaaaaa" in
  let p := bytes_of "-BT0001-bbbbbbbbbbbb" in
  let out := p2p.Handshake_Serialize (p2p.NewHandshake h p) in
  length out = 68%nat /\
  b2z (idx out 0) = 19 /\
  slice out 1 20 = bytes_of "BitTorrent protocol" /\
  slice out 20 28 = replicate 8 "000"%byte /\
  slice out 28 48 = h /\
  slice out 48 68 = p.
Proof.
  apply (Handshake_Serialize_layout (bytes_of "aaaaaaaaaaaaaaaaaaaa")
           (bytes_of "-BT0001-bbbbbbbbbbbb")); reflexivity.
Defined.

(** ** Bitfield *)

(** C7, as amended: [>>] and [%] have the same precedence in Go, the
    remainder by 1 is taken after the shift, and [HasPiece] answers
    [false] for every bitfield and every index. *)
Theorem HasPiece_always_false (bf : list byte) (index : Z) :
  torrent.HasPiece bf index = false.
Proof.
  unfold torrent.HasPiece.
  destruct (_ || _); [done|].
  by rewrite Z.rem_1_r.
Qed.

(** C7 as stated fails: with the single byte [0x80] and index 0 a shift
    by zero leaves a non-zero byte, and the top bit is set, but
    [HasPiece] answers [false]. *)
Lemma HasPiece_not_shift_by_zero :
  let bf := ["128"%byte] in
  0 <= 0 < 8 * len bf /\
  HasPiece_shift_by_zero bf 0 = true /\
  top_bit bf 0 = true /\
  torrent.HasPiece bf 0 = false.
Proof. vm_compute. split_and!; congruence. Qed.

(** ** PieceProgress *)

Lemma wrap64_id (z : Z) : in_int64 z -> wrap64 z = z.
Proof.
  unfold in_int64, int64_min, int64_max, wrap64. intros H.
  rewrite Z.mod_small; lia.
Qed.

Lemma wrap64_range (z : Z) : in_int64 (wrap64 z).
Proof.
  unfold in_int64, int64_min, int64_max, wrap64.
  pose proof (Z.mod_pos_bound (z + 2 ^ 63) (2 ^ 64) ltac:(lia)). lia.
Qed.

Lemma wrap64_add_l (a b : Z) : wrap64 (wrap64 a + b) = wrap64 (a + b).
Proof.
  unfold wrap64.
  replace ((a + 2 ^ 63) mod 2 ^ 64 - 2 ^ 63 + b + 2 ^ 63)
    with ((a + 2 ^ 63) mod 2 ^ 64 + b) by lia.
  rewrite Zplus_mod_idemp_l. f_equal. f_equal. lia.
Qed.

Lemma blocks_total_nonneg calls : 0 <= blocks_total calls.
Proof.
  induction calls as [|[b bl] calls IH]; simpl; [lia|].
  pose proof (len_nonneg bl). lia.
Qed.

Lemma AddBlock_state (pp pp1 : p2p.PieceProgress) begin block :
  p2p.AddBlock pp begin block = Some pp1 ->
  len (p2p.Buf pp1) = len (p2p.Buf pp) /\
  p2p.Downloaded pp1 = wrap64 (p2p.Downloaded pp + len block).
Proof.
  unfold p2p.AddBlock.
  destruct (_ || _) eqn:Hb; [done|].
  apply orb_false_iff in Hb as [Hb1%Z.ltb_ge Hb2].
  rewrite Z.gtb_ltb in Hb2. apply Z.ltb_ge in Hb2.
  intros Heq. apply (inj Some) in Heq. subst pp1.
  split; [|done].
  cbn [p2p.Buf]. unfold len. f_equal. apply copy_at_length. unfold len in *. lia.
Qed.

Lemma AddBlocks_state (pp pp' : p2p.PieceProgress) calls :
  in_int64 (p2p.Downloaded pp) ->
  AddBlocks pp calls = Some pp' ->
  len (p2p.Buf pp') = len (p2p.Buf pp) /\
  p2p.Downloaded pp' = wrap64 (p2p.Downloaded pp + blocks_total calls).
Proof.
  revert pp. induction calls as [|[begin block] calls IH]; simpl;
    intros pp Hin H.
  - injection H as <-. split; [done|].
    by rewrite Z.add_0_r, wrap64_id.
  - destruct (p2p.AddBlock pp begin block) as [pp1|] eqn:Hadd; [|done].
    apply AddBlock_state in Hadd as [Hlen1 Hdl1].
    apply IH in H as [Hlen Hdl]; [|rewrite Hdl1; apply wrap64_range].
    split; [congruence|].
    rewrite Hdl, Hdl1, wrap64_add_l. f_equal. lia.
Qed.

(** C8, as amended: after [NewPieceProgress(index, length)] and any
    sequence of [AddBlock] calls, [len(buf)] is still [length] and
    [downloaded] is the total length of the blocks added (as a 64-bit
    integer); [downloaded <= len(buf)] holds whenever that total is at
    most [length]; [IsComplete] is true exactly when
    [downloaded == len(buf)]. *)
Theorem PieceProgress_after_AddBlocks (index length : Z)
    (calls : list (Z * list byte)) (pp0 pp : p2p.PieceProgress) :
  p2p.NewPieceProgress index length = Some pp0 ->
  AddBlocks pp0 calls = Some pp ->
  len (p2p.Buf pp) = length /\
  p2p.Downloaded pp = wrap64 (blocks_total calls) /\
  (blocks_total calls <= length -> p2p.Downloaded pp <= len (p2p.Buf pp)) /\
  (p2p.IsComplete pp = true <-> p2p.Downloaded pp = len (p2p.Buf pp)).
Proof.
  unfold p2p.NewPieceProgress. intros Hnew Hadd.
  destruct (length <? 0) eqn:Hl; [done|]. apply Z.ltb_ge in Hl.
  injection Hnew as <-. apply AddBlocks_state in Hadd as [Hlen Hdl]; [|done].
  cbn [p2p.Buf p2p.Downloaded] in Hlen, Hdl.
  assert (len (p2p.Buf pp) = length) as Hbuf.
  { rewrite Hlen. unfold len, make_bytes. rewrite length_replicate. lia. }
  assert (p2p.Downloaded pp = wrap64 (blocks_total calls)) as Hd.
  { by rewrite Hdl. }
  split_and!; [done|done| |].
  - intros Hle. rewrite Hd, Hbuf.
    pose proof (wrap64_range (blocks_total calls)) as Hr.
    pose proof (blocks_total_nonneg calls).
    destruct (decide (length <= int64_max)) as [Hin|Hout].
    + rewrite wrap64_id; [done|]. unfold in_int64, int64_min in *. lia.
    + unfold in_int64 in Hr. lia.
  - unfold p2p.IsComplete. apply Z.eqb_eq.
Qed.

Lemma PieceProgress_after_AddBlocks_witness :
  exists pp,
    AddBlocks {| p2p.Index := 7; p2p.Buf := make_bytes 4; p2p.Downloaded := 0 |}
      [(0, bytes_of "ab"); (2, bytes_of "cd")] = Some pp /\
    len (p2p.Buf pp) = 4 /\ p2p.Downloaded pp = 4 /\
    p2p.IsComplete pp = true.
Proof.
  eexists. split; [reflexivity|].
  pose proof (PieceProgress_after_AddBlocks 7 4
                [(0, bytes_of "ab"); (2, bytes_of "cd")] _ _
                eq_refl eq_refl) as (H1 & H2 & H3 & H4).
  split_and!; [exact H1|exact H2|]. apply H4. reflexivity.
Defined.

(** C8 as stated fails: a block longer than the buffer is copied as far
    as it fits but counted in full. *)
Lemma PieceProgress_invariant_broken :
  exists pp0 pp,
    p2p.NewPieceProgress 0 3 = Some pp0 /\
    p2p.AddBlock pp0 0 (bytes_of "abcde") = Some pp /\
    ~ p2p.Downloaded pp <= len (p2p.Buf pp).
Proof.
  do 2 eexists. split_and!; [reflexivity|reflexivity|].
  vm_compute. intros H. apply H. reflexivity.
Qed.

(** ** Entry point *)

(** [main] opens the path written in its source, whatever the command
    line holds. *)
Lemma main_Open_fixed_path (sha1_Sum : list byte -> list byte)
    (ReadFile : string -> option (list byte)) (Args : list string) :
  client.main_Open sha1_Sum ReadFile Args
  = torrent.Open sha1_Sum ReadFile (client.main_path Args)
  /\ client.main_path Args = "debian-13.3.0-amd64-netinst.iso.torrent".
Proof. split; reflexivity. Qed.

(** C9 at a failing input: run as [torrentx other.torrent] where only
    [other.torrent] exists, [main] asks for the built-in path and stops
    on the read error, although the named file opens. *)
Lemma main_ignores_argument (sha1_Sum : list byte -> list byte) :
  let Args := ["torrentx"; "other.torrent"] in
  client.main_path Args <> "other.torrent" /\
  client.main_Open sha1_Sum only_other_torrent Args = Err torrent.ErrReadFile /\
  exists t, torrent.Open sha1_Sum only_other_torrent "other.torrent"
            = Ok (t, sha1_Sum (bytes_of "d6:lengthi1e4:name1:a12:piece lengthi1e6:pieces0:e")).
Proof.
  split_and!; [done|reflexivity|].
  eexists. vm_compute. reflexivity.
Qed.

(** ** Piece planner *)

Import torrent.

Lemma fold_left_wrap64 (files : list File) (acc : Z) :
  wrap64 (fold_left (fun total f => wrap64 (total + File_Length f)) files acc)
  = wrap64 (acc + files_total files).
Proof.
  revert acc. induction files as [|f files IH]; intros acc; simpl.
  - by rewrite Z.add_0_r.
  - rewrite IH, wrap64_add_l. f_equal. lia.
Qed.

Lemma fold_left_wrap64_range (files : list File) (acc : Z) :
  in_int64 acc ->
  in_int64 (fold_left (fun total f => wrap64 (total + File_Length f)) files acc).
Proof.
  revert acc. induction files as [|f files IH]; intros acc Hacc; simpl; [done|].
  apply IH, wrap64_range.
Qed.

(** The loop adds with wrap-around; the result is the wrapped sum. *)
Lemma totalLength_wrap (t : Torrent) :
  totalLength t =
  if Length (Info t) >? 0 then Length (Info t)
  else wrap64 (files_total (Files (Info t))).
Proof.
  unfold totalLength. destruct (_ >? 0); [done|].
  rewrite <- (wrap64_id (fold_left _ _ _)).
  - by rewrite fold_left_wrap64.
  - by apply fold_left_wrap64_range.
Qed.

Lemma totalLength_spec (t : Torrent) :
  in_int64 (files_total (Files (Info t))) -> totalLength t = spec_total t.
Proof.
  intros Hin. rewrite totalLength_wrap. unfold spec_total.
  destruct (_ >? 0); [done|]. by apply wrap64_id.
Qed.

Lemma copy_at_whole (src : list byte) :
  fst (copy_at (make_bytes (len src)) 0 src) = src.
Proof.
  unfold copy_at, make_bytes, len. cbn [fst].
  rewrite Nat2Z.id, length_replicate.
  replace (Z.to_nat 0) with 0%nat by lia.
  replace (Z.to_nat (_ `min` _)) with (length src) by lia.
  rewrite take_0, firstn_all. cbn [app].
  rewrite drop_ge; [by rewrite app_nil_r|rewrite length_replicate; lia].
Qed.

Lemma CreatePieceList_body_ok (t : Torrent) (total i : Z) :
  let numPieces := Z.quot (len (Pieces (Info t))) 20 in
  PieceLength (Info t) <> 0 -> 0 <= i < numPieces ->
  CreatePieceList_body t (Pieces (Info t)) total numPieces i
  = Some (planned_piece t total numPieces i).
Proof.
  intros N HP Hi. unfold CreatePieceList_body, planned_piece.
  pose proof (len_nonneg (Pieces (Info t))) as Hlen.
  assert (N * 20 <= len (Pieces (Info t))) as HN.
  { subst N. rewrite Z.quot_div_nonneg by lia.
    pose proof (Z.mul_div_le (len (Pieces (Info t))) 20 ltac:(lia)). lia. }
  assert (fst (copy_at (make_bytes 20) 0
                 (slice (Pieces (Info t)) (i * 20) ((i + 1) * 20)))
          = slice (Pieces (Info t)) (i * 20) ((i + 1) * 20)) as ->.
  { assert (len (slice (Pieces (Info t)) (i * 20) ((i + 1) * 20)) = 20) as Hs
      by (rewrite slice_length; nia).
    rewrite <- Hs at 1. apply copy_at_whole. }
  fold N. destruct (i =? N - 1); simpl.
  - destruct (PieceLength (Info t) =? 0) eqn:E; [lia|].
    by destruct (_ >? 0).
  - done.
Qed.

Lemma CreatePieceList_loop_ok (t : Torrent) (total : Z) (k : nat) (i : Z)
    (pieces : list Piece) :
  let numPieces := Z.quot (len (Pieces (Info t))) 20 in
  PieceLength (Info t) <> 0 ->
  0 <= i -> i + Z.of_nat k = numPieces -> len pieces = numPieces ->
  exists pieces',
    CreatePieceList_loop t (Pieces (Info t)) total numPieces k i pieces
    = Some pieces' /\
    len pieces' = numPieces /\
    (forall j, 0 <= j < i -> pieces' !! Z.to_nat j = pieces !! Z.to_nat j) /\
    (forall j, i <= j < numPieces ->
               pieces' !! Z.to_nat j = Some (planned_piece t total numPieces j)).
Proof.
  intros N HP. revert i pieces.
  induction k as [|k IH]; intros i pieces Hi Hk Hlen; simpl.
  - exists pieces. split_and!; [done|done|done|lia].
  - fold N. rewrite CreatePieceList_body_ok by (fold N; lia). fold N.
    destruct (IH (i + 1) (<[Z.to_nat i := planned_piece t total N i]> pieces))
      as (pieces' & Hrun & Hlen' & Hlow & Hhigh); [lia|lia| |].
    { unfold len in *. by rewrite length_insert. }
    exists pieces'. split_and!; [done|done| |].
    + intros j Hj. rewrite Hlow by lia.
      apply list_lookup_insert_ne. lia.
    + intros j Hj. destruct (decide (j = i)) as [->|Hne].
      * rewrite Hlow by lia. apply list_lookup_insert_eq. unfold len in *. lia.
      * apply Hhigh. lia.
Qed.

(** What the code computes, with Go's remainder ([Z.rem]) and the total
    of [totalLength]: it returns unless the piece length is zero. *)
Lemma CreatePieceList_ok (t : Torrent) :
  let numPieces := Z.quot (len (Pieces (Info t))) 20 in
  PieceLength (Info t) <> 0 ->
  exists pieces,
    CreatePieceList t = Some pieces /\
    len pieces = numPieces /\
    forall i, 0 <= i < numPieces ->
      pieces !! Z.to_nat i = Some (planned_piece t (totalLength t) numPieces i).
Proof.
  intros N HP. unfold CreatePieceList. fold N.
  pose proof (len_nonneg (Pieces (Info t))) as Hlen.
  assert (0 <= N) by (subst N; apply Z.quot_pos; lia).
  destruct (CreatePieceList_loop_ok t (totalLength t) (Z.to_nat N) 0
              (replicate (Z.to_nat N)
                 {| Piece_Index := 0; Piece_Hash := make_bytes 20;
                    Piece_Length := 0 |}))
    as (pieces & Hrun & Hl & _ & Hhigh); [done|lia|fold N; lia| |].
  { fold N. unfold len. rewrite length_replicate. lia. }
  exists pieces. fold N in Hrun, Hl, Hhigh. done.
Qed.

(** C3: for a torrent with piece length [P > 0] whose file lengths add
    up within 64 bits, [CreatePieceList] returns [N = |pieces| / 20]
    pieces; piece [i] has index [i] and the hash bytes [20i, 20(i+1)) of
    the pieces blob; every piece before the last has length [P], the
    last one [T mod P] when that is positive and [P] otherwise, where
    [T] is [Info.Length] when positive and the sum of the file lengths
    otherwise. *)
Theorem CreatePieceList_spec (t : Torrent) :
  let P := PieceLength (Info t) in
  let T := spec_total t in
  let N := len (Pieces (Info t)) / 20 in
  0 < P ->
  (Length (Info t) <= 0 -> 0 <= files_total (Files (Info t)) <= int64_max) ->
  exists pieces,
    CreatePieceList t = Some pieces /\
    len pieces = N /\
    forall i, 0 <= i < N ->
      exists p,
        pieces !! Z.to_nat i = Some p /\
        Piece_Index p = i /\
        Piece_Hash p = slice (Pieces (Info t)) (20 * i) (20 * (i + 1)) /\
        Piece_Length p =
          if i <? N - 1 then P
          else if T mod P >? 0 then T mod P else P.
Proof.
  intros P T N HP Hsum.
  pose proof (len_nonneg (Pieces (Info t))) as Hlen.
  destruct (CreatePieceList_ok t ltac:(fold P; lia)) as (pieces & Hrun & Hl & Hp).
  rewrite Z.quot_div_nonneg in Hl, Hp by lia. fold N in Hl, Hp.
  exists pieces. split_and!; [done|done|].
  intros i Hi. eexists. split; [by apply Hp|].
  assert (totalLength t = T /\ 0 <= T) as [-> HT].
  { subst T. rewrite totalLength_wrap. unfold spec_total.
    destruct (_ >? 0) eqn:E; [lia|].
    rewrite Z.gtb_ltb in E. apply Z.ltb_ge in E. specialize (Hsum E).
    rewrite wrap64_id by (unfold in_int64, int64_min; lia). lia. }
  simpl.
  split_and!; [done|f_equal; lia|].
  fold P. rewrite Z.rem_mod_nonneg by lia.
  destruct (i <? N - 1) eqn:E1; destruct (i =? N - 1) eqn:E2; try lia; simpl.
  - done.
  - by destruct (_ >? 0).
Qed.

Lemma CreatePieceList_spec_witness :
  exists pieces p,
    CreatePieceList torrent_S1 = Some pieces /\ len pieces = 4 /\
    pieces !! 3%nat = Some p /\ Piece_Length p = 10000.
Proof.
  destruct (CreatePieceList_spec torrent_S1) as (pieces & Hrun & Hl & Hp);
    [reflexivity|vm_compute; split; discriminate|].
  destruct (Hp 3) as (p & Hp3 & _ & _ & Hlen); [vm_compute; split; [discriminate|reflexivity]|].
  exists pieces, p. split_and!; [exact Hrun|exact Hl|exact Hp3|exact Hlen].
Defined.

(** ** Coordinator *)

Import torrent.

Lemma bytes_Equal_true (a b : list byte) : bytes_Equal a b = true <-> a = b.
Proof. unfold bytes_Equal. apply bool_decide_eq_true. Qed.

Lemma WriteAt_written (f f' : OutFile) (b : list byte) (off : Z) :
  WriteAt f b off = Some f' ->
  written f' = written f ++ [(off, b)] /\ 0 <= off.
Proof.
  unfold WriteAt. destruct (off <? 0) eqn:E; [done|].
  destruct (healthy f); [done|]. intros [= <-]. simpl. split; [done|lia].
Qed.

Section Coordinator.
Variable sha1_Sum : list byte -> list byte.

(** Over a whole run of the loop: what the file gains are results that
  passed the hash check, written at their offsets, and the counter
  counts exactly those writes. *)
Lemma Download_loop_written (t : Torrent) (pieces : list Piece)
  (results : list PieceResult) (st final : coordinator) :
state_of (Download_loop sha1_Sum t pieces results st) = Some final ->
exists news,
  written (file final) = written (file st) ++ news /\
  doneCount final = doneCount st + len news /\
  Forall (fun w =>
            exists res p,
              res ∈ results /\
              pieces !! Z.to_nat (Result_Index res) = Some p /\
              sha1_Sum (Result_Buf res) = Piece_Hash p /\
              w = (wrap64 (Result_Index res * PieceLength (Info t)),
                   Result_Buf res)) news.
Proof.
revert st. induction results as [|res results IH]; intros st; simpl.
- intros H. exists []. rewrite app_nil_r, len_nil.
  destruct (_ <? _); injection H as <-; split_and!; [done|lia|done|done|lia|done].
- destruct (_ <? _).
  2:{ intros [= <-]. exists []. rewrite app_nil_r, len_nil.
      split_and!; [done|lia|done]. }
  unfold Download_body.
  destruct (Result_Index res <? 0) eqn:E; [done|].
  destruct (pieces !! _) as [p|] eqn:Hp; [|done].
  destruct (bytes_Equal _ _) eqn:Heq; simpl.
  + apply bytes_Equal_true in Heq.
    destruct (WriteAt _ _ _) as [file'|] eqn:Hw; simpl.
    * intros H. apply IH in H as (news & Hw' & Hd & Hall). simpl in *.
      apply WriteAt_written in Hw as [Hw _].
      exists ((wrap64 (Result_Index res * PieceLength (Info t)),
               Result_Buf res) :: news).
      split_and!.
      -- by rewrite Hw', Hw, <- app_assoc.
      -- rewrite len_cons. lia.
      -- constructor.
         ++ exists res, p. split_and!; [apply elem_of_cons; by left|done..].
         ++ eapply Forall_impl; [exact Hall|]. simpl.
            intros w (r & q & ? & ? & ? & ?). exists r, q.
            split_and!; [apply elem_of_cons; by right|done..].
    * intros [= <-]. exists []. rewrite app_nil_r, len_nil.
      split_and!; [done|lia|done].
  + intros H. apply IH in H as (news & Hw' & Hd & Hall). simpl in *.
    exists news. split_and!; [done|done|].
    eapply Forall_impl; [exact Hall|]. simpl.
    intros w (r & q & ? & ? & ? & ?). exists r, q.
    split_and!; [apply elem_of_cons; by right|done..].
Qed.

Lemma Download_loop_writes (t : Torrent) (pieces : list Piece)
  (results : list PieceResult) :
forall st final : coordinator,
  state_of (Download_loop sha1_Sum t pieces results st) = Some final ->
  exists news more,
    written (file final) = written (file st) ++ news /\
    doneCount final = doneCount st + len news /\
    workQueue final = workQueue st ++ more /\
    Forall (verified_write sha1_Sum t pieces results) news.
Proof.
induction results as [|res results IH]; intros st final; cbn [Download_loop].
- intros H. exists [], []. rewrite !app_nil_r.
  destruct (_ <? _); injection H as <-;
    (split_and!; [done|unfold len; cbn [length]; lia|done|done]).
- destruct (_ <? _).
  2:{ intros [= <-]. exists [], []. rewrite !app_nil_r.
      split_and!; [done|unfold len; cbn [length]; lia|done|done]. }
  unfold Download_body.
  destruct (Result_Index res <? 0) eqn:E; [done|].
  destruct (pieces !! _) as [p|] eqn:Hp; [|done].
  assert (forall news,
            Forall (verified_write sha1_Sum t pieces results) news ->
            Forall (verified_write sha1_Sum t pieces (res :: results)) news)
    as Hweak.
  { intros news Hn. eapply Forall_impl; [exact Hn|].
    intros w (r & q & ? & ? & ? & ?).
    exists r, q. split_and!; [apply elem_of_cons; by right|done..]. }
  destruct (bytes_Equal _ _) eqn:Heq; cbn [negb].
  + apply bytes_Equal_true in Heq.
    destruct (WriteAt _ _ _) as [file'|] eqn:Hw.
    * intros H. apply IH in H as (news & more & Hw' & Hd & Hq & Hall).
      cbn [file workQueue doneCount] in *.
      apply WriteAt_written in Hw as [Hw _].
      exists (write_of t res :: news), more.
      split_and!.
      -- by rewrite Hw', Hw, <- app_assoc.
      -- rewrite len_cons. lia.
      -- done.
      -- constructor; [|by apply Hweak].
         exists res, p. split_and!; [apply elem_of_cons; by left|done..].
    * intros [= <-]. exists [], []. rewrite !app_nil_r.
      split_and!; [done|unfold len; cbn [length]; lia|done|done].
  + intros H. apply IH in H as (news & more & Hw' & Hd & Hq & Hall).
    cbn [file workQueue doneCount] in *.
    exists news, (requeued res p :: more).
    split_and!; [done|done| |by apply Hweak].
    by rewrite Hq, <- app_assoc.
Qed.

(** C2: in the loop of [Download], for a result [res] received while
  pieces are missing, with [p] the planned piece of its index.  When
  [SHA1(buf)] differs from the hash of [p] the loop goes on with a fresh
  work item for that index at the end of the queue and with the file
  and the counter as they were: nothing is written for that result, in
  this turn or later, and the work item is still queued when the run
  ends.  When the digests agree the loop writes [buf] at offset
  [index * piece_length] (a positional write) and goes on with the
  counter one higher, or returns the error of the write with nothing
  changed.  Over any run of the loop, every write the file gains is
  that of a received result whose digest is the hash planned for its
  index, and the counter counts these writes.  [Download] is this loop
  run on the plan of [CreatePieceList] from a queue of all pieces, the
  file as opened and a counter of zero; it returns [nil] without taking
  a result once the counter has reached the number of pieces. *)
Theorem Download_loop_verified (t : Torrent) (pieces : list Piece)
  (st : coordinator) (res : PieceResult) (results : list PieceResult)
  (p : Piece) :
0 <= Result_Index res ->
pieces !! Z.to_nat (Result_Index res) = Some p ->
doneCount st < len pieces ->
let run := Download_loop sha1_Sum t pieces in
let offset := wrap64 (Result_Index res * PieceLength (Info t)) in
let requeue :=
  {| workQueue := workQueue st ++ [requeued res p];
     file := file st;
     doneCount := doneCount st |} in
(sha1_Sum (Result_Buf res) <> Piece_Hash p ->
   run (res :: results) st = run results requeue /\
   forall final, state_of (run (res :: results) st) = Some final ->
     requeued res p ∈ workQueue final /\
     exists news,
       written (file final) = written (file st) ++ news /\
       doneCount final = doneCount st + len news /\
       Forall (verified_write sha1_Sum t pieces results) news) /\
(sha1_Sum (Result_Buf res) = Piece_Hash p ->
   (WriteAt (file st) (Result_Buf res) offset = None /\
    run (res :: results) st = Failed st) \/
   (exists file',
       WriteAt (file st) (Result_Buf res) offset = Some file' /\
       written file' = written (file st) ++ [(offset, Result_Buf res)] /\
       run (res :: results) st
       = run results {| workQueue := workQueue st;
                        file := file';
                        doneCount := doneCount st + 1 |})) /\
(forall (all : list PieceResult) (st0 final : coordinator),
   state_of (run all st0) = Some final ->
   exists news,
     written (file final) = written (file st0) ++ news /\
     doneCount final = doneCount st0 + len news /\
     Forall (verified_write sha1_Sum t pieces all) news) /\
(in_int64 (Result_Index res * PieceLength (Info t)) ->
   offset = Result_Index res * PieceLength (Info t)) /\
(forall (all : list PieceResult) (f : OutFile),
   CreatePieceList t = Some pieces ->
   Download sha1_Sum t all f
   = run all {| workQueue :=
                  map (fun q => {| Work_Index := Piece_Index q;
                                   Work_Hash := Piece_Hash q;
                                   Work_Length := Piece_Length q |}) pieces;
                file := f; doneCount := 0 |}) /\
(forall (all : list PieceResult) (st' : coordinator),
   len pieces <= doneCount st' -> run all st' = Finished st') /\
run [] st = Blocked st.
Proof.
intros Hidx Hp Hdone run offset requeue.
assert (run (res :: results) st
        = match Download_body sha1_Sum t pieces st res with
          | Running st' => run results st'
          | other => other
          end) as Hstep.
{ unfold run. cbn [Download_loop].
  destruct (_ <? _) eqn:E; [done|apply Z.ltb_ge in E; lia]. }
assert (Download_body sha1_Sum t pieces st res
        = if negb (bytes_Equal (sha1_Sum (Result_Buf res)) (Piece_Hash p))
          then Running requeue
          else match WriteAt (file st) (Result_Buf res) offset with
               | None => Failed st
               | Some file' =>
                   Running {| workQueue := workQueue st; file := file';
                              doneCount := doneCount st + 1 |}
               end) as Hbody.
{ unfold Download_body.
  destruct (Result_Index res <? 0) eqn:E; [apply Z.ltb_lt in E; lia|].
  by rewrite Hp. }
split_and!.
- intros Hne.
  assert (bytes_Equal (sha1_Sum (Result_Buf res)) (Piece_Hash p) = false)
    as Heq.
  { destruct (bytes_Equal _ _) eqn:Heq; [|done].
    by apply bytes_Equal_true in Heq. }
  rewrite Hbody, Heq in Hstep. cbn [negb] in Hstep.
  split; [done|]. intros final. rewrite Hstep. intros Hfinal.
  apply Download_loop_writes in Hfinal as (news & more & Hw & Hd & Hq & Hall).
  cbn [file workQueue doneCount requeue] in *.
  split.
  + rewrite Hq, <- app_assoc. apply elem_of_app. right.
    apply elem_of_cons. by left.
  + by exists news.
- intros Heq. apply bytes_Equal_true in Heq.
  rewrite Hbody, Heq in Hstep. cbn [negb] in Hstep.
  destruct (WriteAt _ _ _) as [file'|] eqn:Hw; [right|by left].
  exists file'. split_and!; [done| |done].
  by apply WriteAt_written in Hw as [? _].
- intros all st0 final Hfinal.
  apply Download_loop_writes in Hfinal as (news & more & Hw & Hd & Hq & Hall).
  by exists news.
- apply wrap64_id.
- intros all f Hplan. unfold Download. by rewrite Hplan.
- intros all st' Hst'. unfold run.
  destruct all; cbn [Download_loop];
    (destruct (_ <? _) eqn:E; [apply Z.ltb_lt in E; lia|done]).
- unfold run. cbn [Download_loop].
  destruct (_ <? _) eqn:E; [done|apply Z.ltb_ge in E; lia].
Qed.

End Coordinator.

Lemma Download_loop_verified_witness :
  let evil := {| Result_Index := 0; Result_Buf := bytes_of "evil" |} in
  let good := {| Result_Index := 0; Result_Buf := bytes_of "good" |} in
  let p := {| Piece_Index := 0; Piece_Hash := toy_sum (bytes_of "good");
              Piece_Length := 4 |} in
  let requeue :=
    {| workQueue := workQueue busy_start ++ [requeued evil p];
       file := file busy_start; doneCount := doneCount busy_start |} in
  Download_loop toy_sum torrent_S1 two_pieces [evil; good] busy_start
  = Download_loop toy_sum torrent_S1 two_pieces [good] requeue /\
  Download_loop toy_sum torrent_S1 two_pieces [good] requeue
  = Finished {| workQueue := workQueue requeue;
                file := {| written := [(32768, bytes_of "fine");
                                       (0, bytes_of "good")];
                           healthy := 1 |};
                doneCount := 2 |}.
Proof.
  intros evil good p requeue. split.
  - apply (Download_loop_verified toy_sum torrent_S1 two_pieces busy_start
             evil [good] p); [cbn; lia|reflexivity|reflexivity|].
    vm_compute. discriminate.
  - destruct (proj1 (proj2 (Download_loop_verified toy_sum torrent_S1
                              two_pieces requeue good [] p
                              ltac:(cbn; lia) eq_refl eq_refl)) eq_refl)
      as [[Hw _]|(file' & Hw & _ & Hrun)].
    + vm_compute in Hw. discriminate Hw.
    + rewrite Hrun. vm_compute in Hw. injection Hw as <-.
      vm_compute. reflexivity.
Defined.

(** ** Worker: the request pipeline *)

Import torrent.

Lemma Z_lor_bound (a b n : Z) :
  0 <= n -> 0 <= a < 2 ^ n -> 0 <= b < 2 ^ n -> 0 <= Z.lor a b < 2 ^ n.
Proof.
  intros Hn Ha Hb. split; [apply Z.lor_nonneg; lia|].
  destruct (decide (a = 0)) as [->|Ha0]; [rewrite Z.lor_0_l; lia|].
  destruct (decide (b = 0)) as [->|Hb0]; [rewrite Z.lor_0_r; lia|].
  apply Z.log2_lt_pow2; [pose proof (Z.lor_nonneg a b); 
    assert (Z.lor a b <> 0) by (rewrite Z.lor_eq_0_iff; lia); lia|].
  rewrite Z.log2_lor by lia.
  apply Z.max_lub_lt; apply Z.log2_lt_pow2; lia.
Qed.

Lemma Uint32_range (b : list byte) : 0 <= p2p.Uint32 b < 2 ^ 32.
Proof.
  unfold p2p.Uint32.
  pose proof (b2z_range (idx b 0)). pose proof (b2z_range (idx b 1)).
  pose proof (b2z_range (idx b 2)). pose proof (b2z_range (idx b 3)).
  repeat apply Z_lor_bound; rewrite ?Z.shiftl_mul_pow2; lia.
Qed.

Lemma ReadFull_len (c c' : net.Conn) (n : Z) (bs : list byte) :
  0 <= n -> net.ReadFull c n = Some (bs, c') -> len bs = n.
Proof.
  unfold net.ReadFull. intros Hn.
  destruct (n <=? _) eqn:E; [|done]. apply Z.leb_le in E.
  intros [= <- _]. unfold len in *. rewrite length_take. lia.
Qed.

(** A message read from the wire is shorter than 4 GiB. *)
Lemma Read_payload_bound (c c' : net.Conn) (m : p2p.Message) :
  p2p.Read c = (p2p.ReadMsg m, c') -> len (p2p.Payload m) < 2 ^ 32.
Proof.
  unfold p2p.Read.
  destruct (net.ReadFull c 4) as [[lengthBuf r1]|]; [|done].
  pose proof (Uint32_range lengthBuf) as Hu.
  destruct (_ =? 0); [done|].
  destruct (net.ReadFull r1 _) as [[messageBuf r2]|] eqn:Hr; [|done].
  apply ReadFull_len in Hr; [|lia].
  intros [= <- _]. cbn [p2p.Payload].
  unfold slice_from, len in *. rewrite length_drop. lia.
Qed.

Lemma attempt_start_inv (c : net.Conn) (pw : PieceWork) :
  attempt_inv (Work_Length pw) (attempt_start c pw)
  \/ at_ (attempt_start c pw) = Panicked.
Proof.
  unfold attempt_start, attempt_inv, backlog. simpl.
  destruct (Work_Length pw <? 0) eqn:E; [by right|left].
  apply Z.ltb_ge in E. split_and!; try lia.
  - intros [|]; done.
  - unfold maxBacklog, blockSize. lia.
Qed.

Local Ltac close_inv :=
  split_and!; try lia; try (intros [?|?]; first [discriminate | lia]).

Lemma attempt_step_inv (pw : PieceWork) (s : attempt) :
  Work_Length pw < 2 ^ 62 ->
  attempt_inv (Work_Length pw) s ->
  attempt_inv (Work_Length pw) (attempt_step pw s).
Proof.
  intros HL (Hr & Hd & Hat & Hb).
  unfold attempt_step, attempt_inv, backlog, maxBacklog, blockSize, goto in *.
  destruct s as [c b r d p]. cbn [at_ requested downloaded conn buf] in *.
  destruct p; cbn [goto at_ requested downloaded conn buf].
  - (* AtFor *)
    destruct (d <? Work_Length pw) eqn:E; cbn [at_ requested downloaded];
      [apply Z.ltb_lt in E|]; close_inv.
  - (* AtRefill *)
    specialize (Hat (or_introl eq_refl)).
    rewrite !wrap64_id by (unfold in_int64, int64_min, int64_max; lia).
    destruct (_ && _) eqn:G.
    + apply andb_true_iff in G as [G1%Z.ltb_lt G2%Z.ltb_lt].
      destruct (p2p.Message_Serialize _); cbn [at_ requested downloaded];
        [|close_inv].
      destruct (net.Write _ _); cbn [at_ requested downloaded];
        [|close_inv].
      destruct (_ <? 16384) eqn:E;
        [apply Z.ltb_lt in E|apply Z.ltb_ge in E];
        rewrite !wrap64_id by (unfold in_int64, int64_min, int64_max; lia);
        close_inv.
    + cbn [at_ requested downloaded]. close_inv.
  - (* AtRead *)
    specialize (Hat (or_intror eq_refl)).
    destruct (p2p.Read c) as [[| |m] c'] eqn:Hread;
      cbn [at_ requested downloaded]; [close_inv|close_inv|].
    apply Read_payload_bound in Hread.
    destruct (_ =? p2p.MsgPiece); cbn [at_ requested downloaded];
      [|close_inv].
    destruct (_ <? 8) eqn:E8; cbn [at_ requested downloaded]; [close_inv|].
    destruct (_ >? _); cbn [at_ requested downloaded]; [close_inv|].
    assert (0 <= len (slice_from (p2p.Payload m) 8) < 2 ^ 32) as Hblk.
    { unfold slice_from, len in *. rewrite length_drop. lia. }
    rewrite wrap64_id by (unfold in_int64, int64_min, int64_max; lia).
    close_inv.
  - (* Returned *) close_inv.
  - (* Panicked *) close_inv.
Qed.

Lemma attempt_run_S (pw : PieceWork) (n : nat) (s : attempt) :
  attempt_run pw (S n) s = attempt_step pw (attempt_run pw n s).
Proof. reflexivity. Qed.

Lemma attempt_step_Panicked (pw : PieceWork) (s : attempt) :
  at_ s = Panicked -> attempt_step pw s = s.
Proof. unfold attempt_step. by intros ->. Qed.

Lemma attempt_run_inv (c : net.Conn) (pw : PieceWork) (n : nat) :
  0 <= Work_Length pw < 2 ^ 62 ->
  attempt_inv (Work_Length pw) (attempt_run pw n (attempt_start c pw)).
Proof.
  intros HL. induction n as [|n IH].
  - destruct (attempt_start_inv c pw) as [H|H]; [done|].
    unfold attempt_start in H. simpl in H.
    destruct (_ <? 0) eqn:E; [lia|done].
  - rewrite attempt_run_S. apply attempt_step_inv; [lia|done].
Qed.

Lemma whole_blocks_below (x : Z) :
  x mod blockSize = 0 -> x < maxBacklog * blockSize ->
  x <= (maxBacklog - 1) * blockSize.
Proof.
  unfold blockSize, maxBacklog. intros Hm Hx.
  apply Z.mod_divide in Hm as [q ->]; lia.
Qed.

Lemma whole_blocks_add (x k : Z) :
  x mod blockSize = 0 -> k mod blockSize = 0 -> (x + k) mod blockSize = 0.
Proof.
  unfold blockSize. intros Hx Hk.
  apply Z.mod_divide in Hx as [q ->]; [|lia].
  apply Z.mod_divide in Hk as [q' ->]; [|lia].
  replace (q * 16384 + q' * 16384) with ((q + q') * 16384) by lia.
  apply Z.mod_mul. lia.
Qed.

Lemma whole_blocks_sub (x k : Z) :
  x mod blockSize = 0 -> k mod blockSize = 0 -> (x - k) mod blockSize = 0.
Proof.
  unfold blockSize. intros Hx Hk.
  apply Z.mod_divide in Hx as [q ->]; [|lia].
  apply Z.mod_divide in Hk as [q' ->]; [|lia].
  replace (q * 16384 - q' * 16384) with ((q - q') * 16384) by lia.
  apply Z.mod_mul. lia.
Qed.

Lemma attempt_step_inv_whole (pw : PieceWork) (s : attempt) :
  Work_Length pw < 2 ^ 62 ->
  attempt_inv (Work_Length pw) s ->
  whole_block pw s = true ->
  attempt_inv_whole (Work_Length pw) s ->
  attempt_inv_whole (Work_Length pw) (attempt_step pw s).
Proof.
  intros HL (Hr & Hd & Hat & Hb) Hwhole (Hw & Hm).
  unfold attempt_step, attempt_inv_whole, whole_block, backlog, goto in *.
  destruct s as [c b r d p]. cbn [at_ requested downloaded conn buf] in *.
  destruct p; cbn [at_ requested downloaded conn buf].
  - (* AtFor *)
    by destruct (d <? Work_Length pw).
  - (* AtRefill *)
    specialize (Hat (or_introl eq_refl)).
    rewrite !wrap64_id by (unfold in_int64, int64_min, int64_max, maxBacklog, blockSize in *; lia).
    destruct (_ && _) eqn:G; [|done].
    apply andb_true_iff in G as [G1%Z.ltb_lt G2%Z.ltb_lt].
    destruct (p2p.Message_Serialize _); cbn [at_ requested downloaded];
      [|done].
    destruct (net.Write _ _); cbn [at_ requested downloaded]; [|done].
    destruct Hm as [Hm|Hm]; [lia|].
    pose proof (whole_blocks_below _ Hm G2) as Hlow.
    destruct (_ <? blockSize) eqn:E;
      [apply Z.ltb_lt in E|apply Z.ltb_ge in E];
      rewrite !wrap64_id by (unfold in_int64, int64_min, int64_max, maxBacklog, blockSize in *; lia).
    + split; [unfold maxBacklog, blockSize in *; lia|left; lia].
    + split; [unfold maxBacklog, blockSize in *; lia|right].
      replace (r + blockSize - d) with (r - d + blockSize) by lia.
      apply whole_blocks_add; [done|]. apply Z.mod_same. unfold blockSize. lia.
  - (* AtRead *)
    specialize (Hat (or_intror eq_refl)).
    destruct (p2p.Read c) as [[| |m] c'] eqn:Hread;
      cbn [fst at_ requested downloaded] in *; [done|done|].
    apply Read_payload_bound in Hread.
    destruct (_ =? p2p.MsgPiece); cbn [at_ requested downloaded negb orb] in *;
      [|done].
    destruct (_ <? 8) eqn:E8; cbn [at_ requested downloaded]; [done|].
    destruct (_ >? _); cbn [at_ requested downloaded]; [done|].
    assert (0 <= len (slice_from (p2p.Payload m) 8) < 2 ^ 32) as Hblk.
    { unfold slice_from, len in *. rewrite length_drop. lia. }
    rewrite wrap64_id by (unfold in_int64, int64_min, int64_max; lia).
    split; [lia|].
    apply orb_true_iff in Hwhole as [Hall%Z.eqb_eq|Hblock%Z.eqb_eq];
      [by left|].
    destruct Hm as [Hm|Hm]; [by left|right].
    replace (r - (d + len (slice_from (p2p.Payload m) 8)))
      with (r - d - len (slice_from (p2p.Payload m) 8)) by lia.
    by apply whole_blocks_sub.
  - done.
  - done.
Qed.

(** C4, as amended: for a piece shorter than 2^62 bytes, at every point
    of [attemptDownloadPiece] and whatever the peer sends,
    [requested - downloaded] stays below
    [(maxBacklog + 1) * blockSize]; it never exceeds
    [maxBacklog * blockSize] as long as each PIECE message that arrives
    before the last REQUEST has gone out carries a whole number of
    blocks. *)
Theorem attemptDownloadPiece_backlog (c : net.Conn) (pw : PieceWork)
    (n : nat) :
  0 <= Work_Length pw < 2 ^ 62 ->
  let run k := attempt_run pw k (attempt_start c pw) in
  backlog (run n) < (maxBacklog + 1) * blockSize /\
  ((forall k, (k < n)%nat -> whole_block pw (run k) = true) ->
   backlog (run n) <= maxBacklog * blockSize).
Proof.
  intros HL run. split.
  - apply (attempt_run_inv c pw n HL).
  - intros Hwhole.
    enough (attempt_inv_whole (Work_Length pw) (run n)) as [H _] by exact H.
    induction n as [|n IH].
    + subst run. unfold attempt_inv_whole, attempt_start, backlog. simpl.
      split; [unfold maxBacklog, blockSize; lia|by right].
    + subst run. cbn beta in *. rewrite attempt_run_S.
      apply attempt_step_inv_whole; [lia|by apply attempt_run_inv| |].
      * apply Hwhole. lia.
      * apply IH. intros k Hk. apply Hwhole. lia.
Qed.

Lemma attemptDownloadPiece_backlog_witness :
  backlog (attempt_run long_piece 15 (attempt_start one_byte_peer long_piece))
  < (maxBacklog + 1) * blockSize /\
  backlog (attempt_run short_piece 8 (attempt_start answering_peer short_piece))
  <= maxBacklog * blockSize.
Proof.
  split.
  - apply (attemptDownloadPiece_backlog one_byte_peer long_piece 15).
    vm_compute. split; [discriminate|reflexivity].
  - apply (attemptDownloadPiece_backlog answering_peer short_piece 8).
    + vm_compute. split; [discriminate|reflexivity].
    + intros k Hk.
      do 8 (destruct k as [|k]; [vm_compute; reflexivity|]). lia.
Defined.

(** The answering peer is served in full. *)
Example attemptDownloadPiece_completes :
  at_ (attempt_run short_piece 8 (attempt_start answering_peer short_piece))
  = Returned (Some (replicate 60 "x"%byte ++ replicate 40 "y"%byte)).
Proof. vm_compute. reflexivity. Qed.

(** C4 as stated fails: after ten requests and a PIECE message of one
    byte the loop sends an eleventh request, and 180223 bytes are
    outstanding. *)
Lemma attemptDownloadPiece_backlog_exceeded :
  let s := attempt_run long_piece 15 (attempt_start one_byte_peer long_piece) in
  at_ s = AtRefill /\ requested s = 180224 /\ downloaded s = 1 /\
  ~ backlog s <= maxBacklog * blockSize.
Proof. vm_compute. split_and!; [done..|]. intros H. apply H. reflexivity. Qed.

(** ** Decoder: inputs that agree on a prefix *)

Import bencode.

Lemma agree_sym n a b : agree n a b -> agree n b a.
Proof. unfold agree. congruence. Qed.

Lemma agree_le n m a b : m <= n -> agree n a b -> agree m a b.
Proof.
  unfold agree. intros Hm H.
  assert (forall l : list byte,
             take (Z.to_nat m) l = take (Z.to_nat m) (take (Z.to_nat n) l)) as Ht.
  { intros l. rewrite take_take. f_equal. lia. }
  by rewrite (Ht a), (Ht b), H.
Qed.

Lemma agree_len n a b : agree n a b -> 0 <= n <= len a -> n <= len b.
Proof.
  unfold agree, len. intros H Hn.
  apply (f_equal length) in H. rewrite !length_take in H. lia.
Qed.

Lemma agree_idx n a b i : agree n a b -> 0 <= i < n -> idx a i = idx b i.
Proof.
  unfold agree, idx. intros H Hi.
  destruct (i <? 0) eqn:E; [lia|].
  rewrite !nth_lookup.
  rewrite <- (lookup_take_lt a (Z.to_nat n)) by lia.
  rewrite <- (lookup_take_lt b (Z.to_nat n)) by lia.
  by rewrite H.
Qed.

Lemma agree_drop n a b p c :
  agree n a b -> 0 <= p -> 0 <= c -> p + c <= n ->
  agree c (slice_from a p) (slice_from b p).
Proof.
  unfold agree, slice_from. intros H Hp Hc Hn.
  rewrite !take_drop_commute.
  f_equal.
  apply (agree_le n (Z.of_nat (Z.to_nat p + Z.to_nat c))) in H; [|lia].
  unfold agree in H. by rewrite Nat2Z.id in H.
Qed.

Lemma agree_slice n a b lo hi :
  agree n a b -> 0 <= lo <= hi -> hi <= n -> slice a lo hi = slice b lo hi.
Proof.
  intros H Hlo Hhi. unfold slice.
  apply (agree_drop n a b lo (hi - lo)); [done|lia..].
Qed.

Lemma agree_app n a rest : n <= len a -> agree n (a ++ rest) a.
Proof.
  unfold agree, len. intros H. apply take_app_le. lia.
Qed.

Lemma agree_refl n a : agree n a a.
Proof. done. Qed.

Lemma take_snoc_idx (a pre rest : list byte) (c : byte) :
  a = pre ++ c :: rest -> take (S (length pre)) a = pre ++ [c].
Proof.
  intros ->. rewrite (take_app_ge pre) by lia.
  replace (S (length pre) - length pre)%nat with 1%nat by lia. done.
Qed.

(** The first occurrence of [c] lies in the common prefix. *)
Lemma agree_IndexByte n a b c :
  agree n a b -> 0 <= IndexByte a c < n -> IndexByte b c = IndexByte a c.
Proof.
  intros H Hi.
  destruct (IndexByte_found a c _ eq_refl ltac:(lia))
    as (pre & rest & Ha & Hlen & Hnot).
  apply (agree_le n (len pre + 1)) in H; [|lia].
  unfold agree in H.
  replace (Z.to_nat (len pre + 1)) with (S (length pre)) in H
    by (unfold len; lia).
  rewrite (take_snoc_idx a pre rest c Ha) in H.
  assert (b = pre ++ c :: drop (S (length pre)) b) as Hb.
  { rewrite <- (take_drop (S (length pre)) b) at 1. rewrite <- H.
    by rewrite <- app_assoc. }
  rewrite Hb, IndexByte_first by done. lia.
Qed.

Lemma slice_from_len (a : list byte) (p : Z) :
  0 <= p <= len a -> len (slice_from a p) = len a - p.
Proof.
  unfold slice_from, len. intros. rewrite length_drop. lia.
Qed.

(** ** Decoder: strings and integers *)

(** What an accepted string looks like. *)
Lemma parseString_Ok (data s : list byte) (n : Z) :
  parseString data = Ok (s, n) ->
  exists colonIdx length,
    IndexByte data ":" = colonIdx /\ 0 < colonIdx /\
    0 <= length <= MaxStringLength /\
    n = colonIdx + 1 + length /\ n <= len data /\
    s = slice data (colonIdx + 1) n.
Proof.
  unfold parseString.
  destruct (_ <=? 0) eqn:E1; [done|]. apply Z.leb_gt in E1.
  destruct (_ && _); [done|].
  destruct (strconv.Atoi _) as [length [e|]]; [done|].
  destruct (length <? 0) eqn:E2; [done|]. apply Z.ltb_ge in E2.
  destruct (length >? _) eqn:E3; [done|].
  rewrite Z.gtb_ltb in E3. apply Z.ltb_ge in E3.
  destruct (_ <? _) eqn:E4; [done|]. apply Z.ltb_ge in E4.
  intros [= <- <-]. exists (IndexByte data ":"), length.
  split_and!; (done || lia).
Qed.

Lemma parseString_consumed (data s : list byte) (n : Z) :
  parseString data = Ok (s, n) -> 2 <= n <= len data.
Proof.
  intros H. apply parseString_Ok in H as (c & l & _ & ? & ? & -> & ? & _). lia.
Qed.

Lemma parseString_not_Panic (data : list byte) :
  parseString data <> Panic /\ parseString data <> OutOfFuel.
Proof.
  unfold parseString.
  destruct (_ <=? 0); [done|].
  destruct (_ && _); [done|].
  destruct (strconv.Atoi _) as [length [e|]]; [done|].
  destruct (length <? 0); [done|].
  destruct (length >? _); [done|].
  by destruct (_ <? _).
Qed.

(** [parseString] reads the bytes it consumes and no others. *)
Lemma parseString_agree (data data' s : list byte) (n : Z) :
  parseString data = Ok (s, n) -> agree n data' data ->
  parseString data' = Ok (s, n).
Proof.
  intros H Hag. pose proof H as Hok.
  apply parseString_Ok in Hok as (c & l & Hc & Hc0 & Hl & Hn & Hlen & Hs).
  assert (IndexByte data' ":" = c) as Hc'.
  { rewrite <- Hc. apply (agree_IndexByte n); [by apply agree_sym|lia]. }
  assert (n <= len data') as Hlen'.
  { apply (agree_len n data data'); [by apply agree_sym|lia]. }
  unfold parseString in *. rewrite Hc' . rewrite Hc in H.
  rewrite (agree_slice n data' data 0 c) by (done || lia).
  destruct (_ <=? 0); [done|].
  destruct (_ && _); [done|].
  destruct (strconv.Atoi _) as [length [e|]]; [done|].
  destruct (length <? 0); [done|].
  destruct (length >? _); [done|].
  destruct (len data <? _) eqn:E; [done|].
  injection H as Hs' Hn'.
  destruct (len data' <? _) eqn:E'; [lia|].
  rewrite (agree_slice n data' data) by (done || lia). congruence.
Qed.

(** What an accepted integer looks like. *)
Lemma parseInteger_consumed (data : list byte) (v n : Z) :
  parseInteger data = Ok (v, n) ->
  n = IndexByte data "e" + 1 /\ 3 <= n <= len data.
Proof.
  unfold parseInteger. cbv zeta.
  destruct (_ <? 3) eqn:E1; [done|].
  destruct (_ =? -1) eqn:E2; [done|].
  destruct (_ <? 1) eqn:E3; [done|]. apply Z.ltb_ge in E3.
  pose proof (IndexByte_range data "e") as Hr.
  destruct (len (slice _ _ _) =? 0) eqn:E4; [done|].
  rewrite slice_length in E4 by lia. apply Z.eqb_neq in E4.
  destruct (Byte.eqb _ "0" && _); [done|].
  destruct (strconv.ParseInt _) as [num [e|]].
  - destruct (Byte.eqb _ "-"); [|done].
    destruct (_ =? 1); [done|].
    destruct (Byte.eqb _ "0"); [|done].
    by destruct (_ =? 2).
  - destruct (Byte.eqb _ "-").
    + destruct (_ =? 1); [done|].
      destruct (Byte.eqb _ "0"); [by destruct (_ =? 2)|].
      intros [= <- <-]. lia.
    + intros [= <- <-]. lia.
Qed.

Lemma parseInteger_agree (data data' : list byte) (v n : Z) :
  parseInteger data = Ok (v, n) -> agree n data' data ->
  parseInteger data' = Ok (v, n).
Proof.
  intros H Hag.
  destruct (parseInteger_consumed _ _ _ H) as [Hn Hlen].
  pose proof (IndexByte_range data "e") as Hr.
  assert (IndexByte data' "e" = IndexByte data "e") as He.
  { apply (agree_IndexByte n); [by apply agree_sym|lia]. }
  assert (n <= len data') as Hlen'.
  { apply (agree_len n data data'); [by apply agree_sym|lia]. }
  unfold parseInteger in *. rewrite He.
  rewrite (agree_slice n data' data 1 (IndexByte data "e")) by (done || lia).
  destruct (len data <? 3); [done|].
  destruct (len data' <? 3) eqn:E; [lia|]. done.
Qed.

(** [parseInteger] never fails a bounds check on what [parseValue]
    hands it. *)
Lemma parseInteger_not_Panic (data : list byte) :
  parseInteger ("i"%byte :: data) <> Panic
  /\ parseInteger ("i"%byte :: data) <> OutOfFuel.
Proof.
  unfold parseInteger. cbv zeta. simpl IndexByte.
  pose proof (IndexByte_range data "e") as Hr.
  destruct (_ <? 3); [done|].
  destruct (IndexByte data "e" =? -1) eqn:E; [done|].
  apply Z.eqb_neq in E.
  destruct (_ =? -1); [done|].
  destruct (_ <? 1) eqn:E1; [lia|].
  destruct (len (slice _ _ _) =? 0); [done|].
  destruct (Byte.eqb _ "0" && _); [done|].
  destruct (strconv.ParseInt _) as [num [e|]].
  - destruct (Byte.eqb _ "-"); [|done].
    destruct (_ =? 1); [done|].
    destruct (Byte.eqb _ "0"); [|done].
    by destruct (_ =? 2).
  - destruct (Byte.eqb _ "-"); [|done].
    destruct (_ =? 1); [done|].
    destruct (Byte.eqb _ "0"); [|done].
    by destruct (_ =? 2).
Qed.

(** ** Decoder: what every call guarantees *)

Import bencode.

Section Loops.
Variable pv : list byte -> Decoder -> outcome (bvalue * Z) * Decoder.
Hypothesis pv_wb : well_behaved pv.

Lemma parseList_loop_wb (n : nat) (data : list byte) (result : list bvalue)
  (pos : Z) (d : Decoder) r d' :
0 <= pos ->
parseList_loop pv n data result pos d = (r, d') ->
bencode.data d' = bencode.data d /\
depth d' = depth d /\
(1 <= depth d -> RawInfo d' = RawInfo d) /\
r <> Panic /\
(forall res m, r = Ok (res, m) -> pos + 1 <= m <= len data).
Proof.
revert result pos d. induction n as [|n IH]; intros result pos d Hpos;
  simpl.
- destruct (_ && _) eqn:G; [by intros [= <- <-]|].
  destruct (_ || _) eqn:G2; [by intros [= <- <-]|].
  intros [= <- <-]. split_and!; try done.
  intros res m [= <- <-].
  apply orb_false_iff in G2 as [G2 _]. lia.
- destruct (_ && _) eqn:G.
  + apply andb_true_iff in G as [G1%Z.ltb_lt _].
    destruct (pv _ d) as [[[val consumed]|e| |] d1] eqn:Hpv;
      destruct (pv_wb _ _ _ _ Hpv) as (Hdata & Hdep & Hraw & Hnp & Hn);
      try (intros [= <- <-]; split_and!; done).
    specialize (Hn _ _ eq_refl).
    rewrite slice_from_len in Hn by lia.
    intros Hloop. apply IH in Hloop as (? & ? & Hraw' & ? & Hm); [|lia].
    split_and!; try congruence.
    * intros Hd. rewrite Hraw' by lia. by apply Hraw.
    * intros res m Hr. specialize (Hm _ _ Hr). lia.
  + destruct (_ || _) eqn:G2; [by intros [= <- <-]|].
    intros [= <- <-]. split_and!; try done.
    intros res m [= <- <-].
    apply orb_false_iff in G2 as [G2 _]. lia.
Qed.

Lemma parseDict_loop_wb (n : nat) (data : list byte)
  (result : gmap string bvalue) (pos : Z) (d : Decoder) r d' :
0 <= pos ->
parseDict_loop pv n data result pos d = (r, d') ->
bencode.data d' = bencode.data d /\
depth d' = depth d /\
(2 <= depth d -> RawInfo d' = RawInfo d) /\
r <> Panic /\
(forall res m, r = Ok (res, m) -> pos + 1 <= m <= len data).
Proof.
revert result pos d. induction n as [|n IH]; intros result pos d Hpos;
  simpl.
- destruct (_ && _) eqn:G; [by intros [= <- <-]|].
  destruct (_ || _) eqn:G2; [by intros [= <- <-]|].
  intros [= <- <-]. split_and!; try done.
  intros res m [= <- <-].
  apply orb_false_iff in G2 as [G2 _]. lia.
- destruct (_ && _) eqn:G.
  + apply andb_true_iff in G as [G1%Z.ltb_lt _].
    destruct (parseString _) as [[keyBytes consumedKey]|e| |] eqn:Hkey;
      try (intros [= <- <-]; split_and!; done);
      try (by destruct (parseString_not_Panic (slice_from data pos))).
    apply parseString_consumed in Hkey.
    rewrite slice_from_len in Hkey by lia.
    destruct (_ >=? _) eqn:G3; [by intros [= <- <-]|].
    destruct (pv _ d) as [[[val consumed]|e| |] d1] eqn:Hpv;
      destruct (pv_wb _ _ _ _ Hpv) as (Hdata & Hdep & Hraw & Hnp & Hn);
      try (intros [= <- <-]; split_and!; try done; intros; apply Hraw; lia).
    specialize (Hn _ _ eq_refl).
    rewrite slice_from_len in Hn by lia.
    intros Hloop. apply IH in Hloop as (Hdata' & Hdep' & Hraw' & ? & Hm);
      [|lia].
    assert (forall raw, depth (if bool_decide (string_of keyBytes = "info")
                                   && (depth d1 =? 1)
                               then set_RawInfo d1 raw else d1) = depth d1)
      as Hsd by (intros; by destruct (_ && _)).
    assert (forall raw, bencode.data
                              (if bool_decide (string_of keyBytes = "info")
                                   && (depth d1 =? 1)
                               then set_RawInfo d1 raw else d1)
                        = bencode.data d1)
      as Hsdata by (intros; by destruct (_ && _)).
    rewrite Hsd in Hdep', Hraw'. rewrite Hsdata in Hdata'.
    split_and!; try congruence.
    * intros Hd. rewrite Hraw' by lia.
      destruct (depth d1 =? 1) eqn:E1; [lia|].
      rewrite andb_false_r. apply Hraw. lia.
    * intros res m Hr. specialize (Hm _ _ Hr). lia.
  + destruct (_ || _) eqn:G2; [by intros [= <- <-]|].
    intros [= <- <-]. split_and!; try done.
    intros res m [= <- <-].
    apply orb_false_iff in G2 as [G2 _]. lia.
Qed.

Lemma parseList_wb : well_behaved (parseList pv).
Proof.
intros data d r d'. unfold parseList.
destruct (depth (set_depth d (depth d + 1)) >? MaxDepth).
{ intros [= <- <-]. simpl. split_and!; try done; lia. }
destruct (_ || _).
{ intros [= <- <-]. simpl. split_and!; try done; lia. }
destruct (parseList_loop _ _ _ _ _ _) as [[[res m]|e| |] d1] eqn:Hloop;
  apply parseList_loop_wb in Hloop as (Hdata & Hdep & Hraw & Hnp & Hm);
  try lia; simpl in Hdata, Hdep, Hraw;
  intros [= <- <-]; simpl;
  (split_and!; [done|lia|intros; apply Hraw; lia|done|]); try done.
intros v n [= <- <-]. specialize (Hm _ _ eq_refl). lia.
Qed.

Lemma parseDict_wb : well_behaved (parseDict pv).
Proof.
intros data d r d'. unfold parseDict.
destruct (depth (set_depth d (depth d + 1)) >? MaxDepth).
{ intros [= <- <-]. simpl. split_and!; try done; lia. }
destruct (_ || _).
{ intros [= <- <-]. simpl. split_and!; try done; lia. }
destruct (parseDict_loop _ _ _ _ _ _) as [[[res m]|e| |] d1] eqn:Hloop;
  apply parseDict_loop_wb in Hloop as (Hdata & Hdep & Hraw & Hnp & Hm);
  try lia; simpl in Hdata, Hdep, Hraw;
  intros [= <- <-]; simpl;
  (split_and!; [done|lia|intros; apply Hraw; lia|done|]); try done.
intros v n [= <- <-]. specialize (Hm _ _ eq_refl). lia.
Qed.

End Loops.

Lemma parseValue_wb (fuel : nat) : well_behaved (parseValue fuel).
Proof.
  induction fuel as [|fuel IH]; intros data d r d'; simpl.
  - intros [= <- <-]. split_and!; done.
  - destruct data as [|c data]; [intros [= <- <-]; split_and!; done|].
    destruct (Byte.eqb c "i") eqn:Ei.
    { apply eqb_byte_true in Ei as ->.
      destruct (parseInteger _) as [[n used]|e| |] eqn:Hint;
        try (by destruct (parseInteger_not_Panic data));
        intros [= <- <-]; split_and!; try done.
      intros v m [= <- <-]. apply parseInteger_consumed in Hint. lia. }
    destruct (_ && _).
    { destruct (parseString _) as [[s used]|e| |] eqn:Hstr;
        try (by destruct (parseString_not_Panic (c :: data)));
        intros [= <- <-]; split_and!; try done.
      intros v m [= <- <-]. by apply parseString_consumed in Hstr. }
    destruct (Byte.eqb c "l"); [by apply parseList_wb|].
    destruct (Byte.eqb c "d"); [by apply parseDict_wb|].
    intros [= <- <-]. split_and!; done.
Qed.

(** [Decode] never fails a bounds check. *)
Lemma Decode_no_Panic (d : Decoder) : fst (Decode d) <> Panic.
Proof.
  unfold Decode.
  destruct (parseValue _ _ _) as [[[v n]|e| |] d'] eqn:H; simpl; try done.
  by apply parseValue_wb in H as (_ & _ & _ & ? & _).
Qed.

(** ** Decoder: fuel *)

Import bencode.

Section MoreFuel.
Variables pv pv' : list byte -> Decoder -> outcome (bvalue * Z) * Decoder.
Hypothesis pv_refines : refines pv pv'.

Lemma parseList_loop_refines (n : nat) (data : list byte)
  (result : list bvalue) (pos : Z) (d : Decoder) r d' :
parseList_loop pv n data result pos d = (r, d') -> r <> OutOfFuel ->
parseList_loop pv' n data result pos d = (r, d').
Proof.
revert result pos d. induction n as [|n IH]; intros result pos d; simpl.
- done.
- destruct (_ && _); [|done].
  destruct (pv _ d) as [[[val consumed]|e| |] d1] eqn:Hpv.
  + rewrite (pv_refines _ _ _ _ Hpv) by done. apply IH.
  + rewrite (pv_refines _ _ _ _ Hpv) by done. done.
  + rewrite (pv_refines _ _ _ _ Hpv) by done. done.
  + by intros [= <- <-].
Qed.

Lemma parseDict_loop_refines (n : nat) (data : list byte)
  (result : gmap string bvalue) (pos : Z) (d : Decoder) r d' :
parseDict_loop pv n data result pos d = (r, d') -> r <> OutOfFuel ->
parseDict_loop pv' n data result pos d = (r, d').
Proof.
revert result pos d. induction n as [|n IH]; intros result pos d; simpl.
- done.
- destruct (_ && _); [|done].
  destruct (parseString _) as [[keyBytes consumedKey]|e| |]; try done.
  destruct (_ >=? _); [done|].
  destruct (pv _ d) as [[[val consumed]|e| |] d1] eqn:Hpv.
  + rewrite (pv_refines _ _ _ _ Hpv) by done. apply IH.
  + rewrite (pv_refines _ _ _ _ Hpv) by done. done.
  + rewrite (pv_refines _ _ _ _ Hpv) by done. done.
  + by intros [= <- <-].
Qed.

Lemma parseList_refines : refines (parseList pv) (parseList pv').
Proof.
intros data d r d'. unfold parseList.
destruct (_ >? MaxDepth); [done|].
destruct (_ || _); [done|].
destruct (parseList_loop pv _ _ _ _ _) as [r1 d1] eqn:Hloop.
intros H Hr.
rewrite (parseList_loop_refines _ _ _ _ _ _ _ Hloop); [done|].
intros ->. by injection H as <- <-.
Qed.

Lemma parseDict_refines : refines (parseDict pv) (parseDict pv').
Proof.
intros data d r d'. unfold parseDict.
destruct (_ >? MaxDepth); [done|].
destruct (_ || _); [done|].
destruct (parseDict_loop pv _ _ _ _ _) as [r1 d1] eqn:Hloop.
intros H Hr.
rewrite (parseDict_loop_refines _ _ _ _ _ _ _ Hloop); [done|].
intros ->. by injection H as <- <-.
Qed.

End MoreFuel.

(** More fuel does not change a result. *)
Lemma parseValue_fuel_mono (fuel fuel' : nat) :
  (fuel <= fuel')%nat -> refines (parseValue fuel) (parseValue fuel').
Proof.
  revert fuel'. induction fuel as [|fuel IH]; intros fuel' Hle data d r d'.
  - simpl. by intros [= <- <-].
  - destruct fuel' as [|fuel']; [lia|]. simpl.
    destruct data as [|c data]; [done|].
    destruct (Byte.eqb c "i"); [done|].
    destruct (_ && _); [done|].
    destruct (Byte.eqb c "l");
      [apply parseList_refines, IH; lia|].
    destruct (Byte.eqb c "d");
      [apply parseDict_refines, IH; lia|].
    done.
Qed.

Section EnoughFuel.
Variable pv : list byte -> Decoder -> outcome (bvalue * Z) * Decoder.
Variable bound : Z.
Hypothesis pv_wb : well_behaved pv.
Hypothesis pv_adequate : adequate pv bound.

Lemma parseList_loop_adequate (n : nat) (data : list byte)
  (result : list bvalue) (pos : Z) (d : Decoder) :
1 <= pos -> len data <= bound -> len data - pos <= Z.of_nat n ->
fst (parseList_loop pv n data result pos d) <> OutOfFuel.
Proof.
revert result pos d. induction n as [|n IH]; intros result pos d Hpos Hb Hn;
  simpl.
- destruct (_ && _) eqn:G.
  { apply andb_true_iff in G as [G1%Z.ltb_lt _]. lia. }
  by destruct (_ || _).
- destruct (_ && _) eqn:G; [|by destruct (_ || _)].
  apply andb_true_iff in G as [G1%Z.ltb_lt _].
  destruct (pv _ d) as [[[val consumed]|e| |] d1] eqn:Hpv; try done.
  + destruct (pv_wb _ _ _ _ Hpv) as (_ & _ & _ & _ & Hc).
    specialize (Hc _ _ eq_refl). apply IH; lia.
  + pose proof (pv_adequate (slice_from data pos) d) as Ha.
    rewrite Hpv in Ha. intros _. apply Ha; [rewrite slice_from_len; lia|done].
Qed.

Lemma parseDict_loop_adequate (n : nat) (data : list byte)
  (result : gmap string bvalue) (pos : Z) (d : Decoder) :
1 <= pos -> len data <= bound -> len data - pos <= Z.of_nat n ->
fst (parseDict_loop pv n data result pos d) <> OutOfFuel.
Proof.
revert result pos d. induction n as [|n IH]; intros result pos d Hpos Hb Hn;
  simpl.
- destruct (_ && _) eqn:G.
  { apply andb_true_iff in G as [G1%Z.ltb_lt _]. lia. }
  by destruct (_ || _).
- destruct (_ && _) eqn:G; [|by destruct (_ || _)].
  apply andb_true_iff in G as [G1%Z.ltb_lt _].
  destruct (parseString _) as [[keyBytes consumedKey]|e| |] eqn:Hkey;
    try done;
    [|by destruct (parseString_not_Panic (slice_from data pos))].
  apply parseString_consumed in Hkey.
  rewrite slice_from_len in Hkey by lia.
  destruct (_ >=? _) eqn:G3; [done|].
  destruct (pv _ d) as [[[val consumed]|e| |] d1] eqn:Hpv; try done.
  + destruct (pv_wb _ _ _ _ Hpv) as (_ & _ & _ & _ & Hc).
    specialize (Hc _ _ eq_refl). apply IH; lia.
  + pose proof (pv_adequate (slice_from data (pos + consumedKey)) d) as Ha.
    rewrite Hpv in Ha. intros _. apply Ha; [rewrite slice_from_len; lia|done].
Qed.

Lemma parseList_adequate : adequate (parseList pv) (bound + 1).
Proof.
intros data d Hlen. unfold parseList.
destruct (_ >? MaxDepth); [done|].
destruct (_ || _); [done|].
pose proof (parseList_loop_adequate (length data) data [] 1
              (set_depth d (depth d + 1))) as Hl.
destruct (parseList_loop _ _ _ _ _ _) as [[[res m]|e| |] d1]; try done.
intros _. apply Hl; [unfold len in *; lia..|done].
Qed.

Lemma parseDict_adequate : adequate (parseDict pv) (bound + 1).
Proof.
intros data d Hlen. unfold parseDict.
destruct (_ >? MaxDepth); [done|].
destruct (_ || _); [done|].
pose proof (parseDict_loop_adequate (length data) data ∅ 1
              (set_depth d (depth d + 1))) as Hl.
destruct (parseDict_loop _ _ _ _ _ _) as [[[res m]|e| |] d1]; try done.
intros _. apply Hl; [unfold len in *; lia..|done].
Qed.

End EnoughFuel.

Lemma parseValue_adequate (fuel : nat) :
  adequate (parseValue fuel) (Z.of_nat fuel).
Proof.
  induction fuel as [|fuel IH]; intros data d Hlen.
  - pose proof (len_nonneg data). lia.
  - simpl. destruct data as [|c data]; [done|].
    destruct (Byte.eqb c "i") eqn:Ei.
    { apply eqb_byte_true in Ei as ->.
      destruct (parseInteger_not_Panic data) as [_ Hnf].
      by destruct (parseInteger _) as [[? ?]| | |]. }
    destruct (_ && _).
    { destruct (parseString_not_Panic (c :: data)) as [_ Hnf].
      by destruct (parseString _) as [[? ?]| | |]. }
    replace (Z.of_nat (S fuel)) with (Z.of_nat fuel + 1) in Hlen by lia.
    destruct (Byte.eqb c "l").
    { apply (parseList_adequate _ (Z.of_nat fuel)); [apply parseValue_wb|done..]. }
    destruct (Byte.eqb c "d").
    { apply (parseDict_adequate _ (Z.of_nat fuel)); [apply parseValue_wb|done..]. }
    done.
Qed.

(** [Decode] always comes back: with a value or with an error. *)
Theorem Decode_total (d : Decoder) :
  (exists v, fst (Decode d) = Ok v) \/ (exists e, fst (Decode d) = Err e).
Proof.
  pose proof (Decode_no_Panic d) as Hp.
  pose proof (parseValue_adequate (S (length (data d))) (data d) d) as Hf.
  unfold Decode in *.
  destruct (parseValue _ _ _) as [[[v n]|e| |] d']; simpl in *.
  - left. by eexists.
  - right. by eexists.
  - done.
  - exfalso. apply Hf; [unfold len; lia|done].
Qed.

(** ** Decoder: only the consumed bytes matter *)

Import bencode.

Lemma loop_guard_agree (data data' : list byte) (pos m : Z) :
  agree m data' data -> 0 <= pos < m -> m <= len data ->
  (pos <? len data') && negb (Byte.eqb (idx data' pos) "e")
  = (pos <? len data) && negb (Byte.eqb (idx data pos) "e").
Proof.
  intros Hag Hpos Hm.
  pose proof (agree_len m data data' (agree_sym _ _ _ Hag) ltac:(lia)).
  rewrite (agree_idx m data' data pos) by (done || lia).
  destruct (pos <? len data') eqn:E1; destruct (pos <? len data) eqn:E2;
    (done || lia).
Qed.

Lemma loop_exit_agree (data data' : list byte) (pos m : Z) :
  agree m data' data -> 0 <= pos < m -> m <= len data ->
  (pos >=? len data') || negb (Byte.eqb (idx data' pos) "e")
  = (pos >=? len data) || negb (Byte.eqb (idx data pos) "e").
Proof.
  intros Hag Hpos Hm.
  pose proof (agree_len m data data' (agree_sym _ _ _ Hag) ltac:(lia)).
  rewrite (agree_idx m data' data pos) by (done || lia).
  destruct (pos >=? len data') eqn:E1; destruct (pos >=? len data) eqn:E2;
    (done || lia).
Qed.

Lemma same_state_chain (was : Prop) (d1 d2 d1' d2' : Decoder) :
  same_state was d1 d2 ->
  same_state (RawInfo d1 = RawInfo d2) d1' d2' ->
  same_state was d1' d2'.
Proof.
  intros [_ Hraw] [Hdep Hraw']. split; [done|]. intros Hwas. by apply Hraw', Hraw.
Qed.

Section Prefix.
Variable pv : list byte -> Decoder -> outcome (bvalue * Z) * Decoder.
Hypothesis pv_wb : well_behaved pv.
Hypothesis pv_det : prefix_determined pv.

Lemma parseList_loop_det (was : Prop) (n n' : nat) (data data' : list byte)
  (result : list bvalue) (pos : Z) (d1 d2 : Decoder) res m d1' :
0 <= pos -> same_state was d1 d2 ->
parseList_loop pv n data result pos d1 = (Ok (res, m), d1') ->
agree m data' data -> m - pos - 1 <= Z.of_nat n' ->
exists d2',
  parseList_loop pv n' data' result pos d2 = (Ok (res, m), d2')
  /\ same_state was d1' d2'.
Proof.
revert n' result pos d1 d2.
induction n as [|n IH]; intros n' result pos d1 d2 Hpos Hst Hloop Hag Hn';
  pose proof (parseList_loop_wb pv pv_wb _ _ _ _ _ _ _ Hpos Hloop)
    as (_ & _ & _ & _ & Hm);
  specialize (Hm _ _ eq_refl);
  simpl in Hloop.
- destruct (_ && _) eqn:G; [done|].
  destruct (_ || _) eqn:G2; [done|].
  injection Hloop as <- <- <-.
  exists d2. split; [|done].
  destruct n'; simpl;
    by rewrite (loop_guard_agree data data' pos (pos + 1)), G,
         (loop_exit_agree data data' pos (pos + 1)), G2 by (done || lia).
- destruct (_ && _) eqn:G.
  + destruct (pv _ d1) as [[[val consumed]|e| |] d1a] eqn:Hpv; try done.
    destruct (pv_wb _ _ _ _ Hpv) as (_ & _ & _ & _ & Hc).
    specialize (Hc _ _ eq_refl).
    assert (0 <= pos + consumed) as Hpos' by lia.
    pose proof (parseList_loop_wb pv pv_wb _ _ _ _ _ _ _ Hpos' Hloop)
      as (_ & _ & _ & _ & Hm2).
    specialize (Hm2 _ _ eq_refl).
    destruct (pv_det _ (slice_from data' pos) _ d2 _ _ _ (proj1 Hst) Hpv)
      as (d2a & Hpv' & Hst').
    { apply (agree_drop m); (done || lia). }
    destruct n' as [|n']; [lia|]. simpl.
    rewrite (loop_guard_agree data data' pos m), G, Hpv' by (done || lia).
    apply (IH n' _ _ d1a d2a); try (done || lia).
    by apply (same_state_chain was d1 d2).
  + destruct (_ || _) eqn:G2; [done|].
    injection Hloop as <- <- <-.
    exists d2. split; [|done].
    destruct n'; simpl;
      by rewrite (loop_guard_agree data data' pos (pos + 1)), G,
           (loop_exit_agree data data' pos (pos + 1)), G2 by (done || lia).
Qed.

Lemma parseDict_loop_det (was : Prop) (n n' : nat) (data data' : list byte)
  (result : gmap string bvalue) (pos : Z) (d1 d2 : Decoder) res m d1' :
0 <= pos -> same_state was d1 d2 ->
parseDict_loop pv n data result pos d1 = (Ok (res, m), d1') ->
agree m data' data -> m - pos - 1 <= Z.of_nat n' ->
exists d2',
  parseDict_loop pv n' data' result pos d2 = (Ok (res, m), d2')
  /\ same_state was d1' d2'.
Proof.
revert n' result pos d1 d2.
induction n as [|n IH]; intros n' result pos d1 d2 Hpos Hst Hloop Hag Hn';
  pose proof (parseDict_loop_wb pv pv_wb _ _ _ _ _ _ _ Hpos Hloop)
    as (_ & _ & _ & _ & Hm);
  specialize (Hm _ _ eq_refl);
  simpl in Hloop.
- destruct (_ && _) eqn:G; [done|].
  destruct (_ || _) eqn:G2; [done|].
  injection Hloop as <- <- <-.
  exists d2. split; [|done].
  destruct n'; simpl;
    by rewrite (loop_guard_agree data data' pos (pos + 1)), G,
         (loop_exit_agree data data' pos (pos + 1)), G2 by (done || lia).
- destruct (_ && _) eqn:G.
  + apply andb_true_iff in G as [G1 G1'].
    pose proof G1 as Hlt. apply Z.ltb_lt in Hlt.
    destruct (parseString _) as [[keyBytes consumedKey]|e| |] eqn:Hkey;
      try done.
    pose proof (parseString_consumed _ _ _ Hkey) as Hck.
    rewrite slice_from_len in Hck by lia.
    destruct (_ >=? _) eqn:G3; [done|].
    destruct (pv _ d1) as [[[val consumed]|e| |] d1a] eqn:Hpv; try done.
    destruct (pv_wb _ _ _ _ Hpv) as (_ & Hdep & _ & _ & Hc).
    specialize (Hc _ _ eq_refl).
    rewrite slice_from_len in Hc by lia.
    assert (0 <= pos + consumedKey + consumed) as Hpos' by lia.
    pose proof (parseDict_loop_wb pv pv_wb _ _ _ _ _ _ _ Hpos' Hloop)
      as (_ & _ & _ & _ & Hm2).
    specialize (Hm2 _ _ eq_refl).
    pose proof (agree_len m data data' (agree_sym _ _ _ Hag) ltac:(lia))
      as Hlen'.
    destruct (pv_det _ (slice_from data' (pos + consumedKey)) _ d2 _ _ _
                (proj1 Hst) Hpv) as (d2a & Hpv' & Hst').
    { apply (agree_drop m); (done || lia). }
    apply (same_state_chain was d1 d2 _ _ Hst) in Hst'.
    destruct Hst' as [Hst1 Hst2].
    destruct n' as [|n']; [lia|]. simpl.
    rewrite (loop_guard_agree data data' pos m), G1, G1' by (done || lia).
    simpl.
    rewrite (parseString_agree _ (slice_from data' pos) _ _ Hkey)
      by (apply (agree_drop m); (done || lia)).
    destruct (pos + consumedKey >=? len data') eqn:G3'; [lia|].
    rewrite Hpv'.
    rewrite (agree_slice m data' data) by (done || lia).
    rewrite <- Hst1.
    eapply (IH n'); [| |exact Hloop|exact Hag|]; try lia.
    destruct (_ && _); split; simpl; done.
  + destruct (_ || _) eqn:G2; [done|].
    injection Hloop as <- <- <-.
    exists d2. split; [|done].
    destruct n'; simpl;
      by rewrite (loop_guard_agree data data' pos (pos + 1)), G,
           (loop_exit_agree data data' pos (pos + 1)), G2 by (done || lia).
Qed.

Lemma parseList_det : prefix_determined (parseList pv).
Proof.
intros data data' d1 d2 v n d1' Hst1 Hrun Hag.
destruct (parseList_wb pv pv_wb _ _ _ _ Hrun) as (_ & _ & _ & _ & Hn).
specialize (Hn _ _ eq_refl).
pose proof (agree_len n data data' (agree_sym _ _ _ Hag) ltac:(lia))
  as Hlen'.
unfold parseList in *. simpl depth in *. rewrite <- Hst1.
destruct (_ >? MaxDepth); [done|].
destruct (_ || _) eqn:G; [done|].
apply orb_false_iff in G as [G1%Z.ltb_ge G2].
rewrite (agree_idx n data' data 0) by (done || lia). rewrite G2.
destruct (len data' <? 2) eqn:E; [lia|]. simpl.
destruct (parseList_loop pv (length data) _ _ _ _)
  as [[[res m]|e| |] d1a] eqn:Hloop; try done.
injection Hrun as <- <- <-.
destruct (parseList_loop_det (RawInfo d1 = RawInfo d2)
            (length data) (length data') data data' [] 1
            (set_depth d1 (depth d1 + 1)) (set_depth d2 (depth d1 + 1))
            res m d1a ltac:(lia) ltac:(split; simpl; done) Hloop Hag)
  as (d2a & Hloop' & [Hs1 Hs2]); [unfold len in *; lia|].
rewrite Hloop'. eexists. split; [done|].
split; simpl; [congruence|done].
Qed.

Lemma parseDict_det : prefix_determined (parseDict pv).
Proof.
intros data data' d1 d2 v n d1' Hst1 Hrun Hag.
destruct (parseDict_wb pv pv_wb _ _ _ _ Hrun) as (_ & _ & _ & _ & Hn).
specialize (Hn _ _ eq_refl).
pose proof (agree_len n data data' (agree_sym _ _ _ Hag) ltac:(lia))
  as Hlen'.
unfold parseDict in *. simpl depth in *. rewrite <- Hst1.
destruct (_ >? MaxDepth); [done|].
destruct (_ || _) eqn:G; [done|].
apply orb_false_iff in G as [G1%Z.ltb_ge G2].
rewrite (agree_idx n data' data 0) by (done || lia). rewrite G2.
destruct (len data' <? 2) eqn:E; [lia|]. simpl.
destruct (parseDict_loop pv (length data) _ _ _ _)
  as [[[res m]|e| |] d1a] eqn:Hloop; try done.
injection Hrun as <- <- <-.
destruct (parseDict_loop_det (RawInfo d1 = RawInfo d2)
            (length data) (length data') data data' ∅ 1
            (set_depth d1 (depth d1 + 1)) (set_depth d2 (depth d1 + 1))
            res m d1a ltac:(lia) ltac:(split; simpl; done) Hloop Hag)
  as (d2a & Hloop' & [Hs1 Hs2]); [unfold len in *; lia|].
rewrite Hloop'. eexists. split; [done|].
split; simpl; [congruence|done].
Qed.

End Prefix.

Lemma agree_head (n : Z) (data' : list byte) (c : byte) (data : list byte) :
  1 <= n -> agree n data' (c :: data) -> exists rest, data' = c :: rest.
Proof.
  unfold agree. intros Hn H.
  destruct (Z.to_nat n) as [|k] eqn:E; [lia|].
  destruct data' as [|c' rest]; [done|]. simpl in H.
  injection H as -> _. by eexists.
Qed.

Lemma parseValue_det (fuel : nat) : prefix_determined (parseValue fuel).
Proof.
  induction fuel as [|fuel IH];
    intros data data' d1 d2 v n d1' Hst Hrun Hag; [done|].
  destruct (parseValue_wb _ _ _ _ _ Hrun) as (_ & _ & _ & _ & Hn).
  specialize (Hn _ _ eq_refl).
  destruct data as [|c data]; [done|].
  destruct (agree_head n data' c data ltac:(lia) Hag) as [rest ->].
  simpl in *.
  destruct (Byte.eqb c "i").
  { destruct (parseInteger (c :: data)) as [[num used]|e| |] eqn:Hint;
      try done.
    injection Hrun as <- <- <-.
    rewrite (parseInteger_agree _ _ _ _ Hint Hag). by exists d2. }
  destruct (_ && _).
  { destruct (parseString (c :: data)) as [[s used]|e| |] eqn:Hstr; try done.
    injection Hrun as <- <- <-.
    rewrite (parseString_agree _ _ _ _ Hstr Hag). by exists d2. }
  destruct (Byte.eqb c "l").
  { eapply parseList_det; eauto using parseValue_wb. }
  destruct (Byte.eqb c "d").
  { eapply parseDict_det; eauto using parseValue_wb. }
  done.
Qed.

(** ** Decoder: trailing bytes *)

Import bencode.

(** The fuel [Decode] gives itself is as good as any larger amount. *)
Lemma parseValue_enough (fuel : nat) (data : list byte) (d : Decoder) :
  (length data < fuel)%nat ->
  parseValue fuel data d = parseValue (S (length data)) data d.
Proof.
  intros Hf.
  destruct (parseValue (S (length data)) data d) as [r d'] eqn:Hrun.
  apply (parseValue_fuel_mono (S (length data)) fuel ltac:(lia)); [done|].
  pose proof (parseValue_adequate (S (length data)) data d) as Ha.
  rewrite Hrun in Ha. apply Ha. unfold len. lia.
Qed.

(** The value [Decode] returns, and the slice it captures, depend on the
    bytes consumed only: an input that starts with the same [n] bytes
    decodes to the same value. *)
Lemma Decode_prefix (data data' : list byte) (v : bvalue) (n : Z) d' :
  parseValue (S (length data)) data (NewDecoder data) = (Ok (v, n), d') ->
  agree n data' data ->
  fst (Decode (NewDecoder data')) = Ok v /\
  RawInfo (snd (Decode (NewDecoder data'))) = RawInfo d'.
Proof.
  intros Hrun Hag.
  set (fuel := S (length data + length data')).
  rewrite <- (parseValue_enough fuel) in Hrun by (subst fuel; lia).
  destruct (parseValue_det fuel data data' (NewDecoder data) (NewDecoder data')
              v n d' eq_refl Hrun Hag) as (d2' & Hrun' & [_ Hraw]).
  rewrite (parseValue_enough fuel) in Hrun' by (subst fuel; lia).
  unfold Decode. cbn [bencode.data NewDecoder]. rewrite Hrun'. cbn [fst snd].
  split; [done|]. symmetry. apply Hraw. reflexivity.
Qed.

(** An input the decoder reads in full is read the same, with the same
    captured slice, when more bytes follow. *)
Lemma Decode_after_encodes (enc rest : list byte) (v : bvalue) :
  encodes enc v ->
  fst (Decode (NewDecoder (enc ++ rest))) = Ok v /\
  RawInfo (snd (Decode (NewDecoder (enc ++ rest))))
  = RawInfo (snd (Decode (NewDecoder enc))).
Proof.
  intros [d' Hrun].
  destruct (Decode_prefix enc (enc ++ rest) v (len enc) d' Hrun) as [Hv Hraw].
  { apply agree_app. lia. }
  split; [done|]. rewrite Hraw.
  unfold Decode. cbn [bencode.data NewDecoder]. by rewrite Hrun.
Qed.

(** ** Numerals *)

Lemma is_digit_range (b : byte) : is_digit b = true -> 48 <= b2z b <= 57.
Proof.
  unfold is_digit. intros H.
  apply andb_true_iff in H as [H1%Z.leb_le H2%Z.leb_le].
  change (b2z "0") with 48 in H1. change (b2z "9") with 57 in H2. lia.
Qed.

Lemma is_digit_not (b c : byte) :
  is_digit b = true -> ~ 48 <= b2z c <= 57 -> b <> c.
Proof. intros Hb Hc ->. by apply is_digit_range in Hb. Qed.

Lemma digits_not_elem (ds : list byte) (c : byte) :
  Forall (fun b => is_digit b = true) ds -> ~ 48 <= b2z c <= 57 -> c ∉ ds.
Proof.
  intros Hds Hc Hin. rewrite Forall_forall in Hds.
  apply Hds in Hin. by apply is_digit_range in Hin.
Qed.

Lemma digits_value_ge (ds : list byte) (acc : Z) :
  Forall (fun b => is_digit b = true) ds -> 0 <= acc ->
  acc <= digits_value ds acc.
Proof.
  revert acc. induction ds as [|d ds IH]; intros acc Hds Hacc; simpl; [lia|].
  inversion Hds as [|? ? Hd Hds']; subst.
  apply is_digit_range in Hd. change (b2z "0") with 48.
  specialize (IH (acc * 10 + (b2z d - 48)) Hds' ltac:(lia)). lia.
Qed.

Lemma ParseUint_loop_digits (ds : list byte) (acc : Z) :
  Forall (fun b => is_digit b = true) ds -> 0 <= acc ->
  digits_value ds acc <= strconv.maxUint64 ->
  strconv.ParseUint_loop ds acc = (digits_value ds acc, None).
Proof.
  revert acc. induction ds as [|d ds IH]; intros acc Hds Hacc Hmax; simpl;
    [done|].
  simpl in Hmax.
  inversion Hds as [|? ? Hd Hds']; subst.
  pose proof Hd as Hr. apply is_digit_range in Hr.
  unfold is_digit in Hd. rewrite Hd.
  change (b2z "0") with 48 in *.
  pose proof (digits_value_ge ds (acc * 10 + (b2z d - 48)) Hds' ltac:(lia))
    as Hge.
  unfold strconv.maxUint64 in *.
  destruct (acc >=? _) eqn:E1.
  { rewrite Z.geb_leb in E1. apply Z.leb_le in E1.
    change ((2 ^ 64 - 1) / 10 + 1) with 1844674407370955162 in E1. lia. }
  destruct (_ >? _) eqn:E2.
  { rewrite Z.gtb_ltb in E2. apply Z.ltb_lt in E2. lia. }
  apply IH; (done || lia).
Qed.

Lemma Atoi_fast_loop_digits (ds : list byte) (acc : Z) :
  Forall (fun b => is_digit b = true) ds ->
  strconv.Atoi_fast_loop ds acc = (digits_value ds acc, None).
Proof.
  revert acc. induction ds as [|d ds IH]; intros acc Hds; simpl; [done|].
  inversion Hds as [|? ? Hd Hds']; subst.
  apply is_digit_range in Hd. change (b2z "0") with 48.
  unfold wrap8. rewrite Z.mod_small by lia.
  destruct (_ >? 9) eqn:E.
  { rewrite Z.gtb_ltb in E. apply Z.ltb_lt in E. lia. }
  by apply IH.
Qed.

Lemma numeral_head (ds : list byte) :
  numeral ds ->
  exists d tl, ds = d :: tl /\ is_digit d = true /\
               (d = "0"%byte -> tl = []).
Proof.
  intros (Hne & Hds & Hz). destruct ds as [|d tl]; [done|].
  inversion Hds; subst. exists d, tl. split_and!; [done|done|].
  intros ->. by apply Hz.
Qed.

Lemma numeral_nonneg (ds : list byte) : numeral ds -> 0 <= digits_value ds 0.
Proof. intros (_ & Hds & _). by apply digits_value_ge. Qed.

Lemma digit_eqb_false (d c : byte) :
  is_digit d = true -> ~ 48 <= b2z c <= 57 -> Byte.eqb d c = false.
Proof. intros Hd Hc. apply eqb_byte_false. by apply is_digit_not. Qed.

Lemma ParseInt_numeral (ds : list byte) :
  numeral ds -> digits_value ds 0 <= int64_max ->
  strconv.ParseInt ds = (digits_value ds 0, None).
Proof.
  intros Hnum Hmax. pose proof (numeral_nonneg ds Hnum) as Hpos.
  destruct (numeral_head ds Hnum) as (d & tl & -> & Hd & _).
  destruct Hnum as (_ & Hds & _).
  unfold strconv.ParseInt.
  rewrite (digit_eqb_false d "-"), (digit_eqb_false d "+")
    by (done || vm_compute; intros [? ?]; done).
  cbn [orb negb andb]. unfold strconv.ParseUint.
  unfold int64_max in Hmax.
  rewrite ParseUint_loop_digits
    by (done || lia || unfold strconv.maxUint64; lia).
  destruct (_ >=? 2 ^ 63) eqn:E; [|done].
  rewrite Z.geb_leb in E. apply Z.leb_le in E. lia.
Qed.

Lemma ParseInt_minus_numeral (ds : list byte) :
  numeral ds -> int64_min <= - digits_value ds 0 ->
  strconv.ParseInt ("-"%byte :: ds) = (- digits_value ds 0, None).
Proof.
  intros Hnum Hmin. pose proof (numeral_nonneg ds Hnum) as Hpos.
  destruct (numeral_head ds Hnum) as (d & tl & -> & Hd & _).
  destruct Hnum as (_ & Hds & _).
  unfold strconv.ParseInt. cbn [Byte.eqb orb]. rewrite eqb_byte_refl.
  rewrite orb_true_r. unfold strconv.ParseUint.
  unfold int64_min in Hmin.
  rewrite ParseUint_loop_digits
    by (done || lia || unfold strconv.maxUint64; lia).
  cbn [negb andb].
  destruct (_ >? 2 ^ 63) eqn:E; [|done].
  rewrite Z.gtb_ltb in E. apply Z.ltb_lt in E. lia.
Qed.

Lemma Atoi_numeral (ds : list byte) :
  numeral ds -> digits_value ds 0 <= MaxStringLength ->
  strconv.Atoi ds = (digits_value ds 0, None).
Proof.
  intros Hnum Hmax. pose proof (numeral_nonneg ds Hnum) as Hpos.
  unfold strconv.Atoi.
  destruct ((0 <? len ds) && (len ds <? 19)) eqn:Hfast.
  - destruct (numeral_head ds Hnum) as (d & tl & -> & Hd & _).
    destruct Hnum as (_ & Hds & _).
    rewrite (digit_eqb_false d "-"), (digit_eqb_false d "+")
      by (done || vm_compute; intros [? ?]; done).
    cbn [orb andb]. by rewrite Atoi_fast_loop_digits.
  - apply ParseInt_numeral; [done|].
    unfold MaxStringLength, int64_max in *. lia.
Qed.

(** ** The integer rule and the plus sign *)

Lemma ParseInt_plus_digits (ds : list byte) :
  ds <> [] -> Forall (fun b => is_digit b = true) ds ->
  digits_value ds 0 <= int64_max ->
  strconv.ParseInt ("+"%byte :: ds) = (digits_value ds 0, None).
Proof.
  intros Hne Hds Hmax. pose proof (digits_value_ge ds 0 Hds ltac:(lia)) as H0.
  unfold strconv.ParseInt.
  change (Byte.eqb "+" "-") with false. change (Byte.eqb "+" "+") with true.
  cbn [orb]. cbv zeta.
  unfold strconv.ParseUint. destruct ds as [|d tl]; [done|].
  rewrite ParseUint_loop_digits
    by (done || unfold strconv.maxUint64, int64_max in *; lia).
  cbn [negb andb].
  destruct (_ >=? 2 ^ 63) eqn:E; [|done].
  rewrite Z.geb_leb in E. apply Z.leb_le in E. unfold int64_max in Hmax. lia.
Qed.

(** C5: [parseInteger] reads [i0e] as 0 and [i-42e] as -42, every value
    it accepts is a 64-bit signed integer, and it returns an error for
    every integer whose body (the bytes between [i] and the closing [e])
    is empty, a lone [-], [-0], or has a superfluous leading zero at the
    start or after a minus sign, such as [00], [03] and [-03].  The claim
    fails after a plus sign: the two checks look at the first byte and at
    the byte after [-] only, [strconv.ParseInt] takes the [+], and a body
    [+0] followed by digits is read as their value; [i+03e] gives 3 and
    [i+00e] gives 0. *)
Theorem parseInteger_misses_plus_zero :
  bencode.parseInteger (bytes_of "i0e") = Ok (0, 3) /\
  bencode.parseInteger (bytes_of "i-42e") = Ok (-42, 5) /\
  (forall body rest : list byte,
      "e"%byte ∉ body -> rejected_body body -> ~ plus_signed body ->
      exists e, bencode.parseInteger ("i"%byte :: body ++ "e"%byte :: rest)
                = Err e) /\
  (forall (data : list byte) (num used : Z),
      bencode.parseInteger data = Ok (num, used) -> in_int64 num) /\
  (forall ds rest : list byte,
      ds <> [] -> Forall (fun b => is_digit b = true) ds ->
      digits_value ds 0 <= int64_max ->
      rejected_body (bytes_of "+0" ++ ds) /\
      bencode.parseInteger (bytes_of "i+0" ++ ds ++ "e"%byte :: rest)
      = Ok (digits_value ds 0, len ds + 4)) /\
  bencode.parseInteger (bytes_of "i+03e") = Ok (3, 5) /\
  bencode.parseInteger (bytes_of "i+00e") = Ok (0, 5) /\
  ~ (forall body rest : list byte,
        "e"%byte ∉ body -> rejected_body body ->
        exists e, bencode.parseInteger ("i"%byte :: body ++ "e"%byte :: rest)
                  = Err e).
Proof.
  assert (forall ds rest : list byte,
            ds <> [] -> Forall (fun b => is_digit b = true) ds ->
            digits_value ds 0 <= int64_max ->
            bencode.parseInteger (bytes_of "i+0" ++ ds ++ "e"%byte :: rest)
            = Ok (digits_value ds 0, len ds + 4)) as Hplus.
  { intros ds rest Hne Hds Hmax.
    change (bytes_of "i+0" ++ ds ++ "e"%byte :: rest)
      with ("i"%byte :: (bytes_of "+0" ++ ds) ++ "e"%byte :: rest).
    rewrite parseInteger_framed.
    - unfold body_checks.
      change (bytes_of "+0" ++ ds) with ("+"%byte :: "0"%byte :: ds).
      rewrite !len_cons. pose proof (len_nonneg ds).
      destruct (_ =? 0) eqn:E; [apply Z.eqb_eq in E; lia|].
      change (idx ("+"%byte :: "0"%byte :: ds) 0) with "+"%byte.
      change (Byte.eqb "+" "0") with false. change (Byte.eqb "+" "-") with false.
      cbn [andb].
      rewrite (ParseInt_plus_digits ("0"%byte :: ds));
        [|done|by constructor|].
      + cbn [digits_value]. change (0 * 10 + (b2z "0" - b2z "0")) with 0.
        do 2 f_equal. lia.
      + cbn [digits_value]. by change (0 * 10 + (b2z "0" - b2z "0")) with 0.
    - change (bytes_of "+0" ++ ds) with ("+"%byte :: "0"%byte :: ds).
      intros Hin. apply elem_of_cons in Hin as [Hin|Hin]; [discriminate Hin|].
      apply elem_of_cons in Hin as [Hin|Hin]; [discriminate Hin|].
      revert Hin. apply digits_not_elem; [done|].
      vm_compute. intros [? ?]. done.
    - done. }
  split_and!; [reflexivity|reflexivity| | | |reflexivity|reflexivity|].
  - intros body rest Hnot Hrej Hplus'.
    destruct (decide (body = [])) as [->|Hne].
    { simpl. destruct rest as [|b rest]; [by eexists|].
      unfold bencode.parseInteger.
      rewrite !len_cons. pose proof (len_nonneg rest).
      destruct (_ <? 3); [by eexists|]. simpl. by eexists. }
    rewrite parseInteger_framed by done.
    destruct Hrej as [->|[->|[->|(sign & r & Hsign & -> & Hr)]]];
      [done|by eexists|by eexists|].
    assert (0 < len r)
      by (destruct r; [done|rewrite len_cons; pose proof (len_nonneg r); lia]).
    destruct Hsign as [-> | [-> | ->]].
    + unfold body_checks. cbn [app]. rewrite len_cons.
      destruct (_ =? 0) eqn:E1; [lia|]. simpl.
      destruct (_ >? 1) eqn:E2; [by eexists|lia].
    + change (bytes_of "-" ++ "0"%byte :: r) with ("-"%byte :: "0"%byte :: r).
      unfold body_checks. rewrite !len_cons.
      destruct (_ =? 0) eqn:E1; [lia|]. simpl.
      destruct (_ =? 1) eqn:E2; [lia|].
      destruct (_ =? 2) eqn:E3; by eexists.
    + destruct Hplus'. by eexists.
  - intros data num used. unfold bencode.parseInteger. cbv zeta.
    destruct (_ <? 3); [done|].
    destruct (_ =? -1); [done|].
    destruct (_ <? 1); [done|].
    destruct (len (slice _ _ _) =? 0); [done|].
    destruct (Byte.eqb _ "0" && _); [done|].
    destruct (strconv.ParseInt _) as [n [e|]] eqn:Hp.
    + destruct (Byte.eqb _ "-"); [|done].
      destruct (_ =? 1); [done|].
      destruct (Byte.eqb _ "0"); [|done].
      by destruct (_ =? 2).
    + apply ParseInt_in_int64 in Hp.
      destruct (Byte.eqb _ "-").
      * destruct (_ =? 1); [done|].
        destruct (Byte.eqb _ "0"); [by destruct (_ =? 2)|].
        by intros [= <- _].
      * by intros [= <- _].
  - intros ds rest Hne Hds Hmax. split; [|by apply Hplus].
    right; right; right. exists (bytes_of "+"), ds. split_and!; [tauto|done|done].
  - intros Hall.
    destruct (Hall (bytes_of "+03") []) as [e He].
    + vm_compute. intros H.
      repeat (apply elem_of_cons in H as [H|H]; [discriminate H|]).
      by apply elem_of_nil in H.
    + right; right; right. exists (bytes_of "+"), (bytes_of "3").
      split_and!; [tauto|done|done].
    + discriminate He.
Qed.

Lemma parseInteger_misses_plus_zero_witness :
  rejected_body (bytes_of "+0" ++ bytes_of "3") /\
  bencode.parseInteger (bytes_of "i+0" ++ bytes_of "3" ++ "e"%byte :: [])
  = Ok (3, 5).
Proof.
  apply (proj1 (proj2 (proj2 (proj2 (proj2 parseInteger_misses_plus_zero))))
           (bytes_of "3") []).
  - discriminate.
  - by repeat constructor.
  - vm_compute. discriminate.
Defined.

(** ** Well-formed integers and strings are read as they stand *)

Lemma parseInteger_wf (enc rest : list byte) (v : bvalue) :
  wf_integer enc v ->
  exists z tl, v = BInt z /\ enc = "i"%byte :: tl /\
               parseInteger (enc ++ rest) = Ok (z, len enc).
Proof.
  intros (ds & Hnum & Hcase).
  pose proof (numeral_nonneg ds Hnum) as Hpos.
  destruct (numeral_head ds Hnum) as (d & tl & Hds & Hd & Hzero).
  pose proof Hnum as (Hne & Hall & _).
  assert ("e"%byte ∉ ds) as Hnot_e
    by (apply digits_not_elem; [done|vm_compute; intros [? ?]; done]).
  destruct Hcase as [(-> & -> & Hmax)|(-> & Hnz & -> & Hmin)].
  - exists (digits_value ds 0), (ds ++ ["e"%byte]). split_and!; [done|done|].
    replace (("i"%byte :: ds ++ ["e"%byte]) ++ rest)
      with ("i"%byte :: ds ++ "e"%byte :: rest)
      by (simpl; by rewrite <- app_assoc).
    rewrite parseInteger_framed by done.
    unfold body_checks. rewrite (ParseInt_numeral ds Hnum Hmax).
    subst ds.
    assert (len ("i"%byte :: (d :: tl) ++ ["e"%byte]) = len (d :: tl) + 1 + 1)
      as -> by (rewrite len_cons, len_app, (len_cons _ []), len_nil; lia).
    rewrite (len_cons d tl). pose proof (len_nonneg tl).
    destruct (_ =? 0) eqn:E0; [lia|].
    change (idx (d :: tl) 0) with d.
    rewrite (digit_eqb_false d "-") by (done || vm_compute; intros [? ?]; done).
    destruct (Byte.eqb d "0") eqn:Ez; [|done].
    apply eqb_byte_true in Ez. rewrite (Hzero Ez), len_nil. done.
  - exists (- digits_value ds 0), ("-"%byte :: ds ++ ["e"%byte]).
    split_and!; [done|done|].
    replace (("i"%byte :: "-"%byte :: ds ++ ["e"%byte]) ++ rest)
      with ("i"%byte :: ("-"%byte :: ds) ++ "e"%byte :: rest)
      by (simpl; by rewrite <- app_assoc).
    rewrite parseInteger_framed; [|by apply not_elem_of_cons|done].
    unfold body_checks. rewrite (ParseInt_minus_numeral ds Hnum Hmin).
    subst ds.
    assert (len ("i"%byte :: "-"%byte :: (d :: tl) ++ ["e"%byte])
            = len ("-"%byte :: d :: tl) + 1 + 1)
      as -> by (rewrite !len_cons, len_app, !len_cons, len_nil; lia).
    rewrite (len_cons "-"%byte (d :: tl)), (len_cons d tl).
    pose proof (len_nonneg tl).
    destruct (_ =? 0) eqn:E0; [lia|].
    change (idx ("-"%byte :: d :: tl) 0) with "-"%byte.
    change (idx ("-"%byte :: d :: tl) 1) with d.
    change (Byte.eqb "-" "0") with false.
    change (Byte.eqb "-" "-") with true. cbn [andb].
    destruct (_ =? 1) eqn:E1; [lia|].
    destruct (Byte.eqb d "0") eqn:Ez; [|done].
    apply eqb_byte_true in Ez. specialize (Hzero Ez). by subst.
Qed.

Lemma slice_middle (pre mid post : list byte) (lo hi : Z) :
  lo = len pre -> hi = len pre + len mid ->
  slice (pre ++ mid ++ post) lo hi = mid.
Proof. intros -> ->. apply slice_app_middle. Qed.

Lemma parseString_wf (enc rest s : list byte) :
  wf_string enc s -> parseString (enc ++ rest) = Ok (s, len enc).
Proof.
  intros (ds & Hnum & Hval & Hmax & ->).
  destruct (numeral_head ds Hnum) as (d & tl & Hds & Hd & Hzero).
  pose proof Hnum as (Hne & Hall & _).
  assert (":"%byte ∉ ds) as Hnot
    by (apply digits_not_elem; [done|vm_compute; intros [? ?]; done]).
  pose proof (len_nonneg ds). pose proof (len_nonneg s).
  pose proof (len_nonneg rest).
  assert (0 < len ds) by (subst ds; rewrite len_cons; pose proof (len_nonneg tl); lia).
  unfold parseString.
  rewrite <- app_assoc. cbn [app].
  rewrite IndexByte_first by done.
  destruct (_ <=? 0) eqn:E0; [lia|].
  assert (slice (ds ++ ":"%byte :: s ++ rest) 0 (len ds) = ds) as ->.
  { apply (slice_middle [] ds); [done|rewrite len_nil; lia]. }
  assert (Byte.eqb (idx ds 0) "0" && (len ds >? 1) = false) as ->.
  { subst ds. change (idx (d :: tl) 0) with d.
    destruct (Byte.eqb d "0") eqn:Ez; [|done].
    apply eqb_byte_true in Ez. rewrite (Hzero Ez). done. }
  rewrite (Atoi_numeral ds Hnum) by lia. rewrite Hval.
  assert (len (ds ++ ":"%byte :: s ++ rest) = len ds + 1 + len s + len rest)
    as -> by (rewrite len_app, len_cons, len_app; lia).
  assert (len (ds ++ ":"%byte :: s) = len ds + 1 + len s)
    as -> by (rewrite len_app, len_cons; lia).
  destruct (len s <? 0) eqn:E1; [lia|].
  destruct (len s >? MaxStringLength) eqn:E2; [lia|].
  destruct (len ds + 1 + len s + len rest <? len ds + 1 + len s) eqn:E3;
    [lia|].
  do 2 f_equal.
  change (ds ++ ":"%byte :: s ++ rest) with (ds ++ [":"%byte] ++ s ++ rest).
  rewrite (app_assoc ds).
  apply slice_middle; rewrite len_app, len_cons, len_nil; lia.
Qed.

(** ** Well-formed values are read as they stand *)

Lemma idx_app_at (pre rest : list byte) (c : byte) :
  idx (pre ++ c :: rest) (len pre) = c.
Proof.
  unfold idx, len.
  destruct (Z.of_nat (length pre) <? 0) eqn:E; [apply Z.ltb_lt in E; lia|].
  rewrite Nat2Z.id, app_nth2 by lia.
  by replace (length pre - length pre)%nat with 0%nat by lia.
Qed.

Lemma slice_from_app (pre rest : list byte) :
  slice_from (pre ++ rest) (len pre) = rest.
Proof.
  unfold slice_from, len. rewrite Nat2Z.id. apply drop_app_length.
Qed.

(** No encoding of a value is empty or starts with the end marker. *)
Lemma wf_value_head (room : nat) (enc : list byte) (v : bvalue) :
  wf_value room enc v -> exists c tl, enc = c :: tl /\ c <> "e"%byte.
Proof.
  assert (forall e s, wf_string e s -> exists c tl, e = c :: tl /\ c <> "e"%byte)
    as Hstr.
  { intros e s (ds & Hnum & _ & _ & ->).
    destruct (numeral_head ds Hnum) as (d & tl & -> & Hd & _).
    exists d, (tl ++ ":"%byte :: s). split; [done|].
    apply (is_digit_not d "e" Hd). vm_compute. intros [? ?]; done. }
  destruct room as [|room]; simpl.
  - intros [(ds & _ & [(-> & _)|(-> & _)])|[(s & _ & Hs)|[]]];
      [by eexists _, _..|by eapply Hstr].
  - intros [(ds & _ & [(-> & _)|(-> & _)])|[(s & _ & Hs)|
             [(items & _ & -> & _)|(entries & _ & -> & _)]]];
      [by eexists _, _|by eexists _, _|by eapply Hstr|by eexists _, _..].
Qed.

Section Containers.
Variable room : nat.
Hypothesis parse_elements :
  forall enc v rest d,
    wf_value room enc v ->
    depth d + Z.of_nat room <= MaxDepth ->
    exists d',
      parseValue (S (length (enc ++ rest))) (enc ++ rest) d
      = (Ok (v, len enc), d').

(** An element inside a container, read with the fuel of the
    container. *)
Lemma parse_element (n : nat) (enc rest : list byte) (v : bvalue)
    (d : Decoder) :
  wf_value room enc v ->
  depth d + Z.of_nat room <= MaxDepth ->
  (length (enc ++ rest) < n)%nat ->
  exists d',
    parseValue n (enc ++ rest) d = (Ok (v, len enc), d')
    /\ depth d' = depth d.
Proof.
  intros Hwf Hdep Hn.
  destruct (parse_elements enc v rest d Hwf Hdep) as [d' Hrun].
  rewrite <- (parseValue_enough n) in Hrun by done.
  exists d'. split; [done|].
  by apply parseValue_wb in Hrun as (_ & ? & _).
Qed.

Lemma parseList_loop_wf (n : nat) (items : list (list byte * bvalue)) :
  forall (pre rest : list byte) (result : list bvalue) (d : Decoder)
         (k : nat),
    Forall (fun it => wf_value room it.1 it.2) items ->
    depth d + Z.of_nat room <= MaxDepth ->
    1 <= len pre ->
    (length (pre ++ concat (map fst items) ++ "e"%byte :: rest) <= n)%nat ->
    (length (concat (map fst items)) <= k)%nat ->
    exists d',
      parseList_loop (parseValue n) k
        (pre ++ concat (map fst items) ++ "e"%byte :: rest)
        result (len pre) d
      = (Ok (result ++ map snd items,
             len pre + len (concat (map fst items)) + 1), d').
Proof.
  induction items as [|[enc v] items IH];
    intros pre rest result d k Hall Hdep Hpre Hn Hk.
  - cbn [map concat app] in *. rewrite len_nil, app_nil_r, Z.add_0_r.
    exists d.
    assert (len pre < len (pre ++ "e"%byte :: rest)) as Hlt
      by (rewrite len_app, len_cons; pose proof (len_nonneg rest); lia).
    destruct k; simpl;
      rewrite idx_app_at, eqb_byte_refl; cbn [negb];
      rewrite andb_false_r, orb_false_r;
      (destruct (_ >=? _) eqn:E; [lia|done]).
  - inversion Hall as [|? ? Hwf Hall']; subst. cbn [fst snd] in Hwf.
    cbn [map concat fst snd] in *.
    destruct (wf_value_head _ _ _ Hwf) as (c & tl & -> & Hc).
    set (rest' := concat (map fst items) ++ "e"%byte :: rest) in *.
    assert (pre ++ ((c :: tl) ++ concat (map fst items)) ++ "e"%byte :: rest
            = pre ++ (c :: tl) ++ rest') as Hdata
      by (subst rest'; by rewrite <- !app_assoc).
    rewrite Hdata in *.
    rewrite length_app in Hk. cbn [length] in Hk.
    destruct k as [|k]; [lia|].
    cbn [parseList_loop].
    change (pre ++ (c :: tl) ++ rest') with (pre ++ c :: tl ++ rest') at 2.
    rewrite idx_app_at.
    assert (Byte.eqb c "e" = false) as -> by (by apply eqb_byte_false).
    assert (len pre < len (pre ++ (c :: tl) ++ rest')) as Hlt.
    { rewrite !len_app, len_cons.
      pose proof (len_nonneg tl). pose proof (len_nonneg rest'). lia. }
    destruct (_ <? _) eqn:E; [|lia]. cbn [negb andb].
    rewrite slice_from_app.
    destruct (parse_element n (c :: tl) rest' v d Hwf Hdep)
      as (d1 & -> & Hd1).
    { rewrite length_app in Hn. unfold len in Hpre. lia. }
    destruct (IH (pre ++ c :: tl) rest (result ++ [v]) d1 k Hall')
      as (d' & Hloop); [lia| | |lia|].
    { rewrite len_app. pose proof (len_nonneg (c :: tl)). lia. }
    { subst rest'. by rewrite <- app_assoc. }
    exists d'. subst rest'.
    rewrite <- app_assoc in Hloop. rewrite len_app in Hloop.
    rewrite Hloop. rewrite <- app_assoc. cbn [app].
    change (c :: tl ++ concat (map fst items))
      with ((c :: tl) ++ concat (map fst items)).
    rewrite (len_app (c :: tl)). do 3 f_equal. lia.
Qed.

Lemma parseDict_loop_wf (n : nat) (entries : list entry) :
  forall (pre rest : list byte) (result : gmap string bvalue) (d : Decoder)
         (k : nat),
    Forall (fun e => wf_string (key_enc e) (key e)
                     /\ wf_value room (val_enc e) (val e)) entries ->
    depth d + Z.of_nat room <= MaxDepth ->
    1 <= len pre ->
    (length (pre ++ concat (map (fun e => key_enc e ++ val_enc e) entries)
               ++ "e"%byte :: rest) <= n)%nat ->
    (length (concat (map (fun e => key_enc e ++ val_enc e) entries)) <= k)%nat ->
    exists d',
      parseDict_loop (parseValue n) k
        (pre ++ concat (map (fun e => key_enc e ++ val_enc e) entries)
           ++ "e"%byte :: rest)
        result (len pre) d
      = (Ok (dict_of entries result,
             len pre
             + len (concat (map (fun e => key_enc e ++ val_enc e) entries))
             + 1), d').
Proof.
  induction entries as [|[kenc ky venc vl] entries IH];
    intros pre rest result d k Hall Hdep Hpre Hn Hk.
  - cbn [map concat app dict_of fold_left] in *.
    rewrite len_nil, Z.add_0_r.
    exists d.
    assert (len pre < len (pre ++ "e"%byte :: rest)) as Hlt
      by (rewrite len_app, len_cons; pose proof (len_nonneg rest); lia).
    destruct k; simpl;
      rewrite idx_app_at, eqb_byte_refl; cbn [negb];
      rewrite andb_false_r, orb_false_r;
      (destruct (_ >=? _) eqn:E; [lia|done]).
  - inversion Hall as [|? ? [Hkey Hwf] Hall']; subst.
    cbn [key_enc key val_enc val] in Hkey, Hwf.
    cbn [map concat key_enc key val_enc val] in *.
    destruct (wf_value_head 0 kenc (BStr ky)) as (c & tl & Hkenc & Hc).
    { simpl. right; left. by exists ky. }
    destruct (wf_value_head _ _ _ Hwf) as (c' & tl' & Hvenc & _).
    set (items := concat (map (fun e => key_enc e ++ val_enc e) entries))
      in *.
    set (rest' := items ++ "e"%byte :: rest) in *.
    assert (pre ++ ((kenc ++ venc) ++ items) ++ "e"%byte :: rest
            = pre ++ kenc ++ venc ++ rest') as Hdata
      by (subst rest'; by rewrite <- !app_assoc).
    rewrite Hdata in *.
    pose proof (len_nonneg kenc). pose proof (len_nonneg venc).
    pose proof (len_nonneg rest'). pose proof (len_nonneg tl).
    pose proof (len_nonneg tl').
    assert (0 < len kenc) by (rewrite Hkenc, len_cons; lia).
    assert (0 < len venc) by (rewrite Hvenc, len_cons; lia).
    assert (S (length items) <= k)%nat as Hk'.
    { subst items. rewrite !length_app in Hk. unfold len in *. lia. }
    destruct k as [|k]; [lia|].
    cbn [parseDict_loop].
    assert (idx (pre ++ kenc ++ venc ++ rest') (len pre) = c) as ->.
    { rewrite Hkenc. apply (idx_app_at pre (tl ++ venc ++ rest') c). }
    assert (Byte.eqb c "e" = false) as -> by (by apply eqb_byte_false).
    assert (len (pre ++ kenc ++ venc ++ rest')
            = len pre + len kenc + len venc + len rest') as Hlen
      by (rewrite !len_app; lia).
    rewrite Hlen.
    destruct (len pre <? _) eqn:E; [|lia]. cbn [negb andb].
    rewrite slice_from_app.
    rewrite (parseString_wf kenc (venc ++ rest') ky Hkey).
    destruct (_ >=? _) eqn:E2; [lia|].
    replace (slice_from (pre ++ kenc ++ venc ++ rest') (len pre + len kenc))
      with (venc ++ rest').
    2:{ rewrite (app_assoc pre kenc).
        replace (len pre + len kenc) with (len (pre ++ kenc))
          by (rewrite len_app; lia).
        by rewrite slice_from_app. }
    destruct (parse_element n venc rest' vl d Hwf Hdep)
      as (d1 & -> & Hd1).
    { rewrite !length_app in Hn. rewrite length_app. unfold len in *. lia. }
    match goal with
    | |- context [parseDict_loop _ _ _ _ _ ?dd] => set (d2 := dd)
    end.
    assert (depth d2 = depth d) as Hd2
      by (subst d2; destruct (_ && _); simpl; congruence).
    destruct (IH (pre ++ kenc ++ venc) rest
                (<[string_of ky := vl]> result) d2 k Hall')
      as (d' & Hloop); [lia| | |lia|].
    { rewrite !len_app. lia. }
    { subst rest'. by rewrite <- !app_assoc. }
    exists d'. subst rest'.
    rewrite <- !app_assoc in Hloop. rewrite !len_app in Hloop.
    replace (len pre + len kenc + len venc)
      with (len pre + (len kenc + len venc)) by lia.
    rewrite Hloop. cbn [dict_of fold_left key val].
    match goal with
    | |- (Ok (_, ?a), _) = (Ok (_, ?b), _) =>
        replace b with a by (rewrite ?len_app; lia)
    end.
    done.
Qed.

End Containers.

Lemma parseValue_wf_integer (fuel : nat) (enc rest : list byte) (v : bvalue)
    (d : Decoder) :
  wf_integer enc v ->
  parseValue (S fuel) (enc ++ rest) d = (Ok (v, len enc), d).
Proof.
  intros Hwf.
  destruct (parseInteger_wf enc rest v Hwf) as (z & tl & -> & -> & Hrun).
  cbn [parseValue app] in *.
  change (Byte.eqb "i" "i") with true. cbn iota. by rewrite Hrun.
Qed.

Lemma parseValue_wf_string (fuel : nat) (enc rest s : list byte)
    (d : Decoder) :
  wf_string enc s ->
  parseValue (S fuel) (enc ++ rest) d = (Ok (BStr s, len enc), d).
Proof.
  intros Hwf. pose proof (parseString_wf enc rest s Hwf) as Hrun.
  destruct Hwf as (ds & Hnum & _ & _ & ->).
  destruct (numeral_head ds Hnum) as (c & tl & -> & Hc & _).
  cbn [parseValue app] in *.
  rewrite (digit_eqb_false c "i") by (done || vm_compute; intros [? ?]; done).
  unfold is_digit in Hc. rewrite Hc. by rewrite Hrun.
Qed.

(** The decoder reads a well-formed value, whatever follows it. *)
Lemma wf_value_parse (room : nat) :
  forall (enc : list byte) (v : bvalue) (rest : list byte) (d : Decoder),
    wf_value room enc v ->
    depth d + Z.of_nat room <= MaxDepth ->
    exists d',
      parseValue (S (length (enc ++ rest))) (enc ++ rest) d
      = (Ok (v, len enc), d').
Proof.
  induction room as [|room IH]; intros enc v rest d Hwf Hdep.
  - destruct Hwf as [Hint|[(s & -> & Hstr)|[]]].
    + eexists. by apply parseValue_wf_integer.
    + eexists. by apply parseValue_wf_string.
  - destruct Hwf as [Hint|[(s & -> & Hstr)|[Hlist|Hdict]]].
    + eexists. by apply parseValue_wf_integer.
    + eexists. by apply parseValue_wf_string.
    + destruct Hlist as (items & Hall & -> & ->).
      set (body := concat (map fst items)).
      assert (("l"%byte :: body ++ ["e"%byte]) ++ rest
              = ["l"%byte] ++ body ++ "e"%byte :: rest) as ->
        by (simpl; by rewrite <- app_assoc).
      set (data := ["l"%byte] ++ body ++ "e"%byte :: rest).
      assert (len data = 1 + len body + 1 + len rest) as Hlen
        by (subst data; rewrite !len_app, (len_cons "e"%byte rest);
            change (len [_]) with 1; lia).
      pose proof (len_nonneg body). pose proof (len_nonneg rest).
      assert (parseValue (S (length data)) data d
              = parseList (parseValue (length data)) data d) as -> by done.
      unfold parseList. cbn [depth set_depth].
      destruct (depth d + 1 >? MaxDepth) eqn:E1; [lia|].
      destruct (len data <? 2) eqn:E2; [lia|].
      change (idx data 0) with "l"%byte.
      change (Byte.eqb "l" "l") with true. cbn [negb orb].
      destruct (parseList_loop_wf room IH (length data) items ["l"%byte] rest
                  [] (set_depth d (depth d + 1)) (length data) Hall)
        as (d' & Hloop); [cbn [depth set_depth]; lia|done|done| |].
      { fold body. subst data. rewrite !length_app. lia. }
      fold body data in Hloop. change (len ["l"%byte]) with 1 in Hloop.
      rewrite Hloop. eexists. do 3 f_equal.
      rewrite len_cons, len_app. change (len [_]) with 1. lia.
    + destruct Hdict as (entries & Hall & -> & ->).
      set (body := concat (map (fun e => key_enc e ++ val_enc e) entries)).
      assert (("d"%byte :: body ++ ["e"%byte]) ++ rest
              = ["d"%byte] ++ body ++ "e"%byte :: rest) as ->
        by (simpl; by rewrite <- app_assoc).
      set (data := ["d"%byte] ++ body ++ "e"%byte :: rest).
      assert (len data = 1 + len body + 1 + len rest) as Hlen
        by (subst data; rewrite !len_app, (len_cons "e"%byte rest);
            change (len [_]) with 1; lia).
      pose proof (len_nonneg body). pose proof (len_nonneg rest).
      assert (parseValue (S (length data)) data d
              = parseDict (parseValue (length data)) data d) as -> by done.
      unfold parseDict. cbn [depth set_depth].
      destruct (depth d + 1 >? MaxDepth) eqn:E1; [lia|].
      destruct (len data <? 2) eqn:E2; [lia|].
      change (idx data 0) with "d"%byte.
      change (Byte.eqb "d" "d") with true. cbn [negb orb].
      destruct (parseDict_loop_wf room IH (length data) entries ["d"%byte] rest
                  ∅ (set_depth d (depth d + 1)) (length data) Hall)
        as (d' & Hloop); [cbn [depth set_depth]; lia|done|done| |].
      { fold body. subst data. rewrite !length_app. lia. }
      fold body data in Hloop. change (len ["d"%byte]) with 1 in Hloop.
      rewrite Hloop. eexists. do 3 f_equal.
      rewrite len_cons, len_app. change (len [_]) with 1. lia.
Qed.

(** A well-formed value is an input the decoder reads in full. *)
Lemma well_formed_encodes (enc : list byte) (v : bvalue) :
  well_formed enc v -> encodes enc v.
Proof.
  intros Hwf.
  destruct (wf_value_parse _ enc v [] (NewDecoder enc) Hwf) as [d' Hrun].
  { simpl. unfold MaxDepth. lia. }
  rewrite app_nil_r in Hrun. by exists d'.
Qed.

(** C10: when the input starts with one well-formed value (the grammar
    and the validation rules, within the nesting bound), [Decode]
    returns that value whatever bytes follow it; the bytes after the
    value change neither the result nor the captured slice. *)
Theorem Decode_ignores_trailing (enc rest : list byte) (v : bvalue) :
  well_formed enc v ->
  fst (Decode (NewDecoder (enc ++ rest))) = Ok v /\
  RawInfo (snd (Decode (NewDecoder (enc ++ rest))))
  = RawInfo (snd (Decode (NewDecoder enc))).
Proof.
  intros Hwf. by apply Decode_after_encodes, well_formed_encodes.
Qed.

Lemma wf_value_string (room : nat) (enc s : list byte) :
  wf_string enc s -> wf_value room enc (BStr s).
Proof. intros H. destruct room; right; left; by exists s. Qed.

Lemma wf_value_dict (room : nat) (enc : list byte) (v : bvalue) :
  wf_dict (wf_value room) enc v -> wf_value (S room) enc v.
Proof. intros H. right; right; by right. Qed.

Lemma numeral_3 : numeral (bytes_of "3").
Proof.
  split_and!; [done|by repeat constructor|].
  intros r [= <-].
Qed.

(** The dictionary fixture of the grammar is well-formed. *)
Lemma well_formed_fixture :
  well_formed (bytes_of "d3:foo3:bare")
    (BDict {[ "foo" := BStr (bytes_of "bar") ]}).
Proof.
  unfold well_formed. change (Z.to_nat MaxDepth) with 50%nat.
  apply wf_value_dict.
  exists [ {| key_enc := bytes_of "3:foo"; key := bytes_of "foo";
              val_enc := bytes_of "3:bar"; val := BStr (bytes_of "bar") |} ].
  split_and!; [|reflexivity|by vm_compute].
  constructor; [|constructor]. cbn [key_enc key val_enc val]. split.
  - exists (bytes_of "3"). split_and!; [apply numeral_3|done..].
  - apply wf_value_string.
    exists (bytes_of "3"). split_and!; [apply numeral_3|done..].
Qed.

Lemma Decode_ignores_trailing_witness :
  fst (Decode (NewDecoder (bytes_of "d3:foo3:bare" ++ bytes_of "junk")))
  = Ok (BDict {[ "foo" := BStr (bytes_of "bar") ]}).
Proof.
  apply (Decode_ignores_trailing (bytes_of "d3:foo3:bare") (bytes_of "junk")).
  exact well_formed_fixture.
Defined.

(** The fixtures of the grammar are well-formed values. *)
Example encodes_fixtures :
  encodes (bytes_of "i0e") (BInt 0) /\
  encodes (bytes_of "4:spam") (BStr (bytes_of "spam")) /\
  encodes (bytes_of "le") (BList []) /\
  encodes (bytes_of "de") (BDict ∅) /\
  encodes (bytes_of "d3:foo3:bare") (BDict {[ "foo" := BStr (bytes_of "bar") ]}) /\
  encodes (bytes_of "l4:spami-42eli0eee")
    (BList [BStr (bytes_of "spam"); BInt (-42); BList [BInt 0]]).
Proof. split_and!; eexists; vm_compute; reflexivity. Qed.

(** ** Decoder: the captured info slice *)

Import bencode.

Lemma string_of_inj (a b : list byte) : string_of a = string_of b -> a = b.
Proof.
  unfold string_of. intros H.
  apply (f_equal String.list_byte_of_string) in H.
  by rewrite !String.list_byte_of_string_of_list_byte in H.
Qed.

(** A result does not depend on the fuel it was obtained with. *)
Lemma parseValue_Ok_fuel (fuel : nat) (data : list byte) (d d' : Decoder) x :
  parseValue fuel data d = (Ok x, d') ->
  parseValue (S (length data)) data d = (Ok x, d').
Proof.
  intros H. destruct (decide (length data < fuel)%nat) as [Hlt|Hge].
  - by rewrite <- (parseValue_enough fuel).
  - apply (parseValue_fuel_mono fuel); [lia|done|done].
Qed.

Lemma slice_agree (data : list byte) (lo n : Z) :
  0 <= lo -> 0 <= n ->
  agree n (slice data lo (lo + n)) (slice_from data lo).
Proof.
  intros Hlo Hn. unfold agree, slice, slice_from.
  replace (lo + n - lo) with n by lia.
  rewrite take_take. f_equal. lia.
Qed.

(** A dictionary comes from [parseDict] alone. *)
Lemma parseValue_BDict (fuel : nat) (data : list byte) (d d' : Decoder)
    (m : gmap string bvalue) (n : Z) :
  parseValue (S fuel) data d = (Ok (BDict m, n), d') ->
  parseDict (parseValue fuel) data d = (Ok (BDict m, n), d').
Proof.
  simpl. destruct data as [|c data]; [done|].
  destruct (Byte.eqb c "i").
  { by destruct (parseInteger _) as [[? ?]| | |]. }
  destruct (_ && _).
  { by destruct (parseString _) as [[? ?]| | |]. }
  destruct (Byte.eqb c "l").
  { unfold parseList.
    destruct (_ >? MaxDepth); [done|]. destruct (_ || _); [done|].
    by destruct (parseList_loop _ _ _ _ _ _) as [[[? ?]| | |] ?]. }
  destruct (Byte.eqb c "d"); done.
Qed.

Lemma laid_out_unique (data : list byte) (pairs : list pair_at) :
  forall (pairs' : list pair_at) (pos : Z),
    laid_out data pos pairs -> laid_out data pos pairs' -> pairs = pairs'.
Proof.
  induction pairs as [|p pairs IH]; intros [|p' pairs'] pos; cbn [laid_out].
  - done.
  - intros (_ & He) (_ & Hne & _). done.
  - intros (_ & Hne & _) (_ & He). done.
  - intros (_ & _ & Hk & _ & Hv & Hrest) (_ & _ & Hk' & _ & Hv' & Hrest').
    destruct p as [k s e v], p' as [k' s' e' v'].
    cbn [pair_key val_start val_end pair_val] in *.
    rewrite Hk in Hk'. injection Hk' as <- Hs.
    assert (s' = s) as -> by lia.
    rewrite Hv in Hv'. injection Hv' as <- He.
    assert (e' = e) as -> by lia.
    f_equal. by apply (IH pairs' e).
Qed.

(** A value read in a container is read alike by a decoder one level
    down that has not been used, with fuel for the whole input. *)
Lemma parseValue_at_depth (fuel : nat) (data : list byte) (pos : Z)
    (d d1 : Decoder) (v : bvalue) (n : Z) :
  parseValue fuel (slice_from data pos) d = (Ok (v, n), d1) ->
  fst (parseValue (S (length data)) (slice_from data pos)
         (set_depth (NewDecoder data) (depth d)))
  = Ok (v, n).
Proof.
  intros Hpv.
  destruct (parseValue_det fuel (slice_from data pos) (slice_from data pos)
              d (set_depth (NewDecoder data) (depth d)) v n d1
              eq_refl Hpv (agree_refl _ _)) as (d2 & Hrun & _).
  apply parseValue_Ok_fuel in Hrun.
  rewrite (parseValue_fuel_mono (S (length (slice_from data pos)))
             (S (length data)) ltac:(unfold slice_from; rewrite length_drop; lia)
             _ _ _ _ Hrun ltac:(done)).
  done.
Qed.

Lemma parseDict_loop_layout (fuel n : nat) (data : list byte) :
  forall (result : gmap string bvalue) (pos : Z) (d : Decoder) res k d',
    1 <= pos -> depth d = 1 ->
    parseDict_loop (parseValue fuel) n data result pos d = (Ok (res, k), d') ->
    exists pairs,
      laid_out data pos pairs /\
      res = pairs_dict pairs result /\
      RawInfo d' = info_slice data pairs (RawInfo d).
Proof.
  induction n as [|n IH]; intros result pos d res k d' Hpos Hdep;
    cbn [parseDict_loop].
  - destruct (_ && _) eqn:G; [done|].
    destruct (_ || _) eqn:G2; [done|].
    intros [= <- <- <-]. exists [].
    apply orb_false_iff in G2 as [G2 G3].
    rewrite Z.geb_leb in G2. apply Z.leb_gt in G2.
    apply negb_false_iff in G3. apply eqb_byte_true in G3.
    split; [by split|by split].
  - destruct (_ && _) eqn:G.
    2:{ destruct (_ || _) eqn:G2; [done|].
        intros [= <- <- <-]. exists [].
        apply orb_false_iff in G2 as [G2 G3].
        rewrite Z.geb_leb in G2. apply Z.leb_gt in G2.
        apply negb_false_iff in G3. apply eqb_byte_true in G3.
        split; [by split|by split]. }
    apply andb_true_iff in G as [Hlt%Z.ltb_lt Hne%negb_true_iff].
    apply eqb_byte_false in Hne.
    destruct (parseString _) as [[keyBytes consumedKey]|e| |] eqn:Hkey;
      try done.
    pose proof (parseString_consumed _ _ _ Hkey) as Hck.
    rewrite slice_from_len in Hck by lia.
    destruct (_ >=? _) eqn:G3; [done|]. rewrite Z.geb_leb in G3.
    apply Z.leb_gt in G3.
    destruct (parseValue fuel _ d) as [[[val consumed]|e| |] d1] eqn:Hpv;
      try done.
    destruct (parseValue_wb _ _ _ _ _ Hpv) as (_ & Hdep1 & Hraw1 & _ & Hc).
    specialize (Hc _ _ eq_refl). rewrite slice_from_len in Hc by lia.
    specialize (Hraw1 ltac:(lia)).
    apply parseValue_at_depth in Hpv. rewrite Hdep in Hpv.
    intros Hloop. apply IH in Hloop as (pairs & Hlaid & Hres & Hraw);
      [|lia|by destruct (_ && _); cbn; rewrite ?Hdep1].
    exists ({| pair_key := keyBytes; val_start := pos + consumedKey;
               val_end := pos + consumedKey + consumed; pair_val := val |}
              :: pairs).
    cbn [laid_out pairs_dict info_slice fold_left
           pair_key val_start val_end pair_val].
    split; [|split].
    + split_and!; [done|done| |done| |done].
      * rewrite Hkey. do 2 f_equal. lia.
      * rewrite Hpv. do 2 f_equal. lia.
    + done.
    + rewrite Hraw. unfold info_slice. f_equal.
      rewrite Hdep1, Hdep. change (1 =? 1) with true. rewrite andb_true_r.
      destruct (bool_decide _); [done|]. by rewrite Hraw1.
Qed.

(** What a successful decode of a dictionary has read: the pairs of the
    top level, and the slice of the last [info] among them. *)
Lemma Decode_layout (data : list byte) (m : gmap string bvalue)
    (d' : Decoder) :
  Decode (NewDecoder data) = (Ok (BDict m), d') ->
  exists pairs,
    top_level data pairs /\
    m = pairs_dict pairs ∅ /\
    RawInfo d' = info_slice data pairs [].
Proof.
  unfold Decode. cbn [bencode.data NewDecoder].
  destruct (parseValue _ _ _) as [[[val n]|e| |] d1] eqn:Hrun; try done.
  intros [= -> <-].
  apply parseValue_BDict in Hrun. revert Hrun.
  unfold parseDict. cbn [depth NewDecoder set_depth].
  destruct (_ >? MaxDepth); [done|].
  destruct (_ || _) eqn:G; [done|].
  apply orb_false_iff in G as [_ G]. apply negb_false_iff in G.
  destruct (parseDict_loop _ _ _ _ _ _) as [[[res k]|e| |] d2] eqn:Hloop;
    try done.
  intros [= <- <- <-]. cbn [RawInfo set_depth].
  apply parseDict_loop_layout in Hloop as (pairs & Hlaid & Hres & Hraw);
    [|lia|done].
  exists pairs. split; [split; [|done]|by split].
  by apply eqb_byte_true in G.
Qed.

(** The last pair with the key [info] decides both the value stored
    under [info] and the slice. *)
Lemma pairs_last_info (data : list byte) (pairs : list pair_at)
    (m : gmap string bvalue) (raw : list byte) :
  (pairs_dict pairs m !! "info" = m !! "info" /\
   info_slice data pairs raw = raw) \/
  (exists before p after,
      pairs = before ++ p :: after /\
      string_of (pair_key p) = "info" /\
      Forall (fun q => string_of (pair_key q) <> "info") after /\
      pairs_dict pairs m !! "info" = Some (pair_val p) /\
      info_slice data pairs raw = slice data (val_start p) (val_end p)).
Proof.
  induction pairs as [|q pairs IH] using rev_ind; [by left|].
  unfold pairs_dict, info_slice in *. rewrite !fold_left_app.
  cbn [fold_left].
  destruct (decide (string_of (pair_key q) = "info")) as [Hq|Hq].
  - right. exists pairs, q, [].
    rewrite bool_decide_eq_true_2 by done. rewrite Hq.
    split_and!; [done|done|done|apply lookup_insert_eq|done].
  - rewrite bool_decide_eq_false_2 by done.
    rewrite lookup_insert_ne by done.
    destruct IH as [IH|(before & p & after & -> & Hp & Hafter & Hm & Hraw)];
      [by left|right].
    exists before, p, (after ++ [q]).
    split_and!; [by rewrite <- app_assoc|done| |done|done].
    apply Forall_app. split; [done|by constructor].
Qed.

(** Every value of a layout lies inside the input, after its key. *)
Lemma laid_out_bounds (data : list byte) (before : list pair_at)
    (p : pair_at) (after : list pair_at) :
  forall pos,
    1 <= pos -> laid_out data pos (before ++ p :: after) ->
    pos < val_start p < val_end p /\ val_end p <= len data.
Proof.
  assert (forall pos q rest,
             1 <= pos -> laid_out data pos (q :: rest) ->
             pos < val_start q < val_end q /\ val_end q <= len data)
    as Hone.
  { intros pos q rest Hpos (Hlt & _ & Hk & Hs & Hv & _).
    apply parseString_consumed in Hk.
    destruct (parseValue _ _ _) as [r d1] eqn:Hpv. cbn [fst] in Hv. subst r.
    apply parseValue_wb in Hpv as (_ & _ & _ & _ & Hc).
    specialize (Hc _ _ eq_refl). rewrite slice_from_len in Hc by lia. lia. }
  induction before as [|q before IH]; intros pos Hpos Hlaid.
  - by apply (Hone pos p after).
  - cbn [app] in Hlaid. pose proof (Hone pos q _ Hpos Hlaid) as Hq.
    destruct Hlaid as (_ & _ & _ & _ & _ & Hrest).
    apply IH in Hrest; lia.
Qed.

(** After a successful decode of a top-level dictionary with the key
    [info], [RawInfo] is the byte range of the value of the last
    top-level pair with that key. *)
Lemma Decode_captured (data : list byte) (m : gmap string bvalue)
    (v : bvalue) (d' : Decoder) :
  Decode (NewDecoder data) = (Ok (BDict m), d') ->
  m !! "info" = Some v ->
  exists before p after,
    top_level data (before ++ p :: after) /\
    string_of (pair_key p) = "info" /\
    Forall (fun q => string_of (pair_key q) <> "info") after /\
    pair_val p = v /\
    1 < val_start p < val_end p /\ val_end p <= len data /\
    RawInfo d' = slice data (val_start p) (val_end p).
Proof.
  intros Hdec Hv.
  apply Decode_layout in Hdec as (pairs & Htop & -> & Hraw).
  destruct (pairs_last_info data pairs ∅ [])
    as [[Hm _]|(before & p & after & -> & Hp & Hafter & Hm & Hsl)].
  { rewrite Hm, lookup_empty in Hv. done. }
  rewrite Hm in Hv. injection Hv as <-.
  exists before, p, after.
  pose proof (laid_out_bounds data before p after 1 ltac:(lia) (proj2 Htop)).
  split_and!; [done|done|done|done|lia|lia|lia|by rewrite Hraw].
Qed.

(** ** Decoder: the info slice of a well-formed dictionary *)

Lemma wf_string_head (enc s : list byte) :
  wf_string enc s -> exists c tl, enc = c :: tl /\ c <> "e"%byte.
Proof.
  intros Hs. apply (wf_value_head 0 enc (BStr s)).
  cbn [wf_value]. right; left. by exists s.
Qed.

Lemma laid_out_entries (entries : list entry) :
  forall pre rest : list byte,
    Forall (fun e => wf_string (key_enc e) (key e)
                     /\ wf_value 49 (val_enc e) (val e)) entries ->
    laid_out
      (pre ++ concat (map (fun e => key_enc e ++ val_enc e) entries)
         ++ "e"%byte :: rest)
      (len pre) (entries_layout entries (len pre)).
Proof.
  induction entries as [|[kenc ky venc vl] entries IH];
    intros pre rest Hall.
  - cbn [map concat app entries_layout laid_out].
    rewrite idx_app_at. split; [|done].
    rewrite len_app, len_cons. pose proof (len_nonneg rest). lia.
  - inversion Hall as [|? ? [Hkey Hwf] Hall']; subst.
    cbn [key_enc key val_enc val] in Hkey, Hwf.
    cbn [map concat key_enc key val_enc val entries_layout laid_out
           pair_key val_start val_end pair_val].
    destruct (wf_string_head kenc ky Hkey) as (c & tl & Hkenc & Hc).
    destruct (wf_value_head _ _ _ Hwf) as (c' & tl' & Hvenc & _).
    set (items := concat (map (fun e => key_enc e ++ val_enc e) entries))
      in *.
    set (rest' := items ++ "e"%byte :: rest) in *.
    assert (pre ++ ((kenc ++ venc) ++ items) ++ "e"%byte :: rest
            = pre ++ kenc ++ venc ++ rest') as Hdata
      by (subst rest'; by rewrite <- !app_assoc).
    rewrite Hdata.
    set (data := pre ++ kenc ++ venc ++ rest') in *.
    pose proof (len_nonneg kenc). pose proof (len_nonneg venc).
    pose proof (len_nonneg rest'). pose proof (len_nonneg tl).
    pose proof (len_nonneg tl'). pose proof (len_nonneg pre).
    assert (0 < len kenc) by (rewrite Hkenc, len_cons; lia).
    assert (0 < len venc) by (rewrite Hvenc, len_cons; lia).
    assert (len data = len pre + len kenc + len venc + len rest') as Hlen
      by (subst data; rewrite !len_app; lia).
    assert (slice_from data (len pre + len kenc) = venc ++ rest') as Hval.
    { subst data. rewrite (app_assoc pre kenc).
      replace (len pre + len kenc) with (len (pre ++ kenc))
        by (rewrite len_app; lia).
      by rewrite slice_from_app. }
    split_and!.
    + lia.
    + assert (idx data (len pre) = c) as ->; [|done].
      subst data. rewrite Hkenc. apply (idx_app_at pre (tl ++ venc ++ rest') c).
    + subst data. rewrite slice_from_app.
      rewrite (parseString_wf kenc (venc ++ rest') ky Hkey).
      do 2 f_equal. lia.
    + lia.
    + rewrite Hval.
      destruct (wf_value_parse 49 venc vl rest'
                  (set_depth (NewDecoder data) 1) Hwf) as (d1 & Hrun).
      { cbn [depth set_depth]. unfold MaxDepth. lia. }
      rewrite (parseValue_fuel_mono (S (length (venc ++ rest')))
                 (S (length data))
                 ltac:(subst data; rewrite !length_app; lia)
                 _ _ _ _ Hrun ltac:(done)).
      cbn [fst]. do 2 f_equal. lia.
    + specialize (IH (pre ++ kenc ++ venc) rest Hall').
      fold items in IH.
      replace ((pre ++ kenc ++ venc) ++ items ++ "e"%byte :: rest)
        with data in IH by (subst data rest'; by rewrite <- !app_assoc).
      replace (len (pre ++ kenc ++ venc))
        with (len pre + len kenc + len venc) in IH
        by (rewrite !len_app; lia).
      exact IH.
Qed.

Lemma entries_layout_app (es1 es2 : list entry) :
  forall pos,
    entries_layout (es1 ++ es2) pos
    = entries_layout es1 pos
        ++ entries_layout es2
             (pos + len (concat (map (fun e => key_enc e ++ val_enc e) es1))).
Proof.
  induction es1 as [|e es1 IH]; intros pos.
  - cbn [app entries_layout map concat]. rewrite len_nil. f_equal. lia.
  - cbn [app entries_layout map concat]. rewrite IH. do 3 f_equal.
    rewrite !len_app. lia.
Qed.

Lemma info_slice_other (data : list byte) (es : list entry) :
  forall pos raw,
    Forall (fun e => key e <> bytes_of "info") es ->
    info_slice data (entries_layout es pos) raw = raw.
Proof.
  induction es as [|e es IH]; intros pos raw Hall; [done|].
  inversion Hall as [|? ? He Hall']; subst.
  cbn [entries_layout]. unfold info_slice in *. cbn [fold_left pair_key].
  rewrite bool_decide_eq_false_2.
  - by apply IH.
  - intros Hk. apply He. by apply string_of_inj.
Qed.

(** In the encoding of a dictionary whose pairs are well formed,
    [RawInfo] is the encoding of the value of the last pair with the
    key [info], and that is where it lies in the input. *)
Lemma Decode_dict_enc_info (es1 es2 : list entry) (e : entry)
    (rest : list byte) :
  let data := dict_enc (es1 ++ e :: es2) ++ rest in
  let start :=
    1 + len (concat (map (fun e => key_enc e ++ val_enc e) es1))
    + len (key_enc e) in
  Forall (fun e => wf_string (key_enc e) (key e)
                   /\ wf_value 49 (val_enc e) (val e)) (es1 ++ e :: es2) ->
  key e = bytes_of "info" ->
  Forall (fun e' => key e' <> bytes_of "info") es2 ->
  fst (Decode (NewDecoder data)) = Ok (BDict (dict_of (es1 ++ e :: es2) ∅)) /\
  RawInfo (snd (Decode (NewDecoder data))) = val_enc e /\
  slice data start (start + len (val_enc e)) = val_enc e.
Proof.
  intros data start Hwf Hkey Hlast.
  assert (fst (Decode (NewDecoder data))
          = Ok (BDict (dict_of (es1 ++ e :: es2) ∅))) as Hdec.
  { apply (Decode_after_encodes (dict_enc (es1 ++ e :: es2)) rest).
    apply well_formed_encodes. unfold well_formed.
    change (Z.to_nat MaxDepth) with 50%nat. apply wf_value_dict.
    by exists (es1 ++ e :: es2). }
  set (body1 := concat (map (fun e => key_enc e ++ val_enc e) es1)) in *.
  set (body2 := concat (map (fun e => key_enc e ++ val_enc e) es2)).
  assert (data = (("d"%byte :: body1) ++ key_enc e) ++ val_enc e
                   ++ (body2 ++ "e"%byte :: rest)) as Hdata.
  { subst data body1 body2. unfold dict_enc.
    rewrite map_app, concat_app. cbn [map concat app].
    by rewrite <- !app_assoc. }
  assert (slice data start (start + len (val_enc e)) = val_enc e) as Hslice.
  { rewrite Hdata. apply slice_middle; subst start;
      rewrite len_app, len_cons; lia. }
  split; [done|]. split; [|done].
  destruct (Decode (NewDecoder data)) as [r d'] eqn:Hrun.
  cbn [fst snd] in *. subst r.
  apply Decode_layout in Hrun as (pairs & [_ Hlaid] & _ & ->).
  pose proof (laid_out_entries (es1 ++ e :: es2) ["d"%byte] rest Hwf)
    as Hlaid'.
  change (["d"%byte] ++ ?l) with ("d"%byte :: l) in Hlaid'.
  change (len ["d"%byte]) with 1 in Hlaid'.
  assert (data = "d"%byte :: concat (map (fun e => key_enc e ++ val_enc e)
                                       (es1 ++ e :: es2))
                   ++ "e"%byte :: rest) as Hdata'.
  { subst data. unfold dict_enc. cbn [app]. by rewrite <- app_assoc. }
  rewrite <- Hdata' in Hlaid'.
  rewrite (laid_out_unique data pairs _ 1 Hlaid Hlaid').
  rewrite entries_layout_app. cbn [entries_layout].
  unfold info_slice. rewrite fold_left_app. cbn [fold_left pair_key].
  rewrite bool_decide_eq_true_2 by (by rewrite Hkey).
  fold body1.
  cbn [val_start val_end].
  replace (1 + len body1 + len (key_enc e)) with start by (subst start; lia).
  rewrite Hslice.
  apply (info_slice_other data es2 _ (val_enc e) Hlast).
Qed.

(** C1, as amended: when the top-level value of the input is a
    dictionary, what decoding leaves in [RawInfo] is decided by the
    pairs of that dictionary as they lie in the input, and by nothing
    further down: the pairs are those that follow the opening [d] one
    after the other up to its closing [e], there is one way only to read
    them, and [RawInfo] is the byte range of the value of the last of
    them with the key [info], which is the value the dictionary holds
    under [info].  For a dictionary written as well-formed pairs this
    range is the encoding of that value, at the offset where it was
    written.  An [info] key one level further down leaves the slice as
    it is.  For the fixture
    [d8:announce3:url4:infod4:name1:ae5:extra1:xe] the captured slice is
    [d4:name1:ae], bytes 22 to 32 of the input, which is 11 bytes
    long. *)
Theorem Decode_captures_info :
  (forall (data : list byte) (m : gmap string bvalue) (d' : Decoder),
      Decode (NewDecoder data) = (Ok (BDict m), d') ->
      exists pairs,
        top_level data pairs /\
        (forall pairs', top_level data pairs' -> pairs' = pairs) /\
        m = pairs_dict pairs ∅ /\
        RawInfo d' = info_slice data pairs []) /\
  (forall (data : list byte) (m : gmap string bvalue) (v : bvalue)
          (d' : Decoder),
      Decode (NewDecoder data) = (Ok (BDict m), d') ->
      m !! "info" = Some v ->
      exists before p after,
        top_level data (before ++ p :: after) /\
        string_of (pair_key p) = "info" /\
        Forall (fun q => string_of (pair_key q) <> "info") after /\
        pair_val p = v /\
        1 < val_start p < val_end p /\ val_end p <= len data /\
        RawInfo d' = slice data (val_start p) (val_end p)) /\
  (forall (es1 es2 : list entry) (e : entry) (rest : list byte),
      let data := dict_enc (es1 ++ e :: es2) ++ rest in
      let start :=
        1 + len (concat (map (fun e => key_enc e ++ val_enc e) es1))
        + len (key_enc e) in
      Forall (fun e => wf_string (key_enc e) (key e)
                       /\ wf_value 49 (val_enc e) (val e))
        (es1 ++ e :: es2) ->
      key e = bytes_of "info" ->
      Forall (fun e' => key e' <> bytes_of "info") es2 ->
      fst (Decode (NewDecoder data))
      = Ok (BDict (dict_of (es1 ++ e :: es2) ∅)) /\
      RawInfo (snd (Decode (NewDecoder data))) = val_enc e /\
      slice data start (start + len (val_enc e)) = val_enc e) /\
  RawInfo (snd (Decode (NewDecoder nested_info_fixture)))
    = bytes_of "d1:ai1e1:bi2ee" /\
  RawInfo (snd (Decode (NewDecoder metainfo_fixture)))
    = bytes_of "d4:name1:ae" /\
  RawInfo (snd (Decode (NewDecoder metainfo_fixture)))
    = slice metainfo_fixture 22 33 /\
  len (RawInfo (snd (Decode (NewDecoder metainfo_fixture)))) = 11.
Proof.
  split_and!; [| | |by vm_compute..].
  - intros data m d' Hdec.
    apply Decode_layout in Hdec as (pairs & Htop & Hm & Hraw).
    exists pairs. split; [done|]. split; [|by split].
    intros pairs' [_ Hlaid].
    apply (laid_out_unique data pairs' pairs 1 Hlaid (proj2 Htop)).
  - exact Decode_captured.
  - intros es1 es2 e rest. apply Decode_dict_enc_info.
Qed.

Lemma Decode_captures_info_witness :
  exists before p after,
    top_level metainfo_fixture (before ++ p :: after) /\
    string_of (pair_key p) = "info" /\
    Forall (fun q => string_of (pair_key q) <> "info") after /\
    pair_val p = BDict {[ "name" := BStr (bytes_of "a") ]} /\
    1 < val_start p < val_end p /\ val_end p <= len metainfo_fixture /\
    bytes_of "d4:name1:ae"
    = slice metainfo_fixture (val_start p) (val_end p).
Proof.
  apply (proj1 (proj2 Decode_captures_info) metainfo_fixture
           {[ "announce" := BStr (bytes_of "url");
              "info" := BDict {[ "name" := BStr (bytes_of "a") ]};
              "extra" := BStr (bytes_of "x") ]}
           (BDict {[ "name" := BStr (bytes_of "a") ]})
           {| data := metainfo_fixture; depth := 0;
              RawInfo := bytes_of "d4:name1:ae" |}).
  - vm_compute. reflexivity.
  - vm_compute. reflexivity.
Defined.

(** C1 as stated fails on the length it gives for the fixture's slice. *)
Lemma RawInfo_fixture_not_10_bytes :
  ~ (RawInfo (snd (Decode (NewDecoder metainfo_fixture)))
       = bytes_of "d4:name1:ae"
     /\ len (RawInfo (snd (Decode (NewDecoder metainfo_fixture)))) = 10).
Proof. vm_compute. intros [_ H]. discriminate H. Qed.

(** The info-hash [Open] returns is the digest of the captured slice:
    the bytes of the value of the last top-level [info] pair. *)
Lemma Open_infoHash (sha1_Sum : list byte -> list byte)
    (ReadFile : string -> option (list byte)) (path : string)
    (t : torrent.Torrent) (infoHash : list byte) :
  torrent.Open sha1_Sum ReadFile path = Ok (t, infoHash) ->
  exists data m v d' before p after,
    ReadFile path = Some data /\
    Decode (NewDecoder data) = (Ok (BDict m), d') /\
    m !! "info" = Some v /\
    top_level data (before ++ p :: after) /\
    string_of (pair_key p) = "info" /\
    Forall (fun q => string_of (pair_key q) <> "info") after /\
    pair_val p = v /\
    infoHash = sha1_Sum (slice data (val_start p) (val_end p)).
Proof.
  unfold torrent.Open. intros H.
  destruct (ReadFile path) as [data|]; [|done].
  destruct (Decode _) as [[[| | |m]|e| |] d'] eqn:Hdec; try done.
  destruct (m !! "info") as [v|] eqn:Hinfo; [|done].
  destruct (Decode_captured data m v d' Hdec Hinfo)
    as (before & p & after & Htop & Hp & Hafter & Hv & _ & _ & Hraw).
  exists data, m, v, d', before, p, after.
  split_and!; [done|done|done|done|done|done|done|].
  rewrite <- Hraw. repeat case_match; by simplify_eq.
Qed.

(** ** Bytes and big-endian words *)

Lemma b2z_z2b (z : Z) : b2z (z2b z) = z mod 256.
Proof.
  unfold b2z, z2b, wrap8.
  pose proof (Z.mod_pos_bound z 256 ltac:(lia)) as H.
  destruct (Byte.of_N (Z.to_N (z mod 256))) as [b|] eqn:E.
  - apply Byte.to_of_N in E. simpl. rewrite E. lia.
  - apply Byte.of_N_None_iff in E. lia.
Qed.

Lemma z2b_b2z (b : byte) : z2b (b2z b) = b.
Proof.
  unfold z2b, b2z, wrap8. pose proof (Byte.to_N_bounded b).
  rewrite Z.mod_small by lia. rewrite N2Z.id, Byte.of_to_N. done.
Qed.

Lemma z2b_mod (z : Z) : z2b (z mod 256) = z2b z.
Proof. unfold z2b, wrap8. by rewrite Z.mod_mod. Qed.

Lemma b2z_inj (a b : byte) : b2z a = b2z b -> a = b.
Proof. intros H. rewrite <- (z2b_b2z a), <- (z2b_b2z b). by rewrite H. Qed.

(** Bit [n] of the byte of [v] that starts at bit [k], put back in place. *)
Lemma testbit_byte_at (v k n : Z) :
  0 <= k -> 0 <= n ->
  Z.testbit (Z.shiftl (Z.shiftr v k mod 256) k) n
  = (k <=? n) && (n <? k + 8) && Z.testbit v n.
Proof.
  intros Hk Hn. rewrite Z.shiftl_spec by lia.
  destruct (k <=? n) eqn:E1; simpl.
  - apply Z.leb_le in E1. change 256 with (2 ^ 8).
    destruct (n <? k + 8) eqn:E2; simpl.
    + apply Z.ltb_lt in E2. rewrite Z.mod_pow2_bits_low by lia.
      rewrite Z.shiftr_spec by lia. f_equal. lia.
    + apply Z.ltb_ge in E2. by rewrite Z.mod_pow2_bits_high by lia.
  - apply Z.leb_gt in E1. by rewrite Z.testbit_neg_r by lia.
Qed.

Lemma testbit_low_byte (v n : Z) :
  0 <= n -> Z.testbit (v mod 256) n = (n <? 8) && Z.testbit v n.
Proof.
  intros Hn. change 256 with (2 ^ 8).
  destruct (n <? 8) eqn:E; simpl.
  - apply Z.ltb_lt in E. by rewrite Z.mod_pow2_bits_low by lia.
  - apply Z.ltb_ge in E. by rewrite Z.mod_pow2_bits_high by lia.
Qed.

Lemma testbit_above (v k n : Z) :
  0 <= v < 2 ^ k -> k <= n -> Z.testbit v n = false.
Proof.
  intros Hv Hn. rewrite <- (Z.mod_small v (2 ^ k)) by exact Hv.
  apply Z.mod_pow2_bits_high. split; [|exact Hn].
  destruct (decide (0 <= k)); [done|].
  rewrite Z.pow_neg_r in Hv by lia. lia.
Qed.

Lemma Uint32_be32 (v : Z) : 0 <= v < 2 ^ 32 -> p2p.Uint32 (p2p.be32 v) = v.
Proof.
  intros Hv. unfold p2p.Uint32, p2p.be32.
  change (idx [?a; ?b; ?c; ?d] 0) with a.
  change (idx [?a; ?b; ?c; ?d] 1) with b.
  change (idx [?a; ?b; ?c; ?d] 2) with c.
  change (idx [?a; ?b; ?c; ?d] 3) with d.
  rewrite !b2z_z2b.
  apply Z.bits_inj'. intros n Hn.
  rewrite !Z.lor_spec, !testbit_byte_at, testbit_low_byte by lia.
  destruct (Z.testbit v n) eqn:Hb.
  - assert (n < 32) by (destruct (decide (n < 32)); [done|];
      rewrite (testbit_above v 32 n) in Hb by lia; done).
    destruct (decide (n < 8)); [|destruct (decide (n < 16));
      [|destruct (decide (n < 24))]];
    repeat match goal with
    | |- context [?a <=? ?b] => 
        first [rewrite (proj2 (Z.leb_le a b)) by lia
              |rewrite (proj2 (Z.leb_gt a b)) by lia]
    | |- context [?a <? ?b] => 
        first [rewrite (proj2 (Z.ltb_lt a b)) by lia
              |rewrite (proj2 (Z.ltb_ge a b)) by lia]
    end; done.
  - by rewrite !andb_false_r.
Qed.

Lemma lor_add (a b k : Z) :
  0 <= k -> a mod 2 ^ k = 0 -> 0 <= b < 2 ^ k -> Z.lor a b = a + b.
Proof.
  intros Hk Ha Hb.
  assert (Z.land a b = 0) as Hland.
  { apply Z.bits_inj'. intros n Hn. rewrite Z.land_spec, Z.bits_0.
    destruct (decide (n < k)).
    - rewrite <- (Z.mod_pow2_bits_low a k n) by lia. by rewrite Ha, Z.bits_0.
    - rewrite (testbit_above b k n) by lia. by rewrite andb_false_r. }
  rewrite Z.add_nocarry_lxor by done. by rewrite Z.lxor_lor.
Qed.

(** The value [binary.BigEndian.Uint32] reads, as a sum. *)
Lemma Uint32_sum (b0 b1 b2 b3 : byte) :
  p2p.Uint32 [b0; b1; b2; b3]
  = b2z b0 * 2 ^ 24 + b2z b1 * 2 ^ 16 + b2z b2 * 2 ^ 8 + b2z b3.
Proof.
  unfold p2p.Uint32.
  change (idx [?a; ?b; ?c; ?d] 0) with a.
  change (idx [?a; ?b; ?c; ?d] 1) with b.
  change (idx [?a; ?b; ?c; ?d] 2) with c.
  change (idx [?a; ?b; ?c; ?d] 3) with d.
  pose proof (b2z_range b0). pose proof (b2z_range b1).
  pose proof (b2z_range b2). pose proof (b2z_range b3).
  rewrite !Z.shiftl_mul_pow2 by lia.
  assert (forall a b k p : Z, 0 <= k -> p = 2 ^ k -> a mod p = 0 ->
            0 <= b < p -> Z.lor a b = a + b) as Hlor.
  { intros a b k p Hk -> Ha Hb. by apply (lor_add a b k). }
  change (2 ^ 24) with 16777216. change (2 ^ 16) with 65536.
  change (2 ^ 8) with 256.
  rewrite (Hlor (b2z b0 * 16777216) (b2z b1 * 65536) 24 16777216);
    [|lia|done|Z.div_mod_to_equations; lia|lia].
  rewrite (Hlor (_ + _) (b2z b2 * 256) 16 65536);
    [|lia|done|Z.div_mod_to_equations; lia|lia].
  rewrite (Hlor _ _ 8 256); [|lia|done|Z.div_mod_to_equations; lia|lia].
  done.
Qed.

Lemma be32_Uint32 (b0 b1 b2 b3 : byte) :
  p2p.be32 (p2p.Uint32 [b0; b1; b2; b3]) = [b0; b1; b2; b3].
Proof.
  rewrite Uint32_sum. unfold p2p.be32.
  pose proof (b2z_range b0). pose proof (b2z_range b1).
  pose proof (b2z_range b2). pose proof (b2z_range b3).
  rewrite !Z.shiftr_div_pow2 by lia.
  repeat f_equal; apply b2z_inj; rewrite b2z_z2b;
    change (2 ^ 24) with 16777216; change (2 ^ 16) with 65536;
    change (2 ^ 8) with 256; Z.div_mod_to_equations; lia.
Qed.

(** ** [copy] *)

Lemma copy_at_fits (dst : list byte) (off : Z) (src : list byte) :
  0 <= off -> off + len src <= len dst ->
  copy_at dst off src
  = (take (Z.to_nat off) dst ++ src ++ drop (Z.to_nat off + length src) dst,
     len src).
Proof.
  intros Hoff Hfit. unfold copy_at, len in *.
  rewrite Z.min_r by lia. rewrite Nat2Z.id, firstn_all.
  replace (Z.to_nat (off + Z.of_nat (length src)))
    with (Z.to_nat off + length src)%nat by lia.
  done.
Qed.

Lemma copy_at_app (pre mid post src : list byte) :
  length mid = length src ->
  copy_at (pre ++ mid ++ post) (len pre) src = (pre ++ src ++ post, len src).
Proof.
  intros Hm. rewrite copy_at_fits.
  - unfold len. rewrite Nat2Z.id, take_app_length.
    by rewrite <- Hm, drop_app_add', drop_app_length.
  - apply len_nonneg.
  - rewrite !len_app. unfold len. pose proof (len_nonneg post). unfold len in *. lia.
Qed.

Lemma make_bytes_add (n m : Z) :
  0 <= n -> 0 <= m -> make_bytes (n + m) = make_bytes n ++ make_bytes m.
Proof.
  intros Hn Hm. unfold make_bytes. by rewrite Z2Nat.inj_add, replicate_add.
Qed.

Lemma len_make_bytes (n : Z) : 0 <= n -> len (make_bytes n) = n.
Proof. intros Hn. unfold len, make_bytes. rewrite length_replicate. lia. Qed.

(** ** Messages on the wire *)

(** What [Serialize] produces for a message whose length fits 32 bits:
    the length prefix, the ID, the payload. *)
Lemma Message_Serialize_bytes (m : p2p.Message) :
  len (p2p.Payload m) + 5 < 2 ^ 32 ->
  p2p.Message_Serialize (Some m)
  = Some (p2p.be32 (len (p2p.Payload m) + 1)
            ++ z2b (p2p.ID m) :: p2p.Payload m).
Proof.
  intros Hlen. pose proof (len_nonneg (p2p.Payload m)) as Hp.
  unfold p2p.Message_Serialize, p2p.wrap32.
  rewrite (Z.mod_small (len _ + 1)) by lia.
  rewrite Z.mod_small by lia.
  replace (4 + (len (p2p.Payload m) + 1))
    with (4 + (1 + len (p2p.Payload m))) by lia.
  rewrite !make_bytes_add by lia.
  rewrite !len_app, !len_make_bytes by lia.
  destruct (_ <? 5) eqn:E; [apply Z.ltb_lt in E; lia|].
  unfold p2p.PutUint32.
  change (copy_at ?d 0 ?s) with (copy_at ([] ++ d) (len (@nil byte)) s).
  rewrite copy_at_app by done.
  unfold p2p.be32 at 1. cbn [fst app].
  change (make_bytes 1) with ["000"%byte]. cbn [app].
  change (<[4%nat:=?x]> (?a :: ?b :: ?c :: ?d :: ?e :: ?l))
    with (a :: b :: c :: d :: x :: l).
  rewrite copy_at_fits; [|lia|].
  - change (Z.to_nat 5) with 5%nat. cbn [take fst Nat.add drop].
    rewrite drop_ge; [by rewrite app_nil_r|].
    pose proof (len_make_bytes (len (p2p.Payload m)) Hp). unfold len in *. lia.
  - rewrite !len_cons, len_make_bytes by lia. lia.
Qed.

Lemma ReadFull_app (c : net.Conn) (bs rest : list byte) :
  net.inbox c = bs ++ rest ->
  net.ReadFull c (len bs)
  = Some (bs, {| net.inbox := rest; net.outbox := net.outbox c;
                 net.writable := net.writable c |}).
Proof.
  intros Hin. unfold net.ReadFull. rewrite Hin, len_app.
  pose proof (len_nonneg rest).
  destruct (_ <=? _) eqn:E; [|apply Z.leb_gt in E; lia].
  unfold len. by rewrite Nat2Z.id, take_app_length, drop_app_length.
Qed.

Lemma Read_Serialize_bytes (m : p2p.Message) (c : net.Conn)
    (rest : list byte) :
  0 <= p2p.ID m < 256 ->
  len (p2p.Payload m) + 5 < 2 ^ 32 ->
  net.inbox c = (p2p.be32 (len (p2p.Payload m) + 1)
                   ++ z2b (p2p.ID m) :: p2p.Payload m) ++ rest ->
  p2p.Read c
  = (p2p.ReadMsg m, {| net.inbox := rest; net.outbox := net.outbox c;
                       net.writable := net.writable c |}).
Proof.
  intros Hid Hlen Hin. pose proof (len_nonneg (p2p.Payload m)) as Hp.
  unfold p2p.Read. rewrite <- app_assoc in Hin.
  change 4 with (len (p2p.be32 (len (p2p.Payload m) + 1))) at 1.
  rewrite (ReadFull_app _ _ _ Hin).
  rewrite Uint32_be32 by lia.
  destruct (_ =? 0) eqn:E; [apply Z.eqb_eq in E; lia|].
  replace (len (p2p.Payload m) + 1)
    with (len (z2b (p2p.ID m) :: p2p.Payload m)) by (rewrite len_cons; lia).
  erewrite ReadFull_app; [|reflexivity].
  cbn [net.outbox net.writable]. f_equal.
  change (idx (?a :: ?l) 0) with a. rewrite b2z_z2b, Z.mod_small by lia.
  unfold slice_from. change (Z.to_nat 1) with 1%nat. cbn [drop].
  by destruct m.
Qed.

Lemma FormatRequest_Payload (index begin length : Z) :
  p2p.Payload (p2p.FormatRequest index begin length)
  = p2p.be32 (p2p.wrap32 index) ++ p2p.be32 (p2p.wrap32 begin)
      ++ p2p.be32 (p2p.wrap32 length).
Proof.
  unfold p2p.FormatRequest, p2p.PutUint32. cbn [p2p.Payload].
  change (make_bytes 12) with ([] ++ make_bytes 4 ++ make_bytes 8).
  change 0 with (len (@nil byte)). rewrite copy_at_app by done.
  cbn [fst app].
  change (make_bytes 8) with (make_bytes 4 ++ make_bytes 4).
  change 4 with (len (p2p.be32 (p2p.wrap32 index))) at 1.
  rewrite copy_at_app by done. cbn [fst].
  change 8 with (len (p2p.be32 (p2p.wrap32 index)
                        ++ p2p.be32 (p2p.wrap32 begin))) at 1.
  rewrite (app_assoc (p2p.be32 _) (p2p.be32 _) (make_bytes 4)).
  rewrite <- (app_nil_r (make_bytes 4)).
  rewrite copy_at_app by done. cbn [fst].
  by rewrite app_nil_r, <- app_assoc.
Qed.

(** X1: a message whose ID is a byte and whose length fits the 32-bit
    prefix is serialized to [len(payload) + 5] bytes, and [Read] on a
    stream that starts with these bytes returns the same message and
    leaves exactly the bytes that follow. *)
Theorem Read_after_Serialize (m : p2p.Message) :
  0 <= p2p.ID m < 256 ->
  len (p2p.Payload m) + 5 < 2 ^ 32 ->
  exists bytes,
    p2p.Message_Serialize (Some m) = Some bytes /\
    len bytes = len (p2p.Payload m) + 5 /\
    forall (c : net.Conn) (rest : list byte),
      net.inbox c = bytes ++ rest ->
      p2p.Read c
      = (p2p.ReadMsg m, {| net.inbox := rest; net.outbox := net.outbox c;
                           net.writable := net.writable c |}).
Proof.
  intros Hid Hlen. eexists. split; [by apply Message_Serialize_bytes|].
  split.
  - rewrite len_app, len_cons. change (len (p2p.be32 _)) with 4. lia.
  - intros c rest Hin. by apply Read_Serialize_bytes.
Qed.

Lemma Read_after_Serialize_witness :
  exists bytes,
    p2p.Message_Serialize
      (Some {| p2p.ID := p2p.MsgPiece; p2p.Payload := bytes_of "abcdefghij" |})
    = Some bytes /\
    len bytes = 15 /\
    forall (c : net.Conn) (rest : list byte),
      net.inbox c = bytes ++ rest ->
      p2p.Read c
      = (p2p.ReadMsg {| p2p.ID := p2p.MsgPiece;
                        p2p.Payload := bytes_of "abcdefghij" |},
         {| net.inbox := rest; net.outbox := net.outbox c;
            net.writable := net.writable c |}).
Proof.
  apply (Read_after_Serialize
           {| p2p.ID := p2p.MsgPiece; p2p.Payload := bytes_of "abcdefghij" |});
    vm_compute; split; congruence.
Defined.

(** What [Read] takes from the stream, case by case. *)
Lemma Read_wire (c : net.Conn) :
  match p2p.Read c with
  | (p2p.ReadErr, _) =>
      len (net.inbox c) < 4 \/
      len (net.inbox c) < 4 + p2p.Uint32 (take 4 (net.inbox c))
  | (p2p.ReadNil, c') =>
      net.inbox c = make_bytes 4 ++ net.inbox c' /\
      net.outbox c' = net.outbox c /\ net.writable c' = net.writable c
  | (p2p.ReadMsg m, c') =>
      net.inbox c = p2p.be32 (len (p2p.Payload m) + 1)
                      ++ z2b (p2p.ID m) :: p2p.Payload m ++ net.inbox c' /\
      0 <= p2p.ID m < 256 /\
      net.outbox c' = net.outbox c /\ net.writable c' = net.writable c
  end.
Proof.
  unfold p2p.Read, net.ReadFull.
  destruct (4 <=? _) eqn:E4; [apply Z.leb_le in E4|apply Z.leb_gt in E4; by left].
  cbn [net.inbox net.outbox net.writable].
  destruct (net.inbox c) as [|b0 [|b1 [|b2 [|b3 tl]]]] eqn:Hin;
    try (rewrite ?len_cons, ?len_nil in E4; pose proof (len_nonneg (@nil byte));
         unfold len in E4; simpl in E4; lia).
  change (Z.to_nat 4) with 4%nat. cbn [take drop].
  rewrite take_0, drop_0.
  pose proof (Uint32_range [b0; b1; b2; b3]) as Hu.
  destruct (_ =? 0) eqn:E0.
  - apply Z.eqb_eq in E0. cbn [net.inbox net.outbox net.writable].
    split; [|done]. rewrite Uint32_sum in E0.
    pose proof (b2z_range b0). pose proof (b2z_range b1).
    pose proof (b2z_range b2). pose proof (b2z_range b3).
    change (2 ^ 24) with 16777216 in E0. change (2 ^ 16) with 65536 in E0.
    change (2 ^ 8) with 256 in E0.
    assert (b0 = "000"%byte) as -> by (apply b2z_inj; change (b2z "000") with 0; lia).
    assert (b1 = "000"%byte) as -> by (apply b2z_inj; change (b2z "000") with 0; lia).
    assert (b2 = "000"%byte) as -> by (apply b2z_inj; change (b2z "000") with 0; lia).
    assert (b3 = "000"%byte) as -> by (apply b2z_inj; change (b2z "000") with 0; lia).
    done.
  - apply Z.eqb_neq in E0.
    destruct (_ <=? _) eqn:En.
    + apply Z.leb_le in En. cbn [net.inbox] in En.
      cbn [net.inbox net.outbox net.writable p2p.Payload p2p.ID].
      destruct (take (Z.to_nat _) tl) as [|id payload] eqn:Ht.
      { apply (f_equal length) in Ht. rewrite length_take in Ht.
        cbn [length] in Ht. unfold len in En. lia. }
      change (idx (id :: payload) 0) with id.
      unfold slice_from. change (Z.to_nat 1) with 1%nat. cbn [drop].
      rewrite drop_0. pose proof (b2z_range id).
      split_and!; [|lia|lia|done|done].
      rewrite z2b_b2z.
      assert (len payload + 1 = p2p.Uint32 [b0; b1; b2; b3]) as ->.
      { apply (f_equal length) in Ht. rewrite length_take in Ht.
        cbn [length] in Ht. unfold len in *. lia. }
      rewrite be32_Uint32. cbn [app]. do 4 f_equal.
      rewrite app_comm_cons, <- Ht. by rewrite take_drop.
    + apply Z.leb_gt in En. right.
      rewrite !len_cons in *. cbn [net.inbox] in En. lia.
Qed.

(** X2: whatever [Read] returns was on the wire and nothing more was
    consumed.  A keep-alive is four zero bytes; a message is its 4-byte
    big-endian length (payload length plus one), its ID byte and its
    payload; an error means that fewer than four bytes, or fewer bytes
    than the prefix announces, were left.  The written side of the
    connection is never touched. *)
Theorem Read_consumed (c : net.Conn) :
  match p2p.Read c with
  | (p2p.ReadErr, _) =>
      len (net.inbox c) < 4 \/
      len (net.inbox c) < 4 + p2p.Uint32 (take 4 (net.inbox c))
  | (p2p.ReadNil, c') =>
      net.inbox c = make_bytes 4 ++ net.inbox c' /\
      net.outbox c' = net.outbox c /\ net.writable c' = net.writable c
  | (p2p.ReadMsg m, c') =>
      net.inbox c = p2p.be32 (len (p2p.Payload m) + 1)
                      ++ z2b (p2p.ID m) :: p2p.Payload m ++ net.inbox c' /\
      0 <= p2p.ID m < 256 /\
      net.outbox c' = net.outbox c /\ net.writable c' = net.writable c
  end.
Proof. apply Read_wire. Qed.

Lemma FormatRequest_bytes (index begin length : Z) :
  p2p.Message_Serialize (Some (p2p.FormatRequest index begin length))
  = Some (request_bytes index begin length).
Proof.
  rewrite Message_Serialize_bytes; rewrite FormatRequest_Payload; [done|].
  vm_compute. done.
Qed.

(** X3: a REQUEST built by [FormatRequest] is 17 bytes on the wire: the
    prefix 13, the ID 6 and the index, the offset and the length as
    big-endian 32-bit words; each field is read back by
    [binary.BigEndian.Uint32] as the argument's low 32 bits. *)
Theorem FormatRequest_wire (index begin length : Z) :
  let req := p2p.FormatRequest index begin length in
  p2p.Message_Serialize (Some req)
  = Some (p2p.be32 13 ++ [z2b p2p.MsgRequest] ++ p2p.be32 (p2p.wrap32 index)
            ++ p2p.be32 (p2p.wrap32 begin) ++ p2p.be32 (p2p.wrap32 length)) /\
  p2p.Uint32 (slice (p2p.Payload req) 0 4) = p2p.wrap32 index /\
  p2p.Uint32 (slice (p2p.Payload req) 4 8) = p2p.wrap32 begin /\
  p2p.Uint32 (slice (p2p.Payload req) 8 12) = p2p.wrap32 length.
Proof.
  intros req. subst req.
  assert (forall v, 0 <= p2p.wrap32 v < 2 ^ 32) as Hw
    by (intros v; apply Z.mod_pos_bound; lia).
  split; [apply FormatRequest_bytes|].
  - rewrite FormatRequest_Payload.
    split_and!.
    + change (slice ?l 0 4) with (take 4 l).
      change (take 4 (p2p.be32 ?a ++ ?r)) with (p2p.be32 a).
      by apply Uint32_be32.
    + change (slice (p2p.be32 ?a ++ p2p.be32 ?b ++ ?r) 4 8) with (p2p.be32 b).
      by apply Uint32_be32.
    + change (slice (p2p.be32 ?a ++ p2p.be32 ?b ++ p2p.be32 ?c) 8 12)
        with (p2p.be32 c).
      by apply Uint32_be32.
Qed.

(** ** Handshake: reading *)

Lemma Unserialize_read (r : net.Conn) (buf rest : list byte) :
  net.inbox r = buf ++ rest -> length buf = 68%nat ->
  let n := b2z (idx buf 0) in
  let r' := {| net.inbox := rest; net.outbox := net.outbox r;
               net.writable := net.writable r |} in
  p2p.Unserialize r
  = if n =? 0 then (Err p2p.ErrPstrlenZero, r')
    else if 40 <=? n then (Panic, r')
    else (Ok {| p2p.Pstr := slice buf 1 (n + 1);
                p2p.InfoHash := slice buf (n + 9) (n + 29);
                p2p.PeerID :=
                  take 20 (slice_from buf (n + 29) ++ make_bytes 20) |}, r').
Proof.
  intros Hin Hlen n r'. unfold p2p.Unserialize.
  assert (len buf = 68) as Hl by (unfold len; lia).
  rewrite <- Hl at 1. rewrite (ReadFull_app _ _ _ Hin). fold n. fold r'.
  pose proof (b2z_range (idx buf 0)) as Hn. fold n in Hn.
  destruct (n =? 0) eqn:E0; [done|]. apply Z.eqb_neq in E0.
  rewrite Hl.
  destruct (n + 1 >? 68) eqn:E1.
  { rewrite Z.gtb_ltb in E1. apply Z.ltb_lt in E1.
    destruct (40 <=? n) eqn:E; [done|]. apply Z.leb_gt in E. lia. }
  rewrite Z.gtb_ltb in E1. apply Z.ltb_ge in E1.
  destruct (n + 1 + 8 + 20 >? 68) eqn:E2.
  { rewrite Z.gtb_ltb in E2. apply Z.ltb_lt in E2.
    destruct (40 <=? n) eqn:E; [done|]. apply Z.leb_gt in E. lia. }
  rewrite Z.gtb_ltb in E2. apply Z.ltb_ge in E2.
  destruct (40 <=? n) eqn:E; [apply Z.leb_le in E; lia|].
  do 2 f_equal.
  replace (n + 1 + 8) with (n + 9) by lia.
  replace (n + 9 + 20) with (n + 29) by lia.
  f_equal.
  - assert (len (slice buf (n + 9) (n + 29)) = 20) as Hs
      by (rewrite slice_length; lia).
    rewrite <- Hs at 1. apply copy_at_whole.
  - unfold copy_at. cbn [fst]. change (Z.to_nat 0) with 0%nat.
    rewrite take_0, app_nil_l, Z.sub_0_r, Z.add_0_l.
    rewrite len_make_bytes by lia.
    set (src := slice_from buf (n + 29)).
    pose proof (len_nonneg src) as Hsrc.
    destruct (decide (20 <= len src)).
    + rewrite Z.min_l by lia. change (Z.to_nat 20) with 20%nat.
      rewrite drop_ge by (unfold make_bytes; rewrite length_replicate; lia).
      rewrite app_nil_r. rewrite take_app_le by (unfold len in *; lia). done.
    + rewrite Z.min_r by lia. unfold len. rewrite Nat2Z.id, firstn_all.
      rewrite take_app_ge by (unfold len in *; lia). f_equal.
      unfold make_bytes. rewrite take_replicate, drop_replicate.
      f_equal. unfold len in *. lia.
Qed.

(** X4: [Unserialize] takes 68 bytes whatever the length byte says.  A
    stream shorter than 68 bytes is an error, and so is a length byte of
    zero; a length byte of 40 or more makes a slice bound exceed the
    buffer and the call panics; for a length byte [n] between 1 and 39
    the protocol string is the [n] bytes that follow, the info-hash the
    20 bytes from offset [n + 9], and the peer id what is left from
    offset [n + 29], cut or zero-filled to 20 bytes.  The reserved bytes
    are skipped unread. *)
Theorem Unserialize_cases (r : net.Conn) :
  (len (net.inbox r) < 68 ->
   p2p.Unserialize r = (Err p2p.ErrReadFull, r)) /\
  (forall buf rest : list byte,
     net.inbox r = buf ++ rest -> length buf = 68%nat ->
     let n := b2z (idx buf 0) in
     let r' := {| net.inbox := rest; net.outbox := net.outbox r;
                  net.writable := net.writable r |} in
     (n = 0 -> p2p.Unserialize r = (Err p2p.ErrPstrlenZero, r')) /\
     (40 <= n -> p2p.Unserialize r = (Panic, r')) /\
     (1 <= n <= 39 ->
      p2p.Unserialize r
      = (Ok {| p2p.Pstr := slice buf 1 (n + 1);
               p2p.InfoHash := slice buf (n + 9) (n + 29);
               p2p.PeerID :=
                 take 20 (slice_from buf (n + 29) ++ make_bytes 20) |},
         r'))).
Proof.
  split.
  - intros Hshort. unfold p2p.Unserialize, net.ReadFull.
    destruct (68 <=? _) eqn:E; [apply Z.leb_le in E; lia|done].
  - intros buf rest Hin Hlen n r'.
    pose proof (Unserialize_read r buf rest Hin Hlen) as H.
    cbv zeta in H. fold n in H. fold r' in H.
    split_and!; intros Hn; rewrite H.
    + by rewrite (proj2 (Z.eqb_eq n 0)).
    + rewrite (proj2 (Z.eqb_neq n 0)) by lia.
      by rewrite (proj2 (Z.leb_le 40 n)).
    + rewrite (proj2 (Z.eqb_neq n 0)) by lia.
      by rewrite (proj2 (Z.leb_gt 40 n)) by lia.
Qed.

Lemma Unserialize_cases_witness :
  let r := {| net.inbox := "("%byte :: replicate 70 "x"%byte;
              net.outbox := []; net.writable := 1 |} in
  p2p.Unserialize r
  = (Panic, {| net.inbox := replicate 3 "x"%byte;
               net.outbox := []; net.writable := 1 |}).
Proof.
  intros r.
  apply (proj2 (Unserialize_cases r) ("("%byte :: replicate 67 "x"%byte)
           (replicate 3 "x"%byte)); [reflexivity|reflexivity|].
  vm_compute. congruence.
Defined.

(** What [Serialize] produces for a protocol string of at most 19
    bytes. *)
Lemma Handshake_Serialize_bytes (h : p2p.Handshake) :
  len (p2p.Pstr h) <= 19 ->
  len (p2p.InfoHash h) = 20 -> len (p2p.PeerID h) = 20 ->
  p2p.Handshake_Serialize h
  = [z2b (len (p2p.Pstr h))] ++ p2p.Pstr h ++ make_bytes 8
      ++ p2p.InfoHash h ++ p2p.PeerID h
      ++ make_bytes (19 - len (p2p.Pstr h)).
Proof.
  destruct h as [pstr ih pid]. cbn [p2p.Pstr p2p.InfoHash p2p.PeerID].
  intros Hp Hi Hd. pose proof (len_nonneg pstr) as Hp0.
  unfold p2p.Handshake_Serialize. cbn [p2p.Pstr p2p.InfoHash p2p.PeerID].
  set (n := len pstr) in *.
  replace 68 with (1 + (n + (8 + (20 + (20 + (19 - n)))))) by lia.
  rewrite !make_bytes_add by lia.
  change (make_bytes 1) with ["000"%byte].
  change (<[0%nat:=?x]> ([?a] ++ ?l)) with ([x] ++ l).
  cbv zeta.
  change 1 with (len [z2b n]) at 1.
  rewrite copy_at_app
    by (unfold make_bytes; rewrite length_replicate; unfold n, len; lia).
  fold n. cbv beta iota.
  assert (forall a b c : list byte, a ++ b ++ c = (a ++ b) ++ c) as Hassoc
    by (intros; by rewrite app_assoc).
  replace (1 + n) with (len ([z2b n] ++ pstr))
    by (rewrite len_app; done).
  rewrite (Hassoc [z2b n] pstr).
  rewrite copy_at_app by done. cbv beta iota.
  replace (len ([z2b n] ++ pstr) + len (make_bytes 8))
    with (len (([z2b n] ++ pstr) ++ make_bytes 8))
    by (by rewrite !len_app).
  rewrite (Hassoc ([z2b n] ++ pstr) (make_bytes 8)).
  rewrite copy_at_app
    by (unfold make_bytes; rewrite length_replicate; unfold len in Hi; lia).
  cbv beta iota.
  replace (len (([z2b n] ++ pstr) ++ make_bytes 8) + len ih)
    with (len ((([z2b n] ++ pstr) ++ make_bytes 8) ++ ih))
    by (by rewrite !len_app).
  rewrite (Hassoc (([z2b n] ++ pstr) ++ make_bytes 8) ih).
  rewrite copy_at_app
    by (unfold make_bytes; rewrite length_replicate; unfold len in Hd; lia).
  by rewrite <- !app_assoc.
Qed.

(** X5: a handshake whose protocol string has between 1 and 19 bytes
    (the client's has 19) survives the wire: [Unserialize] on a stream
    that starts with [Serialize(h)] returns [h] and leaves the bytes
    that follow. *)
Theorem Unserialize_after_Serialize (h : p2p.Handshake) (r : net.Conn)
    (rest : list byte) :
  1 <= len (p2p.Pstr h) <= 19 ->
  len (p2p.InfoHash h) = 20 -> len (p2p.PeerID h) = 20 ->
  net.inbox r = p2p.Handshake_Serialize h ++ rest ->
  p2p.Unserialize r
  = (Ok h, {| net.inbox := rest; net.outbox := net.outbox r;
              net.writable := net.writable r |}).
Proof.
  intros Hp Hi Hd Hin.
  rewrite Handshake_Serialize_bytes in Hin by lia.
  destruct h as [pstr ih pid]. cbn [p2p.Pstr p2p.InfoHash p2p.PeerID] in *.
  set (n := len pstr) in *.
  set (buf := [z2b n] ++ pstr ++ make_bytes 8 ++ ih ++ pid
                ++ make_bytes (19 - n)) in *.
  assert (length buf = 68%nat) as Hlen.
  { apply Nat2Z.inj. change (len buf = 68). unfold buf.
    rewrite !len_app, !len_make_bytes by lia.
    change (len [z2b n]) with 1. fold n. lia. }
  rewrite (Unserialize_read r buf rest Hin Hlen). cbv zeta.
  assert (b2z (idx buf 0) = n) as ->.
  { unfold buf. cbn [app]. change (idx (?a :: ?l) 0) with a.
    rewrite b2z_z2b. apply Z.mod_small. lia. }
  rewrite (proj2 (Z.eqb_neq n 0)) by lia.
  rewrite (proj2 (Z.leb_gt 40 n)) by lia.
  do 3 f_equal.
  - unfold buf. apply slice_middle; [done|].
    change (len [z2b n]) with 1. fold n. lia.
  - unfold buf.
    rewrite (app_assoc [z2b n]), (app_assoc _ (make_bytes 8)).
    apply slice_middle; rewrite !len_app, len_make_bytes by lia;
      change (len [z2b n]) with 1; fold n; lia.
  - unfold buf.
    rewrite (app_assoc [z2b n]), (app_assoc _ (make_bytes 8)),
      (app_assoc _ ih).
    replace (n + 29)
      with (len ((([z2b n] ++ pstr) ++ make_bytes 8) ++ ih))
      by (rewrite !len_app, len_make_bytes by lia;
          change (len [z2b n]) with 1; fold n; lia).
    rewrite slice_from_app, <- app_assoc.
    rewrite take_app_length' by (unfold len in Hd; lia). done.
Qed.

Lemma Unserialize_after_Serialize_witness :
  let h := p2p.NewHandshake (bytes_of "aaaaaaaaaaaaaaaaaaaa")
             (bytes_of "-BT0001-bbbbbbbbbbbb") in
  p2p.Unserialize
    {| net.inbox := p2p.Handshake_Serialize h ++ bytes_of "more";
       net.outbox := []; net.writable := 0 |}
  = (Ok h, {| net.inbox := bytes_of "more"; net.outbox := [];
              net.writable := 0 |}).
Proof.
  intros h.
  apply (Unserialize_after_Serialize h
           {| net.inbox := p2p.Handshake_Serialize h ++ bytes_of "more";
              net.outbox := []; net.writable := 0 |} (bytes_of "more"));
    [vm_compute; split; congruence|reflexivity|reflexivity|reflexivity].
Defined.

(** ** Worker: the greeting *)

(** X6: once connected, [startWorker] sends its 68-byte handshake and
    reads 68 bytes back.  For a reply whose length byte [n] is between 1
    and 39 the only thing examined is the 20 bytes at offset [n + 9]: if
    they differ from the info-hash the worker returns having sent the
    handshake and nothing else (no INTERESTED); if they are equal it
    sends INTERESTED, the five bytes 0 0 0 1 2, and enters the work
    loop.  Neither the protocol string nor the reserved bytes nor the
    peer id of the reply are looked at. *)
Theorem startWorker_greet_info_hash (c : net.Conn)
    (infoHash peerID buf rest : list byte) :
  len infoHash = 20 -> len peerID = 20 ->
  (2 <= net.writable c)%nat ->
  net.inbox c = buf ++ rest -> length buf = 68%nat ->
  1 <= b2z (idx buf 0) <= 39 ->
  let n := b2z (idx buf 0) in
  let sent := p2p.Handshake_Serialize (p2p.NewHandshake infoHash peerID) in
  let after bytes k :=
    {| net.inbox := rest; net.outbox := net.outbox c ++ bytes;
       net.writable := (net.writable c - k)%nat |} in
  torrent.startWorker_greet c infoHash peerID
  = if bool_decide (slice buf (n + 9) (n + 29) = infoHash)
    then torrent.Ready
           (after (sent ++ ["000"; "000"; "000"; "001"; "002"]%byte) 2%nat)
    else torrent.Stopped (after sent 1%nat).
Proof.
  intros Hi Hd Hw Hin Hlen Hn n sent after.
  unfold torrent.startWorker_greet.
  change {| p2p.Pstr := bytes_of "BitTorrent protocol";
            p2p.InfoHash := infoHash; p2p.PeerID := peerID |}
    with (p2p.NewHandshake infoHash peerID).
  fold sent. unfold net.Write at 1.
  destruct (net.writable c) as [|[|k]] eqn:Ew; [lia|lia|].
  erewrite Unserialize_read; [|exact Hin|exact Hlen].
  cbv zeta. fold n.
  rewrite (proj2 (Z.eqb_neq n 0)) by lia.
  rewrite (proj2 (Z.leb_gt 40 n)) by lia.
  cbn [p2p.InfoHash net.outbox net.writable]. unfold bytes_Equal.
  destruct (bool_decide _) eqn:E; cbn [negb].
  - change (p2p.Message_Serialize _)
      with (Some ["000"; "000"; "000"; "001"; "002"]%byte).
    unfold net.Write. cbn [net.writable net.inbox net.outbox].
    unfold after. rewrite <- app_assoc. do 2 f_equal. lia.
  - unfold after. do 2 f_equal; try lia.
Qed.

Lemma startWorker_greet_info_hash_witness :
  let h := bytes_of "aaaaaaaaaaaaaaaaaaaa" in
  let p := bytes_of "-BT0001-bbbbbbbbbbbb" in
  let reply :=
    p2p.Handshake_Serialize
      (p2p.NewHandshake (bytes_of "cccccccccccccccccccc")
         (bytes_of "-XX0001-dddddddddddd")) in
  torrent.startWorker_greet
    {| net.inbox := reply; net.outbox := []; net.writable := 5 |} h p
  = torrent.Stopped
      {| net.inbox := [];
         net.outbox := p2p.Handshake_Serialize (p2p.NewHandshake h p);
         net.writable := 4 |}.
Proof.
  intros h p reply.
  apply (startWorker_greet_info_hash
           {| net.inbox := reply; net.outbox := []; net.writable := 5 |}
           h p reply []);
    [reflexivity|reflexivity|cbn; lia|by rewrite app_nil_r|reflexivity
    |vm_compute; split; congruence].
Defined.

(** ** Compact peer lists *)

Lemma idx_slice (s : list byte) (lo hi k : Z) :
  0 <= lo -> 0 <= k < hi - lo -> hi <= len s ->
  idx (slice s lo hi) k = idx s (lo + k).
Proof.
  intros Hlo Hk Hhi. unfold idx, slice.
  destruct (k <? 0) eqn:E1; [apply Z.ltb_lt in E1; lia|].
  destruct (lo + k <? 0) eqn:E2; [apply Z.ltb_lt in E2; lia|].
  rewrite !nth_lookup. f_equal.
  rewrite lookup_take_lt by lia. rewrite lookup_drop. f_equal. lia.
Qed.

Lemma Uint16_sum (b0 b1 : byte) :
  torrent.Uint16 [b0; b1] = b2z b0 * 256 + b2z b1.
Proof.
  unfold torrent.Uint16.
  change (idx [?a; ?b] 0) with a. change (idx [?a; ?b] 1) with b.
  pose proof (b2z_range b0). pose proof (b2z_range b1).
  rewrite Z.shiftl_mul_pow2 by lia. rewrite Z.lor_comm.
  change (2 ^ 8) with 256.
  apply (lor_add _ _ 8); [lia|change (2 ^ 8) with 256|change (2 ^ 8) with 256; lia].
  apply Z.mod_mul. lia.
Qed.

Lemma Uint16_slice (s : list byte) (o : Z) :
  0 <= o -> o + 2 <= len s ->
  torrent.Uint16 (slice s o (o + 2))
  = b2z (idx s o) * 256 + b2z (idx s (o + 1)).
Proof.
  intros Ho Hs.
  assert (slice s o (o + 2) = [idx s o; idx s (o + 1)]) as ->.
  { pose proof (slice_length s o (o + 2) ltac:(lia) Hs) as Hl.
    pose proof (idx_slice s o (o + 2) 0 ltac:(lia) ltac:(lia) Hs) as H0.
    pose proof (idx_slice s o (o + 2) 1 ltac:(lia) ltac:(lia) Hs) as H1.
    rewrite Z.add_0_r in H0.
    destruct (slice s o (o + 2)) as [|a [|b [|c l]]];
      rewrite ?len_cons, ?len_nil in Hl; try lia;
      try (pose proof (len_nonneg l); lia).
    change (idx [a; b] 0) with a in H0. change (idx [a; b] 1) with b in H1.
    by rewrite H0, H1. }
  apply Uint16_sum.
Qed.

Lemma parsePeers_loop_spec (peerBinary : list byte) (k : nat) :
  forall (i : Z) (peers : list torrent.Peer),
    0 <= i -> (Z.to_nat i + k = length peers)%nat ->
    6 * len peers <= len peerBinary ->
    let out := torrent.parsePeers_loop peerBinary k i peers in
    length out = length peers /\
    forall j : nat,
      out !! j
      = if decide (Z.to_nat i <= j < length peers)%nat
        then Some (compact_peer peerBinary (Z.of_nat j))
        else peers !! j.
Proof.
  induction k as [|k IH]; intros i peers Hi Hk Hlen; cbn [torrent.parsePeers_loop].
  - split; [done|]. intros j. destruct (decide _); [lia|done].
  - cbv zeta.
    set (p := {| torrent.Peer_IP := _ |}).
    specialize (IH (i + 1) (<[Z.to_nat i:=p]> peers) ltac:(lia)).
    rewrite length_insert in IH. specialize (IH ltac:(lia)).
    unfold len in IH at 1. rewrite length_insert in IH.
    specialize (IH Hlen). cbv zeta in IH. destruct IH as [IHl IHj].
    split; [done|]. intros j. rewrite IHj.
    destruct (decide (Z.to_nat (i + 1) <= j < length peers)%nat).
    + destruct (decide _); [done|lia].
    + destruct (decide (Z.to_nat i <= j < length peers)%nat).
      * assert (j = Z.to_nat i) as -> by lia.
        rewrite list_lookup_insert_eq by lia. f_equal.
        unfold p, compact_peer, torrent.peerSize. rewrite Z2Nat.id by lia.
        unfold len in Hlen.
        replace (i * 6) with (6 * i) by lia. f_equal.
        replace (6 * i + 6) with (6 * i + 4 + 2) by lia.
        rewrite Uint16_slice by (unfold len; lia).
        by replace (6 * i + 4 + 1) with (6 * i + 5) by lia.
      * rewrite list_lookup_insert_ne by lia. done.
Qed.

(** X7: [parsePeers] rejects a compact peer list whose length is not a
    multiple of six; otherwise it returns one peer for each group of six
    bytes, in order: the first four bytes of the group are the address,
    the last two the port, high byte first. *)
Theorem parsePeers_groups (peerBinary : list byte) :
  (len peerBinary mod 6 <> 0 ->
   torrent.parsePeers peerBinary = Err torrent.ErrMalformedPeers) /\
  (len peerBinary mod 6 = 0 ->
   exists peers,
     torrent.parsePeers peerBinary = Ok peers /\
     len peers = len peerBinary / 6 /\
     forall i : Z, 0 <= i < len peerBinary / 6 ->
       peers !! Z.to_nat i = Some (compact_peer peerBinary i)).
Proof.
  pose proof (len_nonneg peerBinary) as Hn.
  unfold torrent.parsePeers, torrent.peerSize.
  rewrite Z.rem_mod_nonneg, Z.quot_div_nonneg by lia.
  split; intros Hm.
  - by rewrite (proj2 (Z.eqb_neq _ 0)).
  - rewrite (proj2 (Z.eqb_eq _ 0)) by done. cbn [negb].
    eexists. split; [reflexivity|].
    set (N := len peerBinary / 6).
    assert (0 <= N /\ 6 * N <= len peerBinary) as [HN0 HN]
      by (unfold N; Z.div_mod_to_equations; lia).
    pose proof (parsePeers_loop_spec peerBinary (Z.to_nat N) 0
                  (replicate (Z.to_nat N)
                     {| torrent.Peer_IP := []; torrent.Peer_Port := 0 |})
                  ltac:(lia)) as H.
    rewrite length_replicate in H. specialize (H ltac:(lia)).
    unfold len in H at 1. rewrite length_replicate in H.
    specialize (H ltac:(lia)). cbv zeta in H. destruct H as [Hl Hj].
    split; [unfold len; lia|].
    intros i Hi. rewrite Hj. destruct (decide _); [|lia].
    by rewrite Z2Nat.id by lia.
Qed.

Lemma parsePeers_groups_witness :
  exists peers,
    torrent.parsePeers (bytes_of "abcd12efgh34") = Ok peers /\
    len peers = 2 /\
    forall i : Z, 0 <= i < 2 ->
      peers !! Z.to_nat i
      = Some (compact_peer (bytes_of "abcd12efgh34") i).
Proof.
  apply (proj2 (parsePeers_groups (bytes_of "abcd12efgh34"))). reflexivity.
Defined.

(** ** Tracker response *)

Lemma RequestPeers_decoded (http_Get : string -> option (Z * option (list byte)))
    (trackerURL : string) (enc rest : list byte) (v : bencode.bvalue) :
  http_Get trackerURL = Some (200, Some (enc ++ rest)) ->
  well_formed enc v ->
  torrent.RequestPeers http_Get trackerURL
  = match v with
    | bencode.BDict resDict =>
        match resDict !! "peers" with
        | Some (bencode.BStr piecesBolb) => torrent.parsePeers piecesBolb
        | _ =>
            match resDict !! "failure reason" with
            | Some (bencode.BStr msg) => Err (torrent.ErrTrackerFailed msg)
            | _ => Err torrent.ErrMissingPeers
            end
        end
    | _ => Panic
    end.
Proof.
  intros Hget Hwf. unfold torrent.RequestPeers. rewrite Hget.
  change (negb (200 =? 200)) with false. cbv iota.
  apply well_formed_encodes in Hwf.
  destruct (Decode_after_encodes enc rest v Hwf) as [Hd _].
  destruct (bencode.Decode _) as [r d']. cbn [fst] in Hd. subst r.
  by destruct v.
Qed.

(** X8: a tracker that answers with status 200 and a well-formed
    bencoded value that is not a dictionary (an integer, a string, a
    list), whatever follows it, makes [RequestPeers] panic: the type
    assertion on the decoded value is unchecked. *)
Theorem RequestPeers_panics_unless_dictionary
    (http_Get : string -> option (Z * option (list byte)))
    (trackerURL : string) (enc rest : list byte) (v : bencode.bvalue) :
  http_Get trackerURL = Some (200, Some (enc ++ rest)) ->
  well_formed enc v ->
  (forall resDict, v <> bencode.BDict resDict) ->
  torrent.RequestPeers http_Get trackerURL = Panic.
Proof.
  intros Hget Hwf Hv. rewrite (RequestPeers_decoded _ _ _ _ _ Hget Hwf).
  destruct v; try done. by destruct (Hv m).
Qed.

Lemma wf_value_list (room : nat) (enc : list byte) (v : bencode.bvalue) :
  wf_list (wf_value room) enc v -> wf_value (S room) enc v.
Proof. intros H. right; right; by left. Qed.

Lemma well_formed_empty_list : well_formed (bytes_of "le") (bencode.BList []).
Proof.
  unfold well_formed. change (Z.to_nat bencode.MaxDepth) with 50%nat.
  apply wf_value_list. exists []. split; [constructor|]. by split.
Qed.

Lemma RequestPeers_panics_unless_dictionary_witness :
  torrent.RequestPeers (fun _ => Some (200, Some (bytes_of "le"))) "http://t/"
  = Panic.
Proof.
  apply (RequestPeers_panics_unless_dictionary
           (fun _ => Some (200, Some (bytes_of "le"))) "http://t/"
           (bytes_of "le") [] (bencode.BList []));
    [reflexivity|exact well_formed_empty_list|discriminate].
Defined.

(** X9: for a tracker that answers with status 200 and a well-formed
    bencoded dictionary, [RequestPeers] goes by the entry [peers] first:
    when it is a byte string the result is that of [parsePeers] on it,
    whatever else the dictionary holds; when it is absent or of another
    type, a byte string under [failure reason] is reported as the
    tracker's failure, and without one the response is reported as
    missing its peers. *)
Theorem RequestPeers_dictionary
    (http_Get : string -> option (Z * option (list byte)))
    (trackerURL : string) (enc rest : list byte)
    (resDict : gmap string bencode.bvalue) :
  http_Get trackerURL = Some (200, Some (enc ++ rest)) ->
  well_formed enc (bencode.BDict resDict) ->
  (forall blob, resDict !! "peers" = Some (bencode.BStr blob) ->
     torrent.RequestPeers http_Get trackerURL = torrent.parsePeers blob) /\
  ((forall blob, resDict !! "peers" <> Some (bencode.BStr blob)) ->
   (forall msg, resDict !! "failure reason" = Some (bencode.BStr msg) ->
      torrent.RequestPeers http_Get trackerURL
      = Err (torrent.ErrTrackerFailed msg)) /\
   ((forall msg, resDict !! "failure reason" <> Some (bencode.BStr msg)) ->
      torrent.RequestPeers http_Get trackerURL = Err torrent.ErrMissingPeers)).
Proof.
  intros Hget Hwf. rewrite (RequestPeers_decoded _ _ _ _ _ Hget Hwf).
  split; [by intros blob ->|].
  intros Hnp.
  split.
  - intros msg Hmsg.
    destruct (resDict !! "peers") as [[]|]; rewrite ?Hmsg; try done;
      by edestruct Hnp.
  - intros Hnf.
    destruct (resDict !! "peers") as [[]|]; try (by edestruct Hnp);
      destruct (resDict !! "failure reason") as [[]|]; try done;
      by edestruct Hnf.
Qed.

Lemma numeral_4 : numeral (bytes_of "4").
Proof.
  split_and!; [done|by repeat constructor|]. intros r Hr. by inversion Hr.
Qed.

Lemma numeral_14 : numeral (bytes_of "14").
Proof.
  split_and!; [done|by repeat constructor|]. intros r Hr. by inversion Hr.
Qed.

(** The failing tracker response of the specification is well-formed. *)
Lemma well_formed_failure :
  well_formed (bytes_of "d14:failure reason4:nopee")
    (bencode.BDict {[ "failure reason" := bencode.BStr (bytes_of "nope") ]}).
Proof.
  unfold well_formed. change (Z.to_nat bencode.MaxDepth) with 50%nat.
  apply wf_value_dict.
  exists [ {| key_enc := bytes_of "14:failure reason";
              key := bytes_of "failure reason";
              val_enc := bytes_of "4:nope";
              val := bencode.BStr (bytes_of "nope") |} ].
  split_and!; [|reflexivity|by vm_compute].
  constructor; [|constructor]. cbn [key_enc key val_enc val]. split.
  - exists (bytes_of "14"). split_and!; [apply numeral_14|done..].
  - apply wf_value_string.
    exists (bytes_of "4"). split_and!; [apply numeral_4|done..].
Qed.

Lemma RequestPeers_dictionary_witness :
  torrent.RequestPeers
    (fun _ => Some (200, Some (bytes_of "d14:failure reason4:nopee")))
    "http://t/"
  = Err (torrent.ErrTrackerFailed (bytes_of "nope")).
Proof.
  pose proof (RequestPeers_dictionary
                (fun _ => Some (200, Some (bytes_of "d14:failure reason4:nopee")))
                "http://t/" (bytes_of "d14:failure reason4:nopee") []
                {[ "failure reason" := bencode.BStr (bytes_of "nope") ]}
                eq_refl well_formed_failure) as [_ H].
  apply H; [intros blob; vm_compute; discriminate|reflexivity].
Defined.

(** ** Bitfield: setting a bit *)

Lemma idx_insert (l : list byte) (n : nat) (x : byte) (i : Z) :
  (n < length l)%nat -> 0 <= i ->
  idx (<[n:=x]> l) i = if decide (Z.to_nat i = n) then x else idx l i.
Proof.
  intros Hn Hi. unfold idx.
  destruct (i <? 0) eqn:E; [apply Z.ltb_lt in E; lia|].
  rewrite !nth_lookup.
  destruct (decide (Z.to_nat i = n)) as [->|Hne].
  - by rewrite list_lookup_insert_eq.
  - by rewrite list_lookup_insert_ne.
Qed.

(** X10: [SetPiece] never skips an index: its guard holds for every
    index, so an index of [8 * len(bf)] or more, or of [-8] or less,
    or any index on an empty bitfield, is a panic.  For an index
    within the bitfield the call sets that bit (counted from the high
    bit of byte 0) and changes no other; for an index between [-7] and
    [-1] it leaves a non-empty bitfield as it is. *)
Theorem SetPiece_bits (bf : list byte) (index : Z) :
  (torrent.SetPiece bf index = None
   <-> index <= -8 \/ 8 * len bf <= index \/ bf = []) /\
  (0 <= index < 8 * len bf ->
   exists bf',
     torrent.SetPiece bf index = Some bf' /\ len bf' = len bf /\
     forall j : Z, 0 <= j < 8 * len bf ->
       bit_of bf' j = bool_decide (j = index) || bit_of bf j) /\
  (-8 < index < 0 -> bf <> [] -> torrent.SetPiece bf index = Some bf).
Proof.
  pose proof (len_nonneg bf) as Hlen.
  assert (bf = [] <-> len bf = 0) as Hnil.
  { destruct bf; [done|]. rewrite len_cons. pose proof (len_nonneg bf).
    split; [done|lia]. }
  unfold torrent.SetPiece. cbv zeta.
  assert ((Z.quot index 8 >=? 0) || (Z.quot index 8 <? len bf) = true) as ->.
  { apply orb_true_iff. rewrite Z.geb_leb, Z.leb_le, Z.ltb_lt. lia. }
  split_and!.
  - destruct (_ || _) eqn:E.
    + apply orb_true_iff in E. rewrite Z.ltb_lt, Z.geb_leb, Z.leb_le in E.
      split; [intros _|done]. rewrite Hnil.
      Z.quot_rem_to_equations. lia.
    + apply orb_false_iff in E. rewrite Z.ltb_ge, Z.geb_leb, Z.leb_gt in E.
      split; [done|]. rewrite Hnil. Z.quot_rem_to_equations. lia.
  - intros Hi.
    rewrite Z.quot_div_nonneg, Z.rem_mod_nonneg by lia.
    assert (0 <= index / 8 < len bf) as Hb
      by (Z.div_mod_to_equations; lia).
    assert (0 <= index mod 8 < 8) as Ho by (apply Z.mod_pos_bound; lia).
    destruct (_ || _) eqn:E.
    { apply orb_true_iff in E. rewrite Z.ltb_lt, Z.geb_leb, Z.leb_le in E. lia. }
    eexists. split; [reflexivity|]. split.
    { unfold len. by rewrite length_insert. }
    intros j Hj. unfold bit_of.
    assert (0 <= j / 8 < len bf) as Hjb by (Z.div_mod_to_equations; lia).
    assert (0 <= j mod 8 < 8) as Hjo by (apply Z.mod_pos_bound; lia).
    rewrite idx_insert by (unfold len in *; lia).
    destruct (decide (Z.to_nat (j / 8) = Z.to_nat (index / 8))) as [Heq|Hne].
    + assert (j / 8 = index / 8) as Hq by lia. rewrite Hq.
      set (old := b2z (idx bf (index / 8))).
      pose proof (b2z_range (idx bf (index / 8))) as Hold. fold old in Hold.
      rewrite b2z_z2b. unfold wrap8.
      rewrite Z.shiftl_1_l.
      assert (0 < 2 ^ (7 - index mod 8) < 256) as Hpow.
      { split; [apply Z.pow_pos_nonneg; lia|].
        change 256 with (2 ^ 8). apply Z.pow_lt_mono_r; lia. }
      rewrite (Z.mod_small (2 ^ _)) by lia.
      rewrite Z.mod_small
        by (change 256 with (2 ^ 8); apply Z_lor_bound;
            change (2 ^ 8) with 256; lia).
      rewrite Z.lor_spec, Z.pow2_bits_eqb by lia.
      rewrite orb_comm. f_equal.
      destruct (bool_decide (j = index)) eqn:Ej.
      * apply bool_decide_eq_true in Ej. subst j. apply Z.eqb_refl.
      * apply bool_decide_eq_false in Ej. apply Z.eqb_neq.
        intros Hm. apply Ej. Z.div_mod_to_equations. lia.
    + assert (j <> index) as Hji by (intros ->; done).
      by rewrite bool_decide_eq_false_2.
  - intros Hi Hne.
    assert (len bf <> 0) as Hl0 by (by rewrite <- Hnil).
    assert (Z.quot index 8 = 0 /\ Z.rem index 8 = index) as [-> ->]
      by (Z.quot_rem_to_equations; lia).
    destruct (_ || _) eqn:E.
    { apply orb_true_iff in E. rewrite Z.ltb_lt, Z.geb_leb, Z.leb_le in E. lia. }
    f_equal. unfold wrap8. rewrite Z.shiftl_1_l.
    replace (7 - index) with (8 + (-1 - index)) by lia.
    rewrite Z.pow_add_r by lia. change (2 ^ 8) with 256.
    rewrite (Z.mul_comm 256), Z.mod_mul by lia. rewrite Z.lor_0_r, z2b_b2z.
    change (Z.to_nat 0) with 0%nat.
    destruct bf as [|b bf']; [done|]. done.
Qed.

Lemma SetPiece_bits_witness :
  exists bf',
    torrent.SetPiece (make_bytes 2) 9 = Some bf' /\
    len bf' = len (make_bytes 2) /\
    forall j : Z, 0 <= j < 8 * len (make_bytes 2) ->
      bit_of bf' j = bool_decide (j = 9) || bit_of (make_bytes 2) j.
Proof.
  pose proof (SetPiece_bits (make_bytes 2) 9) as (_ & H & _).
  apply H. vm_compute. split; congruence.
Defined.

(** ** Piece planner: coverage and division by zero *)

Lemma pieces_total_app (l1 l2 : list Piece) :
  pieces_total (l1 ++ l2) = pieces_total l1 + pieces_total l2.
Proof.
  unfold pieces_total. induction l1 as [|p l1 IH]; simpl; [done|].
  rewrite IH. lia.
Qed.

(** A list known by its elements. *)
Lemma list_by_lookup {A} (l : list A) (f : nat -> A) :
  (forall i, (i < length l)%nat -> l !! i = Some (f i)) ->
  l = map f (seq 0 (length l)).
Proof.
  intros H. apply list_eq. intros i.
  rewrite list_lookup_fmap.
  destruct (decide (i < length l)%nat) as [Hi|Hi].
  - rewrite H by done. rewrite lookup_seq_lt by done. done.
  - rewrite lookup_ge_None_2 by lia.
    rewrite lookup_seq_ge by lia. done.
Qed.

Lemma pieces_total_const (f : nat -> Piece) (P : Z) (n : nat) :
  (forall i, (i < n)%nat -> Piece_Length (f i) = P) ->
  pieces_total (map f (seq 0 n)) = Z.of_nat n * P.
Proof.
  induction n as [|n IH]; intros H; [done|].
  rewrite seq_S, map_app, pieces_total_app, IH by (intros; apply H; lia).
  simpl. rewrite H by lia. lia.
Qed.

Lemma CreatePieceList_total (t : Torrent) (pieces : list Piece) :
  let P := PieceLength (Info t) in
  let T := totalLength t in
  let N := len (Pieces (Info t)) / 20 in
  P <> 0 -> 1 <= N -> CreatePieceList t = Some pieces ->
  pieces_total pieces
  = (N - 1) * P + (if Z.rem T P >? 0 then Z.rem T P else P).
Proof.
  intros P T N HP HN Hrun.
  pose proof (len_nonneg (Pieces (Info t))) as Hlen.
  destruct (CreatePieceList_ok t HP) as (pieces' & Hrun' & Hl & Hp).
  rewrite Hrun in Hrun'. injection Hrun' as <-.
  rewrite Z.quot_div_nonneg in Hl, Hp by lia. fold N in Hl, Hp.
  rewrite (list_by_lookup pieces
             (fun i => planned_piece t T N (Z.of_nat i))).
  2:{ intros i Hi. rewrite <- (Nat2Z.id i) at 1. apply Hp.
      unfold len in Hl. lia. }
  assert (length pieces = S (Z.to_nat (N - 1))) as -> by (unfold len in Hl; lia).
  rewrite seq_S, map_app, pieces_total_app.
  rewrite (pieces_total_const _ P).
  - cbn [map pieces_total foldr Piece_Length planned_piece Nat.add].
    rewrite Z2Nat.id by lia. rewrite Z.eqb_refl. cbn [andb]. fold P.
    destruct (_ >? 0); lia.
  - intros i Hi. cbn [Piece_Length planned_piece].
    destruct (_ =? _) eqn:E; [apply Z.eqb_eq in E; lia|done].
Qed.

(** X11: the planner checks nothing against the number of hashes.  With
    a piece length [P > 0], a total [T > 0] and [N >= 1] hashes, the
    lengths of the pieces it returns add up to [T] exactly when [N] is
    the number of pieces [T] needs, that is [(N - 1) * P < T <= N * P];
    with fewer or more hashes the plan covers another number of bytes. *)
Theorem CreatePieceList_covers (t : Torrent) (pieces : list Piece) :
  let P := PieceLength (Info t) in
  let T := totalLength t in
  let N := len (Pieces (Info t)) / 20 in
  0 < P -> 0 < T -> 1 <= N ->
  CreatePieceList t = Some pieces ->
  (pieces_total pieces = T <-> (N - 1) * P < T <= N * P).
Proof.
  intros P T N HP HT HN Hrun.
  rewrite (CreatePieceList_total t pieces) by (fold P N; done || lia).
  fold P T N. rewrite Z.rem_mod_nonneg by lia.
  pose proof (Z.mod_pos_bound T P HP) as Hm.
  pose proof (Z.div_mod T P ltac:(lia)) as Hd.
  destruct (_ >? 0) eqn:E.
  - rewrite Z.gtb_ltb in E. apply Z.ltb_lt in E. split; intros H.
    + nia.
    + assert (T / P = N - 1) as Hq by nia. rewrite Hq in Hd. lia.
  - rewrite Z.gtb_ltb in E. apply Z.ltb_ge in E.
    assert (T mod P = 0) as H0 by lia. rewrite H0 in Hd.
    split; intros H; [nia|].
    assert (T / P = N) by nia. nia.
Qed.

Lemma CreatePieceList_covers_witness :
  exists pieces,
    CreatePieceList torrent_S1 = Some pieces /\
    pieces_total pieces = totalLength torrent_S1.
Proof.
  assert (exists pieces, CreatePieceList torrent_S1 = Some pieces)
    as [pieces Hrun] by (eexists; vm_compute; reflexivity).
  exists pieces. split; [exact Hrun|].
  apply (CreatePieceList_covers torrent_S1 pieces);
    [reflexivity|reflexivity|vm_compute; discriminate|exact Hrun|].
  vm_compute. split; [reflexivity|discriminate].
Defined.

Lemma CreatePieceList_loop_zero (t : Torrent) (total : Z) (k : nat) :
  forall (i : Z) (pieces : list Piece),
    let numPieces := Z.quot (len (Pieces (Info t))) 20 in
    PieceLength (Info t) = 0 ->
    0 <= i -> i + Z.of_nat k = numPieces -> (1 <= k)%nat ->
    CreatePieceList_loop t (Pieces (Info t)) total numPieces k i pieces = None.
Proof.
  induction k as [|k IH]; intros i pieces N HP Hi Hk Hk1; [lia|].
  cbn [CreatePieceList_loop]. fold N. unfold CreatePieceList_body.
  destruct (i =? N - 1) eqn:E.
  - by rewrite HP.
  - apply Z.eqb_neq in E. apply IH; [done|lia|fold N; lia|lia].
Qed.

(** X12: [CreatePieceList] panics exactly when the piece length is zero
    and the pieces string holds at least one hash (20 bytes): the length
    of the last piece is a remainder by the piece length.  Nothing else
    is checked: negative piece lengths and hash strings whose length is
    not a multiple of 20 give a plan. *)
Theorem CreatePieceList_panics_iff (t : Torrent) :
  CreatePieceList t = None
  <-> PieceLength (Info t) = 0 /\ 20 <= len (Pieces (Info t)).
Proof.
  pose proof (len_nonneg (Pieces (Info t))) as Hlen.
  set (N := Z.quot (len (Pieces (Info t))) 20).
  assert (0 <= N /\ (1 <= N <-> 20 <= len (Pieces (Info t)))) as [HN0 HN].
  { unfold N. rewrite Z.quot_div_nonneg by lia.
    split; [|split; intros H]; Z.div_mod_to_equations; lia. }
  split.
  - intros Hrun.
    destruct (decide (PieceLength (Info t) = 0)) as [HP|HP].
    + split; [done|]. apply HN.
      destruct (decide (1 <= N)); [done|].
      assert (N = 0) as HN1 by lia.
      unfold CreatePieceList in Hrun. fold N in Hrun. rewrite HN1 in Hrun.
      discriminate Hrun.
    + destruct (CreatePieceList_ok t HP) as (pieces & Hrun' & _).
      congruence.
  - intros [HP H20]. apply HN in H20.
    unfold CreatePieceList. apply CreatePieceList_loop_zero; [done|lia| |lia].
    fold N. lia.
Qed.

(** ** Coordinator: whole runs *)

Section CoordinatorRuns.
Variable sha1_Sum : list byte -> list byte.

Lemma Download_loop_partition (t : Torrent) (pieces : list Piece)
  (results : list PieceResult) :
forall st final : coordinator,
  state_of (Download_loop sha1_Sum t pieces results st) = Some final ->
  exists processed rest,
    results = processed ++ rest /\
    Forall (fun res => 0 <= Result_Index res < len pieces) processed /\
    written (file final)
    = written (file st) ++ writes_of sha1_Sum t pieces processed /\
    workQueue final
    = workQueue st ++ requeues_of sha1_Sum pieces processed /\
    doneCount final
    = doneCount st + len (writes_of sha1_Sum t pieces processed).
Proof.
induction results as [|res results IH]; intros st final; cbn [Download_loop].
- intros H. exists [], [].
  unfold writes_of, requeues_of. cbn [omap list_omap app].
  destruct (_ <? _); injection H as <-.
  all: rewrite (app_nil_r (written (file st))), (app_nil_r (workQueue st)).
  all: split_and!; try done; unfold len; cbn [length]; lia.
- destruct (_ <? _).
  2:{ intros [= <-]. exists [], (res :: results).
      unfold writes_of, requeues_of. cbn [omap list_omap app].
      rewrite (app_nil_r (written (file st))), (app_nil_r (workQueue st)).
      split_and!; try done; unfold len; cbn [length]; lia. }
  unfold Download_body.
  destruct (Result_Index res <? 0) eqn:E; [done|]. apply Z.ltb_ge in E.
  destruct (pieces !! _) as [p|] eqn:Hp; [|done].
  assert (0 <= Result_Index res < len pieces) as Hrange.
  { split; [done|]. apply lookup_lt_Some in Hp. unfold len. lia. }
  destruct (bytes_Equal _ _) eqn:Heq; cbn [negb].
  + destruct (WriteAt _ _ _) as [file'|] eqn:Hw.
    * intros H. apply IH in H as (processed & rest & -> & Hall & Hwr & Hq & Hd).
      cbn [file workQueue doneCount] in *.
      apply WriteAt_written in Hw as [Hw _].
      assert (accepted sha1_Sum pieces res = true) as Hacc.
      { unfold accepted. rewrite Hp, Heq.
        by rewrite (proj2 (Z.leb_le 0 _)) by done. }
      exists (res :: processed), rest.
      unfold writes_of, requeues_of in *. cbn [omap list_omap].
      rewrite !Hacc.
      split_and!; [done|by constructor| | |].
      -- by rewrite Hwr, Hw, <- app_assoc.
      -- done.
      -- rewrite Hd, len_cons. lia.
    * intros [= <-]. exists [], (res :: results).
      unfold writes_of, requeues_of. cbn [omap list_omap app].
      rewrite (app_nil_r (written (file st))), (app_nil_r (workQueue st)).
      split_and!; try done; unfold len; cbn [length]; lia.
  + intros H. apply IH in H as (processed & rest & -> & Hall & Hwr & Hq & Hd).
    cbn [file workQueue doneCount] in *.
    assert (accepted sha1_Sum pieces res = false) as Hacc.
    { unfold accepted. by rewrite Hp, Heq, andb_false_r. }
    exists (res :: processed), rest.
    unfold writes_of, requeues_of in *. cbn [omap list_omap].
    rewrite !Hacc, Hp. cbn [fmap option_fmap option_map].
    split_and!; [done|by constructor|done| |done].
    by rewrite Hq, <- app_assoc.
Qed.

Lemma Download_loop_Finished (t : Torrent) (pieces : list Piece)
  (results : list PieceResult) :
forall st final : coordinator,
  Download_loop sha1_Sum t pieces results st = Finished final ->
  doneCount st <= len pieces ->
  doneCount final = len pieces.
Proof.
induction results as [|res results IH]; intros st final; cbn [Download_loop].
- destruct (_ <? _) eqn:E; [done|]. apply Z.ltb_ge in E.
  intros [= <-]. lia.
- destruct (_ <? _) eqn:E.
  2:{ apply Z.ltb_ge in E. intros [= <-]. lia. }
  apply Z.ltb_lt in E. unfold Download_body.
  destruct (Result_Index res <? 0); [done|].
  destruct (pieces !! _); [|done].
  destruct (negb _).
  + intros H Hle. apply (IH _ final H). cbn [doneCount]. lia.
  + destruct (WriteAt _ _ _); [|done].
    intros H Hle. apply (IH _ final H). cbn [doneCount]. lia.
Qed.

(** X14: [Download] returns [nil] only after exactly as many accepted
    results have been written as the plan has pieces: the file holds
    what it held plus these writes, one per accepted result and in the
    order of arrival; nothing in the loop asks that they be results for
    different pieces. *)
Theorem Download_finishes_after_N_writes (t : Torrent)
  (results : list PieceResult) (f : OutFile) (final : coordinator) :
Download sha1_Sum t results f = Finished final ->
exists pieces processed rest,
  CreatePieceList t = Some pieces /\
  results = processed ++ rest /\
  written (file final) = written f ++ writes_of sha1_Sum t pieces processed /\
  len (writes_of sha1_Sum t pieces processed) = len pieces /\
  doneCount final = len pieces.
Proof.
unfold Download. destruct (CreatePieceList t) as [pieces|]; [|done].
intros H. pose proof (len_nonneg pieces) as Hn.
pose proof (Download_loop_Finished t pieces results _ final H) as Hd.
cbn [doneCount] in Hd. specialize (Hd Hn).
pose proof (Download_loop_partition t pieces results) as Hp.
specialize (Hp _ final ltac:(by rewrite H)).
destruct Hp as (processed & rest & -> & _ & Hwr & _ & Hc).
cbn [file doneCount written] in *.
exists pieces, processed, rest. split_and!; [done|done|done|lia|done].
Qed.

End CoordinatorRuns.

Lemma Download_finishes_after_N_writes_witness :
  let block := {| Result_Index := 0; Result_Buf := replicate 20 "a"%byte |} in
  let results := [block; block; block; block; block] in
  let f := {| written := []; healthy := 9 |} in
  exists final,
    Download toy_sum torrent_S1 results f = Finished final /\
    exists pieces processed rest,
      CreatePieceList torrent_S1 = Some pieces /\
      results = processed ++ rest /\
      written (file final)
      = written f ++ writes_of toy_sum torrent_S1 pieces processed /\
      len (writes_of toy_sum torrent_S1 pieces processed) = len pieces /\
      doneCount final = len pieces.
Proof.
  intros block results f. eexists. split; [vm_compute; reflexivity|].
  apply (Download_finishes_after_N_writes toy_sum torrent_S1 results f).
  vm_compute. reflexivity.
Defined.

Section CoordinatorAccounts.
Variable sha1_Sum : list byte -> list byte.

Lemma accounted_nil (t : Torrent) (pieces : list Piece) (st : coordinator) :
  accounted sha1_Sum t pieces st [] st.
Proof.
  unfold accounted, writes_of, requeues_of. cbn [omap list_omap].
  rewrite !app_nil_r. split_and!; [done|done|done|].
  unfold len. cbn [length]. lia.
Qed.

Lemma accounted_cons_rejected (t : Torrent) (pieces : list Piece)
  (st final : coordinator) (res : PieceResult) (p : Piece)
  (processed : list PieceResult) :
  0 <= Result_Index res ->
  pieces !! Z.to_nat (Result_Index res) = Some p ->
  bytes_Equal (sha1_Sum (Result_Buf res)) (Piece_Hash p) = false ->
  accounted sha1_Sum t pieces
    {| workQueue := workQueue st ++ [requeued res p];
       file := file st; doneCount := doneCount st |} processed final ->
  accounted sha1_Sum t pieces st (res :: processed) final.
Proof.
  intros Hidx Hp Heq (Hall & Hw & Hq & Hd).
  cbn [file workQueue doneCount] in *.
  assert (accepted sha1_Sum pieces res = false) as Hacc.
  { unfold accepted. by rewrite Hp, Heq, andb_false_r. }
  unfold accounted, writes_of, requeues_of in *. cbn [omap list_omap].
  rewrite !Hacc, Hp. cbn [fmap option_fmap option_map].
  split_and!; [|done| |done].
  - constructor; [|done]. split; [done|].
    apply lookup_lt_Some in Hp. unfold len. lia.
  - by rewrite Hq, <- app_assoc.
Qed.

Lemma accounted_cons_accepted (t : Torrent) (pieces : list Piece)
  (st final : coordinator) (res : PieceResult) (p : Piece) (file' : OutFile)
  (processed : list PieceResult) :
  0 <= Result_Index res ->
  pieces !! Z.to_nat (Result_Index res) = Some p ->
  bytes_Equal (sha1_Sum (Result_Buf res)) (Piece_Hash p) = true ->
  WriteAt (file st) (Result_Buf res)
    (wrap64 (Result_Index res * PieceLength (Info t))) = Some file' ->
  accounted sha1_Sum t pieces
    {| workQueue := workQueue st; file := file';
       doneCount := doneCount st + 1 |} processed final ->
  accounted sha1_Sum t pieces st (res :: processed) final.
Proof.
  intros Hidx Hp Heq Hwrite (Hall & Hw & Hq & Hd).
  cbn [file workQueue doneCount] in *.
  apply WriteAt_written in Hwrite as [Hwrite _].
  assert (accepted sha1_Sum pieces res = true) as Hacc.
  { unfold accepted. rewrite Hp, Heq.
    by rewrite (proj2 (Z.leb_le 0 _)) by done. }
  unfold accounted, writes_of, requeues_of in *. cbn [omap list_omap].
  rewrite !Hacc.
  split_and!; [| |done|].
  - constructor; [|done]. split; [done|].
    apply lookup_lt_Some in Hp. unfold len. lia.
  - by rewrite Hw, Hwrite, <- app_assoc.
  - rewrite Hd, len_cons. lia.
Qed.

Lemma none_spare_cons (t : Torrent) (pieces : list Piece)
  (st st1 : coordinator) (res : PieceResult) (processed : list PieceResult) :
  doneCount st < len pieces ->
  doneCount st1
  = doneCount st + len (writes_of sha1_Sum t pieces [res]) ->
  none_spare sha1_Sum t pieces st1 processed ->
  none_spare sha1_Sum t pieces st (res :: processed).
Proof.
  intros Hlt Hd Hmin before last Heq.
  destruct before as [|b before].
  - unfold writes_of. cbn [omap list_omap]. rewrite len_nil. lia.
  - cbn [app] in Heq. injection Heq as <- Heq.
    specialize (Hmin before last Heq).
    change (res :: before) with ([res] ++ before).
    unfold writes_of in *. rewrite omap_app, len_app. lia.
Qed.

(** X13: what a run of the coordinator's loop over the results
    delivered has done, for each way it can end.  The loop takes the
    results in order for as long as pieces are missing.  A result it has
    got past has a planned index and was handled in exactly one way:
    written at [index * piece length] when its digest is the planned
    one, put back on the work queue as a fresh work item for the same
    piece when it is not; so the file has gained the accepted ones among
    them in order and nothing else, the queue the rejected ones and
    nothing else, and the counter counts the writes.  When the loop
    waits for more, it has got past all the results delivered.  When it
    returns [nil], it has got past the shortest run of results that
    brings the counter to the number of pieces.  It returns an error at
    the first accepted result whose write fails: that result is neither
    written nor put back, and the state is as the results before it left
    it.  It panics at the first result whose index is not planned. *)
Theorem Download_loop_accounts (t : Torrent) (pieces : list Piece)
  (results : list PieceResult) (st : coordinator) :
match Download_loop sha1_Sum t pieces results st with
| Running _ => False
| Blocked final =>
    accounted sha1_Sum t pieces st results final /\
    doneCount final < len pieces
| Finished final =>
    exists processed rest,
      results = processed ++ rest /\
      accounted sha1_Sum t pieces st processed final /\
      len pieces <= doneCount final /\
      none_spare sha1_Sum t pieces st processed
| Failed final =>
    exists processed res rest,
      results = processed ++ res :: rest /\
      accounted sha1_Sum t pieces st processed final /\
      doneCount final < len pieces /\
      accepted sha1_Sum pieces res = true /\
      WriteAt (file final) (Result_Buf res)
        (wrap64 (Result_Index res * PieceLength (Info t))) = None
| Crashed =>
    exists processed res rest before,
      results = processed ++ res :: rest /\
      accounted sha1_Sum t pieces st processed before /\
      doneCount before < len pieces /\
      ~ 0 <= Result_Index res < len pieces
end.
Proof.
revert st. induction results as [|res results IH]; intros st;
  cbn [Download_loop].
- destruct (_ <? _) eqn:E.
  + apply Z.ltb_lt in E. split; [apply accounted_nil|done].
  + apply Z.ltb_ge in E. exists [], [].
    split_and!; [done|apply accounted_nil|done|].
    intros before last Heq. by destruct before.
- destruct (_ <? _) eqn:E.
  2:{ apply Z.ltb_ge in E. exists [], (res :: results).
      split_and!; [done|apply accounted_nil|done|].
      intros before last Heq. by destruct before. }
  apply Z.ltb_lt in E. unfold Download_body.
  destruct (Result_Index res <? 0) eqn:E0.
  { apply Z.ltb_lt in E0. exists [], res, results, st.
    split_and!; [done|apply accounted_nil|done|lia]. }
  apply Z.ltb_ge in E0.
  destruct (pieces !! _) as [p|] eqn:Hp.
  2:{ exists [], res, results, st.
      split_and!; [done|apply accounted_nil|done|].
      apply lookup_ge_None in Hp. unfold len. lia. }
  destruct (bytes_Equal _ _) eqn:Heq; cbn [negb].
  + destruct (WriteAt _ _ _) as [file'|] eqn:Hw.
    * set (st1 := {| workQueue := workQueue st; file := file';
                     doneCount := doneCount st + 1 |}).
      specialize (IH st1).
      assert (accepted sha1_Sum pieces res = true) as Hacc.
      { unfold accepted. rewrite Hp, Heq.
        by rewrite (proj2 (Z.leb_le 0 _)) by done. }
      assert (doneCount st1
              = doneCount st + len (writes_of sha1_Sum t pieces [res]))
        as Hd1.
      { unfold writes_of. cbn [omap list_omap]. by rewrite Hacc. }
      destruct (Download_loop sha1_Sum t pieces results st1) as [?|f|f|f|].
      -- done.
      -- destruct IH as [Ha Hlt]. split; [|done].
         by apply (accounted_cons_accepted t pieces st f res p file').
      -- destruct IH as (processed & rest & -> & Ha & Hge & Hmin).
         exists (res :: processed), rest. split_and!; [done| |done|].
         ++ by apply (accounted_cons_accepted t pieces st f res p file').
         ++ by apply (none_spare_cons t pieces st st1).
      -- destruct IH as (processed & r & rest & -> & Ha & Hlt & Hr & Hwr).
         exists (res :: processed), r, rest. split_and!; [done| |done..].
         by apply (accounted_cons_accepted t pieces st f res p file').
      -- destruct IH as (processed & r & rest & before & -> & Ha & Hlt & Hr).
         exists (res :: processed), r, rest, before.
         split_and!; [done| |done..].
         by apply (accounted_cons_accepted t pieces st before res p file').
    * exists [], res, results.
      split_and!; [done|apply accounted_nil|done| |done].
      unfold accepted. rewrite Hp, Heq.
      by rewrite (proj2 (Z.leb_le 0 _)) by done.
  + set (st1 := {| workQueue := workQueue st ++ _; file := file st;
                   doneCount := doneCount st |}).
    specialize (IH st1).
    assert (accepted sha1_Sum pieces res = false) as Hacc.
    { unfold accepted. by rewrite Hp, Heq, andb_false_r. }
    assert (doneCount st1
            = doneCount st + len (writes_of sha1_Sum t pieces [res]))
      as Hd1.
    { unfold writes_of. cbn [omap list_omap]. rewrite Hacc.
      unfold len. cbn [length doneCount st1]. lia. }
    destruct (Download_loop sha1_Sum t pieces results st1) as [?|f|f|f|].
    * done.
    * destruct IH as [Ha Hlt]. split; [|done].
      by apply (accounted_cons_rejected t pieces st f res p).
    * destruct IH as (processed & rest & -> & Ha & Hge & Hmin).
      exists (res :: processed), rest. split_and!; [done| |done|].
      -- by apply (accounted_cons_rejected t pieces st f res p).
      -- by apply (none_spare_cons t pieces st st1).
    * destruct IH as (processed & r & rest & -> & Ha & Hlt & Hr & Hwr).
      exists (res :: processed), r, rest. split_and!; [done| |done..].
      by apply (accounted_cons_rejected t pieces st f res p).
    * destruct IH as (processed & r & rest & before & -> & Ha & Hlt & Hr).
      exists (res :: processed), r, rest, before.
      split_and!; [done| |done..].
      by apply (accounted_cons_rejected t pieces st before res p).
Qed.

End CoordinatorAccounts.

(** A run of the loop where a write fails: the first result is put
    back, the second is written, the third is accepted and its write
    fails; the fourth is never taken. *)
Lemma Download_loop_accounts_witness :
  let evil := {| Result_Index := 0; Result_Buf := bytes_of "evil" |} in
  let good := {| Result_Index := 0; Result_Buf := bytes_of "good" |} in
  let fine := {| Result_Index := 1; Result_Buf := bytes_of "fine" |} in
  let pieces := two_pieces ++ two_pieces in
  let st := {| workQueue := []; file := {| written := []; healthy := 1 |};
               doneCount := 0 |} in
  let final :=
    {| workQueue := [requeued evil
                       {| Piece_Index := 0;
                          Piece_Hash := toy_sum (bytes_of "good");
                          Piece_Length := 4 |}];
       file := {| written := [(0, bytes_of "good")]; healthy := 0 |};
       doneCount := 1 |} in
  Download_loop toy_sum torrent_S1 pieces [evil; good; fine; evil] st
  = Failed final /\
  exists processed res rest,
    [evil; good; fine; evil] = processed ++ res :: rest /\
    accounted toy_sum torrent_S1 pieces st processed final /\
    doneCount final < len pieces /\
    accepted toy_sum pieces res = true /\
    WriteAt (file final) (Result_Buf res)
      (wrap64 (Result_Index res * PieceLength (Info torrent_S1))) = None.
Proof.
  intros evil good fine pieces st final.
  assert (Download_loop toy_sum torrent_S1 pieces [evil; good; fine; evil] st
          = Failed final) as Hrun by (vm_compute; reflexivity).
  split; [exact Hrun|].
  pose proof (Download_loop_accounts toy_sum torrent_S1 pieces
                [evil; good; fine; evil] st) as H.
  rewrite Hrun in H. exact H.
Defined.

(** ** Worker: one piece, step by step *)

Lemma attempt_step_AtRefill (pw : PieceWork) (s : attempt) :
  let L := Work_Length pw in
  at_ s = AtRefill -> attempt_inv L s -> L < 2 ^ 62 ->
  attempt_step pw s
  = if (requested s <? L)
       && (requested s - downloaded s <? maxBacklog * blockSize)
    then
      let length := Z.min blockSize (L - requested s) in
      match net.Write (conn s)
              (request_bytes (Work_Index pw) (requested s) length) with
      | None => goto s (Returned None)
      | Some c =>
          {| conn := c; buf := buf s; requested := requested s + length;
             downloaded := downloaded s; at_ := AtRefill |}
      end
    else goto s AtRead.
Proof.
  intros L Hat (Hr & Hd & _ & _) HL. unfold attempt_step. rewrite Hat.
  fold L.
  rewrite (wrap64_id (requested s - downloaded s))
    by (unfold in_int64, int64_min, int64_max; lia).
  destruct (_ && _) eqn:G; [|done].
  apply andb_true_iff in G as [G1 _]. apply Z.ltb_lt in G1.
  rewrite (wrap64_id (L - requested s))
    by (unfold in_int64, int64_min, int64_max; lia).
  cbv zeta. unfold blockSize.
  assert ((if L - requested s <? 16384 then L - requested s else 16384)
          = Z.min 16384 (L - requested s)) as ->.
  { destruct (_ <? 16384) eqn:E;
      [apply Z.ltb_lt in E|apply Z.ltb_ge in E]; lia. }
  rewrite FormatRequest_bytes.
  destruct (net.Write _ _); [|done].
  by rewrite wrap64_id by (unfold in_int64, int64_min, int64_max; lia).
Qed.

Lemma Write_conn (c c' : net.Conn) (b : list byte) :
  net.Write c b = Some c' ->
  net.inbox c' = net.inbox c /\ net.outbox c' = net.outbox c ++ b /\
  S (net.writable c') = net.writable c.
Proof.
  unfold net.Write. destruct (net.writable c); [done|].
  by intros [= <-].
Qed.

(** What a successful [Read] takes from the stream is at least four
    bytes. *)
Lemma Read_shrinks (c c' : net.Conn) (r : p2p.read_result) :
  p2p.Read c = (r, c') -> r <> p2p.ReadErr ->
  (length (net.inbox c') + 4 <= length (net.inbox c))%nat /\
  net.outbox c' = net.outbox c /\ net.writable c' = net.writable c.
Proof.
  intros Hread Hr. pose proof (Read_wire c) as H. rewrite Hread in H.
  destruct r as [| |m]; [done| |].
  - destruct H as (-> & ? & ?). rewrite length_app.
    change (length (make_bytes 4)) with 4%nat. split_and!; (done || lia).
  - destruct H as (-> & _ & ? & ?). rewrite length_app.
    change (length (p2p.be32 _)) with 4%nat. cbn [length].
    rewrite length_app. split_and!; (done || lia).
Qed.

Lemma attempt_step_over (pw : PieceWork) (s : attempt) :
  over s -> attempt_step pw s = s.
Proof. unfold over, attempt_step. by destruct (at_ s). Qed.

Lemma attempt_step_steps_left (pw : PieceWork) (s : attempt) :
  attempt_inv (Work_Length pw) s -> Work_Length pw < 2 ^ 62 ->
  ~ over s ->
  (steps_left pw (attempt_step pw s) < steps_left pw s)%nat.
Proof.
  intros Hinv HL Hover.
  destruct (at_ s) eqn:Hat; [| | |by destruct Hover; unfold over; rewrite Hat..].
  - (* AtFor *)
    unfold attempt_step. rewrite Hat.
    destruct (_ <? _); unfold steps_left, goto; cbn [at_ requested conn];
      rewrite Hat; lia.
  - (* AtRefill *)
    rewrite attempt_step_AtRefill by done. cbv zeta.
    destruct Hinv as (Hr & _).
    destruct (_ && _) eqn:G.
    + apply andb_true_iff in G as [G1 _]. apply Z.ltb_lt in G1.
      destruct (net.Write _ _) as [c'|] eqn:Hw.
      * apply Write_conn in Hw as (Hin & _).
        unfold steps_left. cbn [at_ requested conn]. rewrite Hat, Hin.
        unfold blockSize. lia.
      * unfold steps_left, goto. cbn [at_]. rewrite Hat. lia.
    + unfold steps_left, goto. cbn [at_ requested conn]. rewrite Hat. lia.
  - (* AtRead *)
    unfold attempt_step. rewrite Hat.
    destruct (p2p.Read (conn s)) as [r c'] eqn:Hread.
    destruct r as [| |m].
    + unfold steps_left, goto. cbn [at_]. rewrite Hat. lia.
    + apply Read_shrinks in Hread as (Hin & _); [|done].
      unfold steps_left. cbn [at_ requested conn]. rewrite Hat. lia.
    + apply Read_shrinks in Hread as (Hin & _); [|done].
      destruct (_ =? p2p.MsgPiece).
      * destruct (_ <? 8);
          [unfold steps_left, goto; cbn [at_]; rewrite Hat; lia|].
        destruct (_ >? _);
          [unfold steps_left, goto; cbn [at_]; rewrite Hat; lia|].
        unfold steps_left. cbn [at_ requested conn]. rewrite Hat. lia.
      * unfold steps_left. cbn [at_ requested conn]. rewrite Hat. lia.
Qed.

Lemma attempt_run_over (pw : PieceWork) (n : nat) :
  forall s : attempt,
    attempt_inv (Work_Length pw) s -> Work_Length pw < 2 ^ 62 ->
    (steps_left pw s <= n)%nat ->
    over (attempt_run pw n s).
Proof.
  induction n as [|n IH]; intros s Hinv HL Hn.
  - change (over s). unfold steps_left, over in *.
    destruct (at_ s); cbv beta iota zeta in *; (done || (exfalso; lia)).
  - unfold attempt_run. rewrite Nat.iter_succ_r.
    destruct (at_ s) eqn:Hat.
    1-3: apply IH; [by apply attempt_step_inv|done|];
      pose proof (attempt_step_steps_left pw s Hinv HL) as Hdec;
      assert (~ over s) as Hno by (unfold over; rewrite Hat; tauto);
      specialize (Hdec Hno); lia.
    all: rewrite attempt_step_over by (unfold over; by rewrite Hat);
      apply IH; [done|done|];
      unfold steps_left; rewrite Hat; lia.
Qed.

(** X15: [attemptDownloadPiece] cannot go round without doing input or
    output: each turn of its loops sends a REQUEST or takes at least
    four bytes from the stream.  For a piece of [L] bytes and a peer
    that delivers [len(inbox)] bytes before the stream ends or the
    deadline passes, the call has returned or panicked after at most
    [L + 4 * len(inbox) + 3] steps. *)
Theorem attemptDownloadPiece_returns (c : net.Conn) (pw : PieceWork)
    (n : nat) :
  0 <= Work_Length pw < 2 ^ 62 ->
  (Z.to_nat (Work_Length pw) + 4 * length (net.inbox c) + 3 <= n)%nat ->
  over (attempt_run pw n (attempt_start c pw)).
Proof.
  intros HL Hn. apply attempt_run_over; [|lia|].
  - pose proof (attempt_run_inv c pw 0 HL) as H. exact H.
  - unfold steps_left, attempt_start. cbn [at_ requested conn].
    destruct (_ <? 0); [lia|]. lia.
Qed.

Lemma attemptDownloadPiece_returns_witness :
  over (attempt_run short_piece 607 (attempt_start answering_peer short_piece)).
Proof.
  apply (attemptDownloadPiece_returns answering_peer short_piece 607).
  - vm_compute. split; [discriminate|reflexivity].
  - vm_compute. lia.
Defined.

Lemma attempt_step_buf (pw : PieceWork) (s : attempt) :
  let L := Work_Length pw in
  let K s := len (buf s) = L /\
             forall b, at_ s = Returned (Some b) ->
                       b = buf s /\ L <= downloaded s in
  K s -> K (attempt_step pw s).
Proof.
  intros L K [Hlen Hret]. unfold attempt_step.
  destruct (at_ s) eqn:Hat.
  - (* AtFor *)
    destruct (_ <? _) eqn:E; unfold K, goto; cbn [buf at_ downloaded];
      (split; [done|]); intros b Hb; [done|].
    apply Z.ltb_ge in E. injection Hb as <-. done.
  - (* AtRefill *)
    destruct (_ && _); [|by split].
    destruct (p2p.Message_Serialize _); [|by split].
    destruct (net.Write _ _); by split.
  - (* AtRead *)
    destruct (p2p.Read (conn s)) as [[| |m] c']; [by split|by split|].
    destruct (_ =? p2p.MsgPiece); [|by split].
    destruct (_ <? 8); [by split|].
    destruct (_ >? _) eqn:E; [by split|].
    rewrite Z.gtb_ltb in E. apply Z.ltb_ge in E.
    pose proof (Uint32_range (slice (p2p.Payload m) 4 8)).
    unfold K. cbn [buf at_ downloaded]. split; [|done].
    unfold len. rewrite copy_at_length by lia. done.
  - by split; [|rewrite Hat].
  - by split; [|rewrite Hat].
Qed.

(** X16: whatever the peer sends, the buffer [attemptDownloadPiece]
    works on keeps the length of the piece, and when the call returns a
    buffer it is that buffer, of exactly [pw.Length] bytes, returned
    only once the count of received block bytes has reached
    [pw.Length]. *)
Theorem attemptDownloadPiece_buffer (c : net.Conn) (pw : PieceWork)
    (n : nat) :
  0 <= Work_Length pw ->
  let s := attempt_run pw n (attempt_start c pw) in
  len (buf s) = Work_Length pw /\
  forall b, at_ s = Returned (Some b) ->
    b = buf s /\ len b = Work_Length pw /\ Work_Length pw <= downloaded s.
Proof.
  intros HL s.
  enough (len (buf s) = Work_Length pw /\
          forall b, at_ s = Returned (Some b) ->
                    b = buf s /\ Work_Length pw <= downloaded s) as [H1 H2].
  { split; [done|]. intros b Hb. destruct (H2 b Hb) as [-> ?]. done. }
  subst s. induction n as [|n IH].
  - change (attempt_run pw 0 (attempt_start c pw)) with (attempt_start c pw).
    unfold attempt_start. cbn [buf at_]. split.
    + by apply len_make_bytes.
    + intros b. by destruct (_ <? 0).
  - rewrite attempt_run_S. by apply (attempt_step_buf pw).
Qed.

Lemma attemptDownloadPiece_buffer_witness :
  let s := attempt_run short_piece 8 (attempt_start answering_peer short_piece) in
  len (buf s) = 100 /\
  forall b, at_ s = Returned (Some b) ->
    b = buf s /\ len b = 100 /\ 100 <= downloaded s.
Proof.
  apply (attemptDownloadPiece_buffer answering_peer short_piece 8).
  vm_compute. discriminate.
Defined.

(** ** Worker: the REQUESTs of a piece *)

Lemma blocks_of_whole (k : Z) : 0 <= k -> blocks_of (blockSize * k) = Z.to_nat k.
Proof.
  intros Hk. unfold blocks_of, blockSize. f_equal.
  Z.div_mod_to_equations. lia.
Qed.

Lemma blocks_of_next (L r : Z) :
  0 <= r < L -> r mod blockSize = 0 ->
  blocks_of (r + Z.min blockSize (L - r)) = S (blocks_of r) /\
  r = blockSize * Z.of_nat (blocks_of r).
Proof.
  unfold blocks_of, blockSize. intros Hr Hm.
  apply Z.mod_divide in Hm as [q ->]; [|lia].
  assert (0 <= q) by lia.
  assert ((q * 16384 + 16384 - 1) / 16384 = q) as ->
    by (Z.div_mod_to_equations; lia).
  assert ((q * 16384 + Z.min 16384 (L - q * 16384) + 16384 - 1) / 16384
          = q + 1) as ->
    by (Z.div_mod_to_equations; lia).
  split; lia.
Qed.

Lemma attempt_step_requests (pw : PieceWork) (out0 : list byte) (s : attempt) :
  let L := Work_Length pw in
  let R s := net.outbox (conn s)
             = out0 ++ requests_sent (Work_Index pw) L (blocks_of (requested s))
             /\ (requested s = L \/ requested s mod blockSize = 0) in
  L < 2 ^ 62 -> attempt_inv L s -> R s -> R (attempt_step pw s).
Proof.
  intros L R HL Hinv [Hout Hreq].
  destruct (at_ s) eqn:Hat.
  - (* AtFor *)
    unfold attempt_step. rewrite Hat. by destruct (_ <? _).
  - (* AtRefill *)
    rewrite attempt_step_AtRefill by done. cbv zeta. fold L.
    destruct (_ && _) eqn:G; [|done].
    apply andb_true_iff in G as [G1 _]. apply Z.ltb_lt in G1.
    destruct (net.Write _ _) as [c'|] eqn:Hw; [|done].
    apply Write_conn in Hw as (_ & Hout' & _).
    destruct Hinv as (Hr & _).
    destruct Hreq as [Hreq|Hreq]; [lia|].
    destruct (blocks_of_next L (requested s) ltac:(lia) Hreq) as [Hn Hk].
    unfold R. cbn [conn requested]. split.
    + rewrite Hout', Hout, Hn, <- app_assoc. cbn [requests_sent].
      by rewrite <- Hk.
    + unfold blockSize in *.
      destruct (decide (16384 <= L - requested s)).
      * right. rewrite Z.min_l by lia.
        apply Z.mod_divide in Hreq as [q Hq]; [|lia]. rewrite Hq.
        replace (q * 16384 + 16384) with ((q + 1) * 16384) by lia.
        apply Z.mod_mul. lia.
      * left. lia.
  - (* AtRead *)
    unfold attempt_step. rewrite Hat.
    destruct (p2p.Read (conn s)) as [r c'] eqn:Hread.
    destruct r as [| |m]; [done| |].
    + apply Read_shrinks in Hread as (_ & Ho & _); [|done].
      unfold R. cbn [conn requested]. by rewrite Ho.
    + apply Read_shrinks in Hread as (_ & Ho & _); [|done].
      destruct (_ =? p2p.MsgPiece).
      * destruct (_ <? 8); [done|]. destruct (_ >? _); [done|].
        unfold R. cbn [conn requested]. by rewrite Ho.
      * unfold R. cbn [conn requested]. by rewrite Ho.
  - unfold attempt_step. by rewrite Hat.
  - unfold attempt_step. by rewrite Hat.
Qed.

Lemma attempt_run_requests (c : net.Conn) (pw : PieceWork) (n : nat) :
  0 <= Work_Length pw < 2 ^ 62 ->
  let s := attempt_run pw n (attempt_start c pw) in
  net.outbox (conn s)
  = net.outbox c
      ++ requests_sent (Work_Index pw) (Work_Length pw)
           (blocks_of (requested s)) /\
  (requested s = Work_Length pw \/ requested s mod blockSize = 0).
Proof.
  intros HL s. subst s. induction n as [|n IH].
  - change (attempt_run pw 0 (attempt_start c pw)) with (attempt_start c pw).
    unfold attempt_start. cbn [conn requested].
    change (blocks_of 0) with 0%nat. cbn [requests_sent].
    rewrite app_nil_r. split; [done|by right].
  - rewrite attempt_run_S.
    apply (attempt_step_requests pw (net.outbox c)); [lia| |done].
    by apply attempt_run_inv.
Qed.

(** X17: the REQUESTs [attemptDownloadPiece] has written at any point
    are those for the first blocks of the piece, in order and without
    gaps: block [k] asks for the piece's index, the offset
    [k * 16384] and the length [min(16384, L - k * 16384)].  Every
    block asked for starts inside the piece and ends within it, and
    nothing else is ever written. *)
Theorem attemptDownloadPiece_requests (c : net.Conn) (pw : PieceWork)
    (n : nat) :
  0 <= Work_Length pw < 2 ^ 62 ->
  let L := Work_Length pw in
  let s := attempt_run pw n (attempt_start c pw) in
  net.outbox (conn s)
  = net.outbox c ++ requests_sent (Work_Index pw) L (blocks_of (requested s)) /\
  (requested s = L \/ requested s mod blockSize = 0) /\
  forall k : nat, (k < blocks_of (requested s))%nat ->
    0 <= blockSize * Z.of_nat k < L /\
    0 < Z.min blockSize (L - blockSize * Z.of_nat k) <= blockSize /\
    blockSize * Z.of_nat k + Z.min blockSize (L - blockSize * Z.of_nat k) <= L.
Proof.
  intros HL L s.
  destruct (attempt_run_requests c pw n HL) as [H1 H2]. fold s L in H1, H2.
  split_and!; [done|done|].
  intros k Hk.
  pose proof (attempt_run_inv c pw n HL) as (Hr & _). fold s L in Hr.
  unfold blocks_of, blockSize in *.
  assert (Z.of_nat k < (requested s + 16384 - 1) / 16384) as Hk' by lia.
  assert (16384 * Z.of_nat k < requested s)
    by (Z.div_mod_to_equations; lia).
  lia.
Qed.

Lemma attemptDownloadPiece_requests_witness :
  let L := Work_Length long_piece in
  let s := attempt_run long_piece 15 (attempt_start one_byte_peer long_piece) in
  net.outbox (conn s)
  = net.outbox one_byte_peer
      ++ requests_sent (Work_Index long_piece) L (blocks_of (requested s)) /\
  (requested s = L \/ requested s mod blockSize = 0) /\
  forall k : nat, (k < blocks_of (requested s))%nat ->
    0 <= blockSize * Z.of_nat k < L /\
    0 < Z.min blockSize (L - blockSize * Z.of_nat k) <= blockSize /\
    blockSize * Z.of_nat k + Z.min blockSize (L - blockSize * Z.of_nat k) <= L.
Proof.
  apply (attemptDownloadPiece_requests one_byte_peer long_piece 15).
  vm_compute. split; [discriminate|reflexivity].
Defined.

(** ** Worker: a peer that answers block for block *)

Lemma blocks_of_mono (a b : Z) : a <= b -> (blocks_of a <= blocks_of b)%nat.
Proof.
  intros H. unfold blocks_of, blockSize.
  assert ((a + 16384 - 1) / 16384 <= (b + 16384 - 1) / 16384)
    by (Z.div_mod_to_equations; lia).
  lia.
Qed.

Lemma blocks_of_lt (L r : Z) :
  0 <= r < L -> r mod blockSize = 0 -> (blocks_of r < blocks_of L)%nat.
Proof.
  intros Hr Hm. destruct (blocks_of_next L r Hr Hm) as [Hn _].
  pose proof (blocks_of_mono (r + Z.min blockSize (L - r)) L
                ltac:(unfold blockSize; lia)). lia.
Qed.

Ltac close_served :=
  first [ done | tauto | lia
        | intros [?|?]; discriminate
        | intros ?; discriminate
        | intros _; lia
        | intros [?|?]; lia
        | intros ?; lia
        | do 3 right; reflexivity ].

Lemma served_inv_step (pw : PieceWork) (index : Z) (data rest : list byte)
    (s : attempt) :
  Work_Length pw = len data -> len data < 2 ^ 32 ->
  attempt_inv (len data) s ->
  served_inv index data rest s ->
  served_inv index data rest (attempt_step pw s).
Proof.
  intros HL H32 Hinv
    (Hat & Hdr & HrL & Hdm & Hrm & Hrd & Hlt & Hret & Hin & Hbuf & Hw).
  pose proof (len_nonneg data) as HL0.
  destruct Hat as [Hat|[Hat|[Hat|Hat]]].
  - (* AtFor *)
    unfold attempt_step. rewrite Hat, HL.
    destruct (_ <? _) eqn:E.
    + apply Z.ltb_lt in E. unfold served_inv, goto.
      cbn [at_ conn buf requested downloaded].
      split_and!; try close_served.
    + apply Z.ltb_ge in E. assert (downloaded s = len data) as Hd by lia.
      unfold served_inv, goto. cbn [at_ conn buf requested downloaded].
      assert (take (Z.to_nat (downloaded s)) data
                ++ make_bytes (len data - downloaded s) = data) as Hdata.
      { rewrite Hd, Z.sub_diag. unfold len. rewrite Nat2Z.id, firstn_all.
        change (make_bytes 0) with (@nil byte). by rewrite app_nil_r. }
      rewrite Hbuf, Hdata.
      split_and!; close_served.
  - (* AtRefill *)
    rewrite attempt_step_AtRefill by (rewrite ?HL; done || lia).
    cbv zeta. rewrite HL.
    destruct (_ && _) eqn:G.
    + apply andb_true_iff in G as [G1 _]. apply Z.ltb_lt in G1.
      destruct Hrm as [Hrm|Hrm]; [lia|].
      pose proof (blocks_of_lt (len data) (requested s) ltac:(lia) Hrm) as Hb.
      destruct (blocks_of_next (len data) (requested s) ltac:(lia) Hrm)
        as [Hn _].
      unfold net.Write.
      destruct (net.writable (conn s)) as [|w] eqn:Ew; [lia|].
      unfold served_inv. cbn [at_ conn buf requested downloaded net.inbox
                               net.writable].
      rewrite Hn.
      split_and!; try close_served; try (unfold blockSize in *; lia).
      * unfold blockSize in *.
        destruct (decide (16384 <= len data - requested s)).
        -- right. rewrite Z.min_l by lia.
           apply Z.mod_divide in Hrm as [q Hq]; [|lia]. rewrite Hq.
           replace (q * 16384 + 16384) with ((q + 1) * 16384) by lia.
           apply Z.mod_mul. lia.
        -- left. lia.
    + apply andb_false_iff in G.
      unfold maxBacklog, blockSize in G.
      unfold served_inv, goto. cbn [at_ conn buf requested downloaded].
      destruct G as [G|G]; apply Z.ltb_ge in G;
        split_and!; try close_served;
        intros _; unfold maxBacklog, blockSize; lia.
  - (* AtRead *)
    specialize (Hlt (or_intror Hat)). specialize (Hrd Hat).
    destruct Hdm as [Hdm|Hdm]; [lia|].
    set (d := downloaded s) in *.
    pose proof (blocks_of_lt (len data) d ltac:(lia) Hdm) as Hb.
    destruct (blocks_of_next (len data) d ltac:(lia) Hdm) as [Hn _].
    destruct (blocks_of (len data) - blocks_of d)%nat as [|k] eqn:Ek; [lia|].
    cbn [served] in Hin. cbv zeta in Hin.
    set (block := slice data d (Z.min (d + blockSize) (len data))) in *.
    assert (len block = Z.min blockSize (len data - d)) as Hblk.
    { unfold block. rewrite slice_length by (unfold blockSize; lia).
      unfold blockSize. lia. }
    assert (0 < len block <= 16384) as Hblk' by (unfold blockSize in *; lia).
    set (m := {| p2p.ID := p2p.MsgPiece;
                 p2p.Payload := p2p.be32 index ++ p2p.be32 d ++ block |}).
    assert (len (p2p.Payload m) = 8 + len block) as Hpl.
    { unfold m. cbn [p2p.Payload]. rewrite !len_app.
      change (len (p2p.be32 _)) with 4. lia. }
    assert (p2p.Read (conn s)
            = (p2p.ReadMsg m,
               {| net.inbox := served index data k (d + len block) ++ rest;
                  net.outbox := net.outbox (conn s);
                  net.writable := net.writable (conn s) |})) as Hread.
    { apply Read_Serialize_bytes.
      - unfold m. cbn. unfold p2p.MsgPiece. lia.
      - lia.
      - rewrite Hin, Hpl. unfold piece_bytes.
        replace (8 + len block + 1) with (9 + len block) by lia.
        unfold m. cbn [p2p.ID p2p.Payload]. by rewrite <- !app_assoc. }
    unfold attempt_step. rewrite Hat, Hread.
    change (p2p.ID m =? p2p.MsgPiece) with true. cbv iota.
    rewrite Hpl. destruct (_ <? 8) eqn:E8; [apply Z.ltb_lt in E8; lia|].
    assert (slice (p2p.Payload m) 4 8 = p2p.be32 d) as ->.
    { unfold m. cbn [p2p.Payload].
      change 8 with (len (p2p.be32 index) + len (p2p.be32 d)) at 1.
      change 4 with (len (p2p.be32 index)) at 1.
      apply slice_app_middle. }
    assert (slice_from (p2p.Payload m) 8 = block) as ->.
    { unfold m. cbn [p2p.Payload]. rewrite app_assoc.
      change 8 with (len (p2p.be32 index ++ p2p.be32 d)).
      apply slice_from_app. }
    rewrite Uint32_be32 by lia.
    assert (len (buf s) = len data) as Hlb.
    { rewrite Hbuf, len_app, len_make_bytes by lia.
      unfold len. rewrite length_take. unfold len in *. lia. }
    rewrite Hlb. destruct (d >? len data) eqn:Eg;
      [rewrite Z.gtb_ltb in Eg; apply Z.ltb_lt in Eg; lia|].
    rewrite wrap64_id by (unfold in_int64, int64_min, int64_max; lia).
    unfold served_inv. cbn [at_ conn buf requested downloaded net.inbox
                             net.writable].
    assert (blocks_of (d + len block) = S (blocks_of d)) as Hn'
      by (rewrite Hblk; exact Hn).
    fold d. unfold maxBacklog, blockSize in Hrd.
    split_and!; try close_served.
    + destruct (decide (16384 <= len data - d)).
      * right. rewrite Hblk. unfold blockSize in *. rewrite Z.min_l by lia.
        apply Z.mod_divide in Hdm as [q Hq]; [|lia]. rewrite Hq.
        replace (q * 16384 + 16384) with ((q + 1) * 16384) by lia.
        apply Z.mod_mul. lia.
      * left. unfold blockSize in *. lia.
    + rewrite Hn'. f_equal. f_equal. lia.
    + rewrite copy_at_fits by (rewrite ?Hlb; lia). cbn [fst].
      rewrite Hbuf.
      assert (length (take (Z.to_nat d) data) = Z.to_nat d) as Htl
        by (rewrite length_take; unfold len in *; lia).
      rewrite take_app_length' by done.
      rewrite drop_app_add' by done.
      unfold make_bytes. rewrite drop_replicate.
      rewrite app_assoc. f_equal.
      * unfold block, slice.
        replace (Z.to_nat (d + len (take _ _)))
          with (Z.to_nat d + Z.to_nat (Z.min (d + blockSize) (len data) - d))%nat.
        2:{ fold (slice data d (Z.min (d + blockSize) (len data))).
            fold block. lia. }
        by rewrite take_take_drop.
      * f_equal. unfold len in *. lia.
  - (* Returned *)
    unfold attempt_step. rewrite Hat.
    unfold served_inv. split_and!; close_served.
Qed.

Lemma served_inv_start (c : net.Conn) (pw : PieceWork) (index : Z)
    (data rest : list byte) :
  Work_Length pw = len data ->
  net.inbox c = served index data (blocks_of (len data)) 0 ++ rest ->
  (blocks_of (len data) <= net.writable c)%nat ->
  served_inv index data rest (attempt_start c pw).
Proof.
  intros HL Hin Hw. pose proof (len_nonneg data) as HL0.
  unfold served_inv, attempt_start.
  cbn [at_ conn buf requested downloaded]. rewrite HL.
  destruct (_ <? 0) eqn:E; [apply Z.ltb_lt in E; lia|].
  change (blocks_of 0) with 0%nat. rewrite Nat.sub_0_r, Z.sub_0_r.
  change (Z.to_nat 0) with 0%nat. rewrite take_0.
  split_and!; try close_served.
  by rewrite Z.sub_0_r.
Qed.

(** X18: from a peer that holds the piece and answers block for block,
    [attemptDownloadPiece] returns the piece.  If the stream holds, in
    order, one PIECE message for each block of [data] (offset
    [k * 16384], up to 16384 bytes) and the connection takes one write
    per block, the call returns [data], has read exactly these messages
    and has written exactly one REQUEST per block; the index in the
    PIECE messages is not looked at. *)
Theorem attemptDownloadPiece_served (c : net.Conn) (pw : PieceWork)
    (index : Z) (data rest : list byte) :
  Work_Length pw = len data -> len data < 2 ^ 32 ->
  net.inbox c = served index data (blocks_of (len data)) 0 ++ rest ->
  (blocks_of (len data) <= net.writable c)%nat ->
  exists n,
    let s := attempt_run pw n (attempt_start c pw) in
    at_ s = Returned (Some data) /\
    net.inbox (conn s) = rest /\
    net.outbox (conn s)
    = net.outbox c
        ++ requests_sent (Work_Index pw) (len data) (blocks_of (len data)).
Proof.
  intros HL H32 Hin Hw. pose proof (len_nonneg data) as HL0.
  assert (0 <= Work_Length pw < 2 ^ 62) as HL62 by lia.
  set (n := (Z.to_nat (Work_Length pw) + 4 * length (net.inbox c) + 3)%nat).
  exists n. cbv zeta.
  assert (served_inv index data rest (attempt_run pw n (attempt_start c pw)))
    as Hs.
  { generalize n. intros k. induction k as [|k IH].
    - by apply served_inv_start.
    - rewrite attempt_run_S. apply served_inv_step; [done|done| |done].
      rewrite <- HL. by apply attempt_run_inv. }
  assert (over (attempt_run pw n (attempt_start c pw))) as Hover.
  { apply attempt_run_over; [by apply (attempt_run_inv c pw 0)|lia|].
    unfold steps_left, attempt_start. cbn [at_ requested conn].
    destruct (_ <? 0); unfold n; lia. }
  destruct (attempt_run_requests c pw n HL62) as [Hout _].
  destruct Hs as (Hat & Hdr & HrL & _ & _ & _ & _ & Hret & Hin' & _ & _).
  unfold over in Hover.
  destruct Hat as [Hat|[Hat|[Hat|Hat]]]; rewrite Hat in Hover; try done.
  specialize (Hret Hat).
  assert (requested (attempt_run pw n (attempt_start c pw)) = len data)
    as Hr by lia.
  split_and!; [done| |].
  - rewrite Hin', Hret, Nat.sub_diag. done.
  - by rewrite Hout, Hr, HL.
Qed.

Lemma attemptDownloadPiece_served_witness :
  let data := replicate 100 "x"%byte in
  let c := {| net.inbox := served 7 data 1 0 ++ bytes_of "tail";
              net.outbox := []; net.writable := 1 |} in
  exists n,
    let s := attempt_run short_piece n (attempt_start c short_piece) in
    at_ s = Returned (Some data) /\
    net.inbox (conn s) = bytes_of "tail" /\
    net.outbox (conn s)
    = net.outbox c
        ++ requests_sent (Work_Index short_piece) (len data)
             (blocks_of (len data)).
Proof.
  intros data c.
  apply (attemptDownloadPiece_served c short_piece 7 data (bytes_of "tail"));
    [reflexivity|vm_compute; reflexivity|reflexivity|vm_compute; lia].
Defined.

(** ** Decoder: what every call leaves behind *)

(** X19: [Decode] always comes back with a value or an error: no slice
    expression of the decoder is ever out of range and no loop runs
    without consuming input.  On every path, errors included, the depth
    counter is back where it was and the buffer is untouched; below the
    top level the captured slice is untouched too. *)
Theorem Decode_returns_and_restores (d : Decoder) :
  ((exists v, fst (Decode d) = Ok v) \/ (exists e, fst (Decode d) = Err e)) /\
  depth (snd (Decode d)) = depth d /\
  bencode.data (snd (Decode d)) = bencode.data d /\
  (1 <= depth d -> RawInfo (snd (Decode d)) = RawInfo d).
Proof.
  split; [apply Decode_total|].
  unfold Decode.
  destruct (parseValue _ _ _) as [r d'] eqn:Hrun.
  apply parseValue_wb in Hrun as (Hdata & Hdep & Hraw & _ & _).
  by destruct r as [[v n]|e| |].
Qed.

(** ** Decoder: the nesting limit *)

Lemma nested_enc_S (n : nat) :
  nested_enc (S n) = "l"%byte :: nested_enc n ++ ["e"%byte].
Proof.
  unfold nested_enc. cbn [replicate app]. f_equal.
  rewrite <- app_assoc. f_equal.
  change ("e"%byte :: "e"%byte :: replicate n "e"%byte)
    with ("e"%byte :: replicate (S n) "e"%byte).
  by rewrite replicate_cons_app.
Qed.

Lemma wf_value_nested (n : nat) :
  forall room : nat, (S n <= room)%nat ->
    wf_value room (nested_enc n) (nested n).
Proof.
  induction n as [|n IH]; intros room Hroom;
    (destruct room as [|room]; [lia|]); apply wf_value_list.
  - exists []. split; [constructor|]. by split.
  - exists [(nested_enc n, nested n)]. split_and!.
    + constructor; [|constructor]. cbn. apply IH. lia.
    + rewrite nested_enc_S. cbn [map concat fst]. by rewrite app_nil_r.
    + done.
Qed.

Lemma parseValue_too_deep (k : nat) :
  forall (fuel : nat) (rest : list byte) (d : Decoder),
    (1 <= k)%nat -> (k <= fuel)%nat ->
    MaxDepth < depth d + Z.of_nat k -> depth d <= MaxDepth ->
    fst (parseValue fuel (replicate k "l"%byte ++ rest) d) = Err ErrTooDeep.
Proof.
  induction k as [|k IH]; intros fuel rest d Hk Hfuel Hdeep Hd; [lia|].
  destruct fuel as [|fuel]; [lia|].
  cbn [replicate app parseValue].
  change (Byte.eqb "l" "i") with false.
  change ((b2z "0" <=? b2z "l") && (b2z "l" <=? b2z "9")) with false.
  change (Byte.eqb "l" "l") with true. cbv iota.
  unfold parseList. cbv zeta. cbn [depth set_depth].
  destruct (depth d + 1 >? MaxDepth) eqn:E; [done|].
  rewrite Z.gtb_ltb in E. apply Z.ltb_ge in E.
  destruct k as [|k]; [lia|].
  set (data := "l"%byte :: replicate (S k) "l"%byte ++ rest).
  assert (2 <= len data) as Hlen.
  { unfold data. cbn [replicate app]. rewrite !len_cons.
    pose proof (len_nonneg (replicate k "l"%byte ++ rest)). lia. }
  destruct (len data <? 2) eqn:E2; [apply Z.ltb_lt in E2; lia|].
  change (idx data 0) with "l"%byte.
  change (Byte.eqb "l" "l") with true. cbn [negb orb].
  destruct (length data) as [|n] eqn:En; [unfold len in Hlen; lia|].
  cbn [parseList_loop].
  destruct (1 <? len data) eqn:E1; [|apply Z.ltb_ge in E1; lia].
  change (idx data 1) with "l"%byte.
  change (Byte.eqb "l" "e") with false. cbn [negb andb].
  change (slice_from data 1) with (replicate (S k) "l"%byte ++ rest).
  specialize (IH fuel rest (set_depth d (depth d + 1)) ltac:(lia) ltac:(lia)).
  cbn [depth set_depth] in IH. specialize (IH ltac:(lia) ltac:(lia)).
  destruct (parseValue fuel _ _) as [r d1]. cbn [fst] in IH. subst r.
  done.
Qed.

(** X20: lists may be nested 50 deep and no deeper.  The encoding of
    [n + 1] lists one inside the other decodes to that value for
    [n + 1 <= 50], whatever follows; an input that starts with 51 bytes
    [l] is refused as too deep, whatever follows. *)
Theorem Decode_nesting_limit :
  (forall (n : nat) (rest : list byte),
      (S n <= 50)%nat ->
      fst (Decode (NewDecoder (nested_enc n ++ rest))) = Ok (nested n)) /\
  (forall rest : list byte,
      fst (Decode (NewDecoder (replicate 51 "l"%byte ++ rest)))
      = Err ErrTooDeep).
Proof.
  split.
  - intros n rest Hn.
    apply (Decode_after_encodes (nested_enc n) rest (nested n)).
    apply well_formed_encodes. unfold well_formed.
    change (Z.to_nat MaxDepth) with 50%nat. by apply wf_value_nested.
  - intros rest. unfold Decode. cbn [bencode.data NewDecoder].
    pose proof (parseValue_too_deep 51
                  (S (length (replicate 51 "l"%byte ++ rest))) rest
                  (NewDecoder (replicate 51 "l"%byte ++ rest))
                  ltac:(lia)) as H.
    rewrite length_app, length_replicate in H.
    specialize (H ltac:(lia)). cbn [depth NewDecoder] in H.
    specialize (H ltac:(unfold MaxDepth; lia) ltac:(unfold MaxDepth; lia)).
    rewrite length_app, length_replicate.
    destruct (parseValue _ _ _) as [r d1]. cbn [fst] in H. by subst r.
Qed.

Lemma Decode_nesting_limit_witness :
  fst (Decode (NewDecoder (nested_enc 2%nat ++ bytes_of "i1e")))
  = Ok (BList [BList [BList []]]).
Proof.
  apply (proj1 Decode_nesting_limit 2%nat (bytes_of "i1e")). lia.
Defined.

(** ** Decoder: strings, their limit and their bytes *)

Lemma Atoi_numeral_int64 (ds : list byte) :
  numeral ds -> digits_value ds 0 <= int64_max ->
  strconv.Atoi ds = (digits_value ds 0, None).
Proof.
  intros Hnum Hmax. unfold strconv.Atoi.
  destruct ((0 <? len ds) && (len ds <? 19)) eqn:Hfast.
  - destruct (numeral_head ds Hnum) as (d & tl & -> & Hd & _).
    destruct Hnum as (_ & Hds & _).
    rewrite (digit_eqb_false d "-"), (digit_eqb_false d "+")
      by (done || vm_compute; intros [? ?]; done).
    cbn [orb andb]. by rewrite Atoi_fast_loop_digits.
  - by apply ParseInt_numeral.
Qed.

(** X21: [parseString] on a canonical length [n] (a numeral within 64
    bits), a colon and what follows: a length above 10 MiB is refused
    before the input is looked at; otherwise fewer than [n] bytes after
    the colon are an error, and with [n] bytes or more the string is
    exactly the first [n] of them and the bytes consumed are the
    numeral, the colon and the string. *)
Theorem parseString_framing (ds rest : list byte) :
  numeral ds -> digits_value ds 0 <= int64_max ->
  let n := digits_value ds 0 in
  parseString (ds ++ ":"%byte :: rest)
  = if n >? MaxStringLength then Err ErrStringTooLong
    else if len rest <? n then Err ErrTooShort
    else Ok (take (Z.to_nat n) rest, len ds + 1 + n).
Proof.
  intros Hnum Hmax n.
  destruct (numeral_head ds Hnum) as (d & tl & Hds & Hd & Hzero).
  pose proof Hnum as (Hne & Hall & _).
  pose proof (numeral_nonneg ds Hnum) as Hn0. fold n in Hn0.
  assert (":"%byte ∉ ds) as Hnot
    by (apply digits_not_elem; [done|vm_compute; intros [? ?]; done]).
  pose proof (len_nonneg ds). pose proof (len_nonneg rest).
  assert (0 < len ds)
    by (subst ds; rewrite len_cons; pose proof (len_nonneg tl); lia).
  unfold parseString.
  rewrite IndexByte_first by done.
  destruct (_ <=? 0) eqn:E0; [apply Z.leb_le in E0; lia|].
  assert (slice (ds ++ ":"%byte :: rest) 0 (len ds) = ds) as ->.
  { apply (slice_middle [] ds); [done|rewrite len_nil; lia]. }
  assert (Byte.eqb (idx ds 0) "0" && (len ds >? 1) = false) as ->.
  { subst ds. change (idx (d :: tl) 0) with d.
    destruct (Byte.eqb d "0") eqn:Ez; [|done].
    apply eqb_byte_true in Ez. rewrite (Hzero Ez). done. }
  rewrite (Atoi_numeral_int64 ds Hnum Hmax). cbv beta iota zeta. fold n.
  destruct (n <? 0) eqn:E1; [apply Z.ltb_lt in E1; lia|].
  destruct (n >? MaxStringLength); [done|].
  rewrite len_app, len_cons.
  clearbody n.
  replace (len ds + (len rest + 1) <? len ds + 1 + n) with (len rest <? n).
  2:{ destruct (Z.ltb_spec (len rest) n),
        (Z.ltb_spec (len ds + (len rest + 1)) (len ds + 1 + n));
        (done || lia). }
  destruct (Z.ltb_spec (len rest) n) as [E3|E3]; [done|].
  do 2 f_equal.
  rewrite <- (take_drop (Z.to_nat n) rest) at 1.
  change (ds ++ ":"%byte :: take (Z.to_nat n) rest ++ drop (Z.to_nat n) rest)
    with (ds ++ [":"%byte] ++ take (Z.to_nat n) rest
            ++ drop (Z.to_nat n) rest).
  rewrite (app_assoc ds).
  apply slice_middle; rewrite len_app, len_cons, len_nil; [lia|].
  unfold len. rewrite length_take. unfold len in *. lia.
Qed.

Lemma parseString_framing_witness :
  parseString (bytes_of "10485761" ++ ":"%byte :: bytes_of "abc")
  = Err ErrStringTooLong.
Proof.
  apply (parseString_framing (bytes_of "10485761") (bytes_of "abc")).
  - split_and!; [done|by repeat constructor|].
    intros r Hr. by inversion Hr.
  - vm_compute. discriminate.
Defined.

(** ** Decoder: when a slice is captured *)

Lemma parseDict_loop_raw (fuel n : nat) (data : list byte) :
  forall (result : gmap string bvalue) (pos : Z) (d : Decoder) res m d',
    0 <= pos -> depth d = 1 ->
    (RawInfo d <> [] -> is_Some (result !! "info")) ->
    parseDict_loop (parseValue fuel) n data result pos d = (Ok (res, m), d') ->
    RawInfo d' <> [] -> is_Some (res !! "info").
Proof.
  induction n as [|n IH]; intros result pos d res m d' Hpos Hdep Hinv;
    cbn [parseDict_loop].
  - destruct (_ && _); [done|]. destruct (_ || _); [done|].
    by intros [= <- <- <-].
  - destruct (_ && _) eqn:G.
    2:{ destruct (_ || _); [done|]. by intros [= <- <- <-]. }
    apply andb_true_iff in G as [Hlt%Z.ltb_lt _].
    destruct (parseString _) as [[keyBytes consumedKey]|e| |] eqn:Hkey;
      try done.
    apply parseString_consumed in Hkey.
    rewrite slice_from_len in Hkey by lia.
    destruct (_ >=? _); [done|].
    destruct (parseValue fuel _ d) as [[[val consumed]|e| |] d1] eqn:Hpv;
      try done.
    destruct (parseValue_wb fuel _ _ _ _ Hpv) as (_ & Hd1 & Hraw1 & _ & Hc).
    specialize (Hc _ _ eq_refl). specialize (Hraw1 ltac:(lia)).
    apply IH; [lia|by destruct (_ && _); cbn; rewrite ?Hd1|].
    destruct (bool_decide _) eqn:Ek; cbn [andb].
    + apply bool_decide_eq_true in Ek. rewrite Ek.
      intros _. rewrite lookup_insert_eq. by eexists.
    + apply bool_decide_eq_false in Ek.
      rewrite Hraw1. intros H. rewrite lookup_insert_ne by done. by apply Hinv.
Qed.

Lemma parseValue_raw (fuel : nat) (data : list byte) (d d' : Decoder)
    (v : bvalue) (n : Z) :
  depth d = 0 -> RawInfo d = [] ->
  parseValue fuel data d = (Ok (v, n), d') ->
  RawInfo d' <> [] ->
  exists m x, v = BDict m /\ m !! "info" = Some x.
Proof.
  intros Hdep Hraw. destruct fuel as [|fuel]; [done|].
  cbn [parseValue]. destruct data as [|c data]; [done|].
  destruct (Byte.eqb c "i").
  { destruct (parseInteger _) as [[? ?]| | |]; try done.
    intros [= <- <- <-]. by rewrite Hraw. }
  destruct (_ && _).
  { destruct (parseString _) as [[? ?]| | |]; try done.
    intros [= <- <- <-]. by rewrite Hraw. }
  destruct (Byte.eqb c "l").
  { unfold parseList. cbv zeta.
    destruct (_ >? MaxDepth); [done|]. destruct (_ || _); [done|].
    destruct (parseList_loop _ _ _ _ _ _) as [[[res k]|e| |] d1] eqn:Hloop;
      try done.
    intros [= <- <- <-]. cbn [RawInfo set_depth].
    apply (parseList_loop_wb _ (parseValue_wb fuel)) in Hloop
      as (_ & _ & Hr & _); [|lia].
    cbn [depth set_depth RawInfo] in Hr. rewrite Hr by lia. by rewrite Hraw. }
  destruct (Byte.eqb c "d"); [|done].
  unfold parseDict. cbv zeta.
  destruct (_ >? MaxDepth); [done|]. destruct (_ || _); [done|].
  destruct (parseDict_loop _ _ _ _ _ _) as [[[res k]|e| |] d1] eqn:Hloop;
    try done.
  intros [= <- <- <-]. cbn [RawInfo set_depth]. intros Hne.
  apply parseDict_loop_raw in Hloop as [x Hx]; [|lia| | |done].
  - by exists res, x.
  - cbn [depth set_depth]. lia.
  - cbn [RawInfo set_depth]. by rewrite Hraw.
Qed.

(** X22: a successful [Decode] on a fresh decoder leaves a captured
    slice exactly when the value decoded is a dictionary with the key
    [info] at the top level: an [info] key further down, or inside a
    list, captures nothing, and [RawInfo] stays empty. *)
Theorem Decode_captures_iff (data : list byte) (v : bvalue) (d' : Decoder) :
  Decode (NewDecoder data) = (Ok v, d') ->
  (RawInfo d' <> [] <-> exists m x, v = BDict m /\ m !! "info" = Some x).
Proof.
  intros Hdec. split.
  - unfold Decode in Hdec. cbn [bencode.data NewDecoder] in Hdec.
    destruct (parseValue _ _ _) as [[[val n]|e| |] d1] eqn:Hrun; try done.
    injection Hdec as <- <-.
    by apply (parseValue_raw _ data (NewDecoder data) d1 val n
                eq_refl eq_refl Hrun).
  - intros (m & x & -> & Hx).
    destruct (Decode_captured data m x d' Hdec Hx)
      as (before & p & after & _ & _ & _ & _ & Hs & He & Hraw).
    intros Hnil. apply (f_equal len) in Hraw.
    rewrite Hnil, len_nil, slice_length in Hraw; lia.
Qed.

Lemma Decode_captures_iff_witness :
  RawInfo (snd (Decode (NewDecoder (bytes_of "ld4:infoi1eee")))) <> []
  <-> exists m x, BList [BDict {[ "info" := BInt 1 ]}] = BDict m
                  /\ m !! "info" = Some x.
Proof.
  apply (Decode_captures_iff (bytes_of "ld4:infoi1eee")
           (BList [BDict {[ "info" := BInt 1 ]}])).
  vm_compute. reflexivity.
Defined.

(** ** Decoder: the keys of a dictionary *)

Lemma dict_of_app (es1 es2 : list entry) (m : gmap string bvalue) :
  dict_of (es1 ++ es2) m = dict_of es2 (dict_of es1 m).
Proof. unfold dict_of. apply fold_left_app. Qed.

Lemma dict_of_other (es : list entry) :
  forall (m : gmap string bvalue) (k : string),
    (forall e, e ∈ es -> string_of (key e) <> k) ->
    dict_of es m !! k = m !! k.
Proof.
  induction es as [|e es IH]; intros m k Hk; [done|].
  change (dict_of (e :: es) m)
    with (dict_of es (<[string_of (key e) := val e]> m)).
  rewrite IH by (intros e' He'; apply Hk, elem_of_cons; by right).
  apply lookup_insert_ne. apply Hk, elem_of_cons. by left.
Qed.

Lemma dict_of_last (es1 es2 : list entry) (e : entry)
    (m : gmap string bvalue) :
  (forall e', e' ∈ es2 -> string_of (key e') <> string_of (key e)) ->
  dict_of (es1 ++ e :: es2) m !! string_of (key e) = Some (val e).
Proof.
  intros Hlast. rewrite dict_of_app.
  change (dict_of (e :: es2) (dict_of es1 m))
    with (dict_of es2 (<[string_of (key e) := val e]> (dict_of es1 m))).
  rewrite dict_of_other by done. apply lookup_insert_eq.
Qed.

Lemma dict_of_NoDup (es : list entry) (e : entry) :
  NoDup ((fun e => string_of (key e)) <$> es) -> e ∈ es ->
  dict_of es ∅ !! string_of (key e) = Some (val e).
Proof.
  intros Hnd He. apply list_elem_of_split in He as (es1 & es2 & ->).
  apply dict_of_last. intros e' He' Heq.
  rewrite fmap_app, fmap_cons in Hnd.
  apply NoDup_app in Hnd as (_ & _ & Hnd).
  apply NoDup_cons in Hnd as [Hnot _]. apply Hnot.
  rewrite <- Heq. apply list_elem_of_fmap. by exists e'.
Qed.

Lemma dict_of_Permutation (es es' : list entry) :
  NoDup ((fun e => string_of (key e)) <$> es) -> es ≡ₚ es' ->
  dict_of es' ∅ = dict_of es ∅.
Proof.
  intros Hnd Hperm. apply map_eq. intros k.
  assert (NoDup ((fun e => string_of (key e)) <$> es')) as Hnd'
    by (by rewrite <- Hperm).
  destruct (decide (k ∈ (fun e => string_of (key e)) <$> es)) as [Hin|Hout].
  - apply list_elem_of_fmap in Hin as (e & -> & He).
    rewrite (dict_of_NoDup es e Hnd He).
    apply dict_of_NoDup; [done|]. by rewrite <- Hperm.
  - rewrite !dict_of_other; [done| |].
    + intros e He Hk. apply Hout. apply list_elem_of_fmap. by exists e.
    + intros e He Hk. apply Hout. apply list_elem_of_fmap. exists e.
      split; [done|]. by rewrite Hperm.
Qed.

Lemma Decode_dict_enc (es : list entry) (rest : list byte) :
  Forall (fun e => wf_string (key_enc e) (key e)
                   /\ wf_value 49 (val_enc e) (val e)) es ->
  fst (Decode (NewDecoder (dict_enc es ++ rest))) = Ok (BDict (dict_of es ∅)).
Proof.
  intros Hwf.
  apply (Decode_after_encodes (dict_enc es) rest (BDict (dict_of es ∅))).
  apply well_formed_encodes. unfold well_formed.
  change (Z.to_nat MaxDepth) with 50%nat. apply wf_value_dict.
  by exists es.
Qed.

(** X23: the decoder does not ask for sorted or distinct keys.  A
    dictionary written as any sequence of well-formed pairs decodes to
    the map in which each key has the value of its last pair; in
    particular two encodings that list the same pairs, with distinct
    keys, in different orders decode to the same value. *)
Theorem Decode_dict_keys (es : list entry) (rest : list byte) :
  Forall (fun e => wf_string (key_enc e) (key e)
                   /\ wf_value 49 (val_enc e) (val e)) es ->
  exists m,
    fst (Decode (NewDecoder (dict_enc es ++ rest))) = Ok (BDict m) /\
    (forall es1 e es2,
        es = es1 ++ e :: es2 ->
        (forall e', e' ∈ es2 -> key e' <> key e) ->
        m !! string_of (key e) = Some (val e)) /\
    (forall k, (forall e, e ∈ es -> string_of (key e) <> k) -> m !! k = None) /\
    (forall es' rest',
        NoDup (key <$> es) -> es ≡ₚ es' ->
        fst (Decode (NewDecoder (dict_enc es' ++ rest'))) = Ok (BDict m)).
Proof.
  intros Hwf. exists (dict_of es ∅). split_and!.
  - by apply Decode_dict_enc.
  - intros es1 e es2 -> Hlast. apply dict_of_last.
    intros e' He' Heq. apply (Hlast e' He'). by apply string_of_inj.
  - intros k Hk. by rewrite dict_of_other.
  - intros es' rest' Hnd Hperm.
    rewrite Decode_dict_enc by (by rewrite <- Hperm).
    do 2 f_equal. apply dict_of_Permutation; [|done].
    change ((fun e => string_of (key e)) <$> es)
      with ((string_of ∘ key) <$> es).
    rewrite (list_fmap_compose key string_of es).
    apply NoDup_fmap_2; [|done]. intros a b. apply string_of_inj.
Qed.

Lemma Decode_dict_keys_witness :
  exists m,
    fst (Decode (NewDecoder
                   (dict_enc
                      [ {| key_enc := bytes_of "3:foo"; key := bytes_of "foo";
                           val_enc := bytes_of "3:bar";
                           val := BStr (bytes_of "bar") |} ]
                    ++ bytes_of "x")))
    = Ok (BDict m) /\
    m !! "foo" = Some (BStr (bytes_of "bar")).
Proof.
  destruct (Decode_dict_keys
              [ {| key_enc := bytes_of "3:foo"; key := bytes_of "foo";
                   val_enc := bytes_of "3:bar";
                   val := BStr (bytes_of "bar") |} ] (bytes_of "x"))
    as (m & Hm & Hlast & _).
  - constructor; [|constructor]. cbn [key_enc key val_enc val]. split.
    + exists (bytes_of "3"). split_and!; [apply numeral_3|done..].
    + apply wf_value_string.
      exists (bytes_of "3"). split_and!; [apply numeral_3|done..].
  - exists m. split; [exact Hm|].
    apply (Hlast [] {| key_enc := bytes_of "3:foo"; key := bytes_of "foo";
                       val_enc := bytes_of "3:bar";
                       val := BStr (bytes_of "bar") |} []); [reflexivity|].
    intros e' He'. by apply elem_of_nil in He'.
Defined.
